(** * System V semaphores: a shallow embedding of
      pkg/sentry/kernel/semaphore/semaphore.go

    The Go code is translated function by function.  Fixed-width integers
    are [Z] with the wrap-around written out, slices are lists indexed with
    a bounds check that panics, Go maps are [gmap]s, and the buffered wake
    channels live in an explicit channel store that every operation
    threads through.  The mutexes are not modelled: every exported
    operation runs under [s.mu] (and [r.mu]) from start to end, so each
    call is one atomic step of the model. *)

From stdpp Require Import base numbers option list gmap fin_maps.

Local Open Scope Z_scope.

(** ** Machine integers *)

(** Conversion to [int16], [int32] and [uint16]: two's complement
    wrap-around, as Go defines integer overflow. *)
Definition int16 (z : Z) : Z := (z + 32768) `mod` 65536 - 32768.
Definition int32 (z : Z) : Z := (z + 2147483648) `mod` 4294967296 - 2147483648.
Definition uint16 (z : Z) : Z := z `mod` 65536.

Definition is_int16 (z : Z) : Prop := -32768 ≤ z ≤ 32767.
Definition is_uint16 (z : Z) : Prop := 0 ≤ z ≤ 65535.
Definition is_int32 (z : Z) : Prop := -2147483648 ≤ z ≤ 2147483647.

(** ** Constants of package abi/linux *)

(** Modelled from the spec: the constants [linux.SEMVMX], [linux.SEMMNI],
    [linux.SEMMSL], [linux.SEMMNS], [linux.IPC_NOWAIT] and
    [linux.CAP_IPC_OWNER] are declared in package abi/linux, outside the
    semaphore package; section 6 of the specification requires them to
    match the host ABI, whose values these are. *)
Definition SEMVMX : Z := 32767.
Definition SEMMNI : Z := 32000.
Definition SEMMSL : Z := 32000.
Definition SEMMNS : Z := SEMMNI * SEMMSL.
Definition IPC_NOWAIT : Z := 2048.
Definition CAP_IPC_OWNER : Z := 15.

Definition valueMax : Z := SEMVMX.
Definition setsMax : Z := SEMMNI.
Definition semsMax : Z := SEMMSL.
Definition semsTotalMax : Z := SEMMNS.

(** ** Errors and outcomes *)

Inductive errno : Set :=
  | EINVAL | EACCES | ENOENT | EEXIST | ENOSPC | ENOMEM
  | ERANGE | EFBIG | EIDRM | ErrWouldBlock.

Global Instance errno_eq_dec : EqDecision errno.
Proof. solve_decision. Defined.

(** What a call does besides returning: it may panic (a failed bounds
    check, an explicit [panic]), its goroutine may block in a channel send
    that finds the buffer full, or the model may run out of the fuel that
    bounds the one unbounded loop ([newSet]). *)
Inductive exec (A : Type) : Type :=
  | Done (a : A)
  | Panic
  | Stuck
  | Fuel.
Global Arguments Done {A} a.
Global Arguments Panic {A}.
Global Arguments Stuck {A}.
Global Arguments Fuel {A}.

Global Instance exec_ret : MRet exec := @Done.
Global Instance exec_bind : MBind exec := λ A B f m,
  match m with
  | Done a => f a
  | Panic => Panic
  | Stuck => Stuck
  | Fuel => Fuel
  end.

(** [l[i]] on a Go slice: a runtime bounds check, then the element. *)
Definition index {A} (l : list A) (i : Z) : exec A :=
  if bool_decide (0 ≤ i) then
    match l !! Z.to_nat i with
    | Some x => Done x
    | None => Panic
    end
  else Panic.

(** ** Wake channels *)

(** A channel value is a reference; the store maps each allocated channel
    to the number of elements in its buffer.  All channels of this package
    are made by [newWaiter] with capacity 1. *)
Abbreviation chan := nat (only parsing).
Abbreviation heap := (list nat) (only parsing).
Definition chanCap : nat := 1.

(** [make(chan struct{}, 1)] *)
Definition make_chan (h : heap) : chan * heap := (length h, h ++ [0%nat]).

(** [ch <- struct{}{}]: the send completes when the buffer has room and
    blocks the sender otherwise (as does a send on a channel that does not
    exist). *)
Definition send (h : heap) (c : chan) : exec heap :=
  match h !! c with
  | Some n => if bool_decide (n < chanCap)%nat then Done (<[c := S n]> h) else Stuck
  | None => Stuck
  end.

(** [<-ch], done by the caller of [ExecuteOps] outside this package;
    [None] when there is nothing to receive yet. *)
Definition recv (h : heap) (c : chan) : option heap :=
  match h !! c with
  | Some (S n) => Some (<[c := n]> h)
  | _ => None
  end.

(** ** Collaborators: credentials, owners, permissions *)

Record FileOwner : Set := { UID : Z; GID : Z }.

Record PermMask : Set := { Read : bool; Write : bool; Execute : bool }.

Record FilePermissions : Set :=
  { User : PermMask; Group : PermMask; Other : PermMask }.

(** Modelled from the spec: [fs.PermMask.SupersetOf] belongs to package fs.
    Section 4.4 asks that "the triad be a superset of reqMask": every bit
    requested is granted. *)
Definition SupersetOf (p other : PermMask) : bool :=
  (implb (Read other) (Read p)) && (implb (Write other) (Write p))
  && (implb (Execute other) (Execute p)).

(** The part of [auth.Credentials] the package consumes.
    [MapFromKUID_Ok uid] is [creds.UserNamespace.MapFromKUID(uid).Ok()]. *)
Record Credentials : Type :=
  { EffectiveKUID : Z;
    EffectiveKGID : Z;
    InGroup : Z → bool;
    HasCapabilityIn : Z → Z → bool;
    MapFromKUID_Ok : Z → bool }.

Record Context : Type :=
  { NowFromContext : Z;
    CredentialsFromContext : Credentials;
    FileOwnerFromContext : FileOwner }.

(** ** Data model *)

(** [waiter]: the fields are prefixed, [sem] has a [value] too. *)
Record waiter : Set := { w_value : Z; w_ch : chan }.

(** Modelled from the spec: [waiterList] and [waiterEntry] are generated
    from the intrusive list template, outside semaphore.go.  Section 9
    fixes their contract: enqueue at the tail, walk head to tail, remove
    by identity.  The list header is a field of [sem] held by value, so a
    queue is the list of the waiters it links, front first. *)
Abbreviation waiterList := (list waiter) (only parsing).

Definition PushBack (l : waiterList) (w : waiter) : waiterList := l ++ [w].
Definition Reset (l : waiterList) : waiterList := [].

Record sem : Set := { value : Z; waiters : waiterList; pid : Z }.

Record Set_ : Set :=
  { registry : Z;   (* the owning registry, through its immutable userNS *)
    ID : Z;
    key : Z;
    creator : FileOwner;
    owner : FileOwner;
    perms : FilePermissions;
    opTime : Z;
    changeTime : Z;
    sems : list sem;
    dead : bool }.

Record Sembuf : Set := { SemNum : Z; SemOp : Z; SemFlg : Z }.

(** Field updates. *)
Definition set_value (v : Z) (x : sem) : sem :=
  {| value := v; waiters := waiters x; pid := pid x |}.
Definition set_waiters (l : waiterList) (x : sem) : sem :=
  {| value := value x; waiters := l; pid := pid x |}.
Definition set_pid (p : Z) (x : sem) : sem :=
  {| value := value x; waiters := waiters x; pid := p |}.

Definition set_sems (l : list sem) (s : Set_) : Set_ :=
  {| registry := registry s; ID := ID s; key := key s; creator := creator s;
     owner := owner s; perms := perms s; opTime := opTime s;
     changeTime := changeTime s; sems := l; dead := dead s |}.
Definition set_opTime (t : Z) (s : Set_) : Set_ :=
  {| registry := registry s; ID := ID s; key := key s; creator := creator s;
     owner := owner s; perms := perms s; opTime := t;
     changeTime := changeTime s; sems := sems s; dead := dead s |}.
Definition set_changeTime (t : Z) (s : Set_) : Set_ :=
  {| registry := registry s; ID := ID s; key := key s; creator := creator s;
     owner := owner s; perms := perms s; opTime := opTime s;
     changeTime := t; sems := sems s; dead := dead s |}.
Definition set_dead (b : bool) (s : Set_) : Set_ :=
  {| registry := registry s; ID := ID s; key := key s; creator := creator s;
     owner := owner s; perms := perms s; opTime := opTime s;
     changeTime := changeTime s; sems := sems s; dead := b |}.
Definition set_ID (i : Z) (s : Set_) : Set_ :=
  {| registry := registry s; ID := i; key := key s; creator := creator s;
     owner := owner s; perms := perms s; opTime := opTime s;
     changeTime := changeTime s; sems := sems s; dead := dead s |}.
Definition set_owner_perms (o : FileOwner) (p : FilePermissions) (t : Z)
    (s : Set_) : Set_ :=
  {| registry := registry s; ID := ID s; key := key s; creator := creator s;
     owner := o; perms := p; opTime := opTime s;
     changeTime := t; sems := sems s; dead := dead s |}.

(** ** The set *)

(** [Size] *)
Definition Size (s : Set_) : Z := Z.of_nat (length (sems s)).

(** [findSem]: [None] is the nil pointer. *)
Definition findSem (s : Set_) (num : Z) : option sem :=
  if bool_decide (num < 0) || bool_decide (Size s ≤ num) then None
  else sems s !! Z.to_nat num.

(** [checkCredentials] *)
Definition checkCredentials (s : Set_) (creds : Credentials) : bool :=
  bool_decide (UID (owner s) = EffectiveKUID creds)
  || bool_decide (GID (owner s) = EffectiveKGID creds)
  || bool_decide (UID (creator s) = EffectiveKUID creds)
  || bool_decide (GID (creator s) = EffectiveKGID creds).

(** [checkCapability] *)
Definition checkCapability (s : Set_) (creds : Credentials) : bool :=
  HasCapabilityIn creds CAP_IPC_OWNER (registry s)
  && MapFromKUID_Ok creds (UID (owner s)).

(** [checkPerms] *)
Definition checkPerms (s : Set_) (creds : Credentials) (reqPerms : PermMask)
    : bool :=
  let p :=
    if bool_decide (UID (owner s) = EffectiveKUID creds) then User (perms s)
    else if InGroup creds (GID (owner s)) then Group (perms s)
    else Other (perms s) in
  if SupersetOf p reqPerms then true else checkCapability s creds.

(** [abs], on [int16]: the negation wraps. *)
Definition abs (val : Z) : Z :=
  if bool_decide (val < 0) then int16 (- val) else val.

(** [newWaiter] *)
Definition newWaiter (val : Z) (h : heap) : waiter * heap :=
  let '(c, h') := make_chan h in ({| w_value := val; w_ch := c |}, h').

(** The loop of [wakeWaiters] over the queue of a semaphore of value [v]:
    a waiter that is still blocked stays, any other is sent one signal and
    unlinked. *)
Fixpoint wakeLoop (v : Z) (ws : waiterList) (h : heap)
    : exec (waiterList * heap) :=
  match ws with
  | [] => Done ([], h)
  | w :: rest =>
      if bool_decide (v < abs (w_value w)) then
        '(rest', h') ← wakeLoop v rest h;
        Done (w :: rest', h')
      else
        h1 ← send h (w_ch w);
        wakeLoop v rest h1
  end.

(** [wakeWaiters] *)
Definition wakeWaiters (x : sem) (h : heap) : exec (sem * heap) :=
  '(ws, h') ← wakeLoop (value x) (waiters x) h;
  Done (set_waiters ws x, h').

(** A semaphore of the set is updated in place through its index. *)
Definition store_sem (s : Set_) (i : nat) (x : sem) : Set_ :=
  set_sems (<[i := x]> (sems s)) s.

(** [Change] *)
Definition Change (ctx : Context) (s : Set_) (creds : Credentials)
    (owner' : FileOwner) (perms' : FilePermissions) : Set_ * option errno :=
  if negb (checkCredentials s creds) && negb (checkCapability s creds) then
    (s, Some EACCES)
  else (set_owner_perms owner' perms' (NowFromContext ctx) s, None).

(** [SetVal] *)
Definition SetVal (ctx : Context) (s : Set_) (h : heap) (num val : Z)
    (creds : Credentials) (pid' : Z) : exec (Set_ * heap * option errno) :=
  if bool_decide (val < 0) || bool_decide (val > valueMax) then
    Done (s, h, Some ERANGE)
  else if negb (checkPerms s creds {| Read := false; Write := true; Execute := false |}) then
    Done (s, h, Some EACCES)
  else
    match findSem s num with
    | None => Done (s, h, Some ERANGE)
    | Some x =>
        let x := set_pid pid' (set_value val x) in
        let s := set_changeTime (NowFromContext ctx) (store_sem s (Z.to_nat num) x) in
        '(x', h') ← wakeWaiters x h;
        Done (store_sem s (Z.to_nat num) x', h', None)
    end.

(** The first loop of [SetValAll]: every value is checked before any
    change. *)
Definition valsInRange (vals : list Z) : bool :=
  forallb (λ val, negb (bool_decide (val > valueMax))) vals.

(** The second loop of [SetValAll], from index [i] on. *)
Fixpoint setAll (s : Set_) (h : heap) (pid' : Z) (i : nat) (vals : list Z)
    : exec (Set_ * heap) :=
  match vals with
  | [] => Done (s, h)
  | val :: rest =>
      x ← index (sems s) (Z.of_nat i);
      let x := set_pid pid' (set_value (int16 val) x) in
      '(x', h') ← wakeWaiters x h;
      setAll (store_sem s i x') h' pid' (S i) rest
  end.

(** [SetValAll]; [vals] is a [[]uint16]. *)
Definition SetValAll (ctx : Context) (s : Set_) (h : heap) (vals : list Z)
    (creds : Credentials) (pid' : Z) : exec (Set_ * heap * option errno) :=
  if negb (bool_decide (Z.of_nat (length vals) = Size s)) then Panic
  else if negb (valsInRange vals) then Done (s, h, Some ERANGE)
  else if negb (checkPerms s creds {| Read := false; Write := true; Execute := false |}) then
    Done (s, h, Some EACCES)
  else
    '(s', h') ← setAll s h pid' 0 vals;
    Done (set_changeTime (NowFromContext ctx) s', h', None).

(** [GetVal] *)
Definition GetVal (s : Set_) (num : Z) (creds : Credentials) : Z * option errno :=
  if negb (checkPerms s creds {| Read := true; Write := false; Execute := false |}) then
    (0, Some EACCES)
  else
    match findSem s num with
    | None => (0, Some ERANGE)
    | Some x => (value x, None)
    end.

(** [GetValAll]: the values converted to [uint16]; [None] is the nil
    slice. *)
Definition GetValAll (s : Set_) (creds : Credentials)
    : option (list Z) * option errno :=
  if negb (checkPerms s creds {| Read := true; Write := false; Execute := false |}) then
    (None, Some EACCES)
  else (Some (map (λ x, uint16 (value x)) (sems s)), None).

(** [GetPID] *)
Definition GetPID (s : Set_) (num : Z) (creds : Credentials) : Z * option errno :=
  if negb (checkPerms s creds {| Read := true; Write := false; Execute := false |}) then
    (0, Some EACCES)
  else
    match findSem s num with
    | None => (0, Some ERANGE)
    | Some x => (pid x, None)
    end.

(** [countWaiters]; the counter is a [uint16]. *)
Definition countWaiters (s : Set_) (num : Z) (creds : Credentials)
    (pred : waiter → bool) : Z * option errno :=
  if negb (checkPerms s creds {| Read := true; Write := false; Execute := false |}) then
    (0, Some EACCES)
  else
    match findSem s num with
    | None => (0, Some ERANGE)
    | Some x =>
        (fold_left (λ cnt w, if pred w then uint16 (cnt + 1) else cnt)
           (waiters x) 0, None)
    end.

Definition CountZeroWaiters (s : Set_) (num : Z) (creds : Credentials) :=
  countWaiters s num creds (λ w, bool_decide (w_value w = 0)).

Definition CountNegativeWaiters (s : Set_) (num : Z) (creds : Credentials) :=
  countWaiters s num creds (λ w, bool_decide (w_value w < 0)).

(** ** The atomic engine *)

(** What [ExecuteOps] returns: the wake channel ([None] is nil), the index
    of the semaphore waited on, and the error ([None] is nil). *)
Definition ops_ret : Type := option chan * Z * option errno.

(** The commit loop of [executeOps], from index [i] on: the value, then
    the wake-up pass, then the pid, for every semaphore of the set. *)
Fixpoint applyVals (s : Set_) (h : heap) (pid' : Z) (i : nat) (tmpVals : list Z)
    : exec (Set_ * heap) :=
  match tmpVals with
  | [] => Done (s, h)
  | v :: rest =>
      x ← index (sems s) (Z.of_nat i);
      '(x', h') ← wakeWaiters (set_value v x) h;
      applyVals (store_sem s i (set_pid pid' x')) h' pid' (S i) rest
  end.

(** The waiter that [executeOps] queues when [op] must wait. *)
Definition enqueue (s : Set_) (h : heap) (op : Sembuf) : exec (Set_ * heap * ops_ret) :=
  x ← index (sems s) (SemNum op);
  let '(w, h') := newWaiter (SemOp op) h in
  Done (store_sem s (Z.to_nat (SemNum op)) (set_waiters (PushBack (waiters x) w) x),
        h', (Some (w_ch w), int32 (SemNum op), None)).

(** The loop of [executeOps] over the operations, on the scratch vector
    [tmpVals], followed by the commit when every operation went through. *)
Fixpoint executeOps_loop (ctx : Context) (s : Set_) (h : heap) (pid' : Z)
    (ops : list Sembuf) (tmpVals : list Z) : exec (Set_ * heap * ops_ret) :=
  match ops with
  | [] =>
      '(s', h') ← applyVals s h pid' 0 tmpVals;
      Done (set_opTime (NowFromContext ctx) s', h', (None, 0, None))
  | op :: rest =>
      _ ← index (sems s) (SemNum op);
      cur ← index tmpVals (SemNum op);
      if bool_decide (SemOp op = 0) then
        if bool_decide (cur ≠ 0) then
          if bool_decide (Z.land (SemFlg op) IPC_NOWAIT ≠ 0) then
            Done (s, h, (None, 0, Some ErrWouldBlock))
          else enqueue s h op
        else executeOps_loop ctx s h pid' rest tmpVals
      else
        let next :=
          executeOps_loop ctx s h pid' rest
            (<[Z.to_nat (SemNum op) := int16 (cur + SemOp op)]> tmpVals) in
        if bool_decide (SemOp op < 0) then
          if bool_decide (int16 (- SemOp op) > valueMax) then
            Done (s, h, (None, 0, Some ERANGE))
          else if bool_decide (int16 (- SemOp op) > cur) then
            if bool_decide (Z.land (SemFlg op) IPC_NOWAIT ≠ 0) then
              Done (s, h, (None, 0, Some ErrWouldBlock))
            else enqueue s h op
          else next
        else
          if bool_decide (cur > int16 (valueMax - SemOp op)) then
            Done (s, h, (None, 0, Some ERANGE))
          else next
  end.

(** [executeOps] *)
Definition executeOps (ctx : Context) (s : Set_) (h : heap)
    (ops : list Sembuf) (pid' : Z) : exec (Set_ * heap * ops_ret) :=
  executeOps_loop ctx s h pid' ops (map value (sems s)).

(** The validation loop of [ExecuteOps]: [inl EFBIG] at the first
    operation on a semaphore that does not exist, else [readOnly]. *)
Fixpoint validateOps (s : Set_) (ops : list Sembuf) (readOnly : bool)
    : errno + bool :=
  match ops with
  | [] => inr readOnly
  | op :: rest =>
      match findSem s (int32 (SemNum op)) with
      | None => inl EFBIG
      | Some _ =>
          validateOps s rest
            (if bool_decide (SemOp op ≠ 0) then false else readOnly)
      end
  end.

(** [ExecuteOps] *)
Definition ExecuteOps (ctx : Context) (s : Set_) (h : heap)
    (ops : list Sembuf) (creds : Credentials) (pid' : Z)
    : exec (Set_ * heap * ops_ret) :=
  if dead s then Done (s, h, (None, 0, Some EIDRM))
  else
    match validateOps s ops true with
    | inl e => Done (s, h, (None, 0, Some e))
    | inr readOnly =>
        if negb (checkPerms s creds
                   {| Read := readOnly; Write := negb readOnly; Execute := false |})
        then Done (s, h, (None, 0, Some EACCES))
        else
          '(s', h', (ch, num, err)) ← executeOps ctx s h ops pid';
          match err with
          | Some e => Done (s', h', (None, 0, Some e))
          | None => Done (s', h', (ch, num, None))
          end
    end.

(** The scan of [AbortWait]: the first waiter on channel [ch] is
    unlinked. *)
Fixpoint removeWaiter (ch : chan) (ws : waiterList) : waiterList :=
  match ws with
  | [] => []
  | w :: rest =>
      if bool_decide (w_ch w = ch) then rest else w :: removeWaiter ch rest
  end.

(** [AbortWait] *)
Definition AbortWait (s : Set_) (num : Z) (ch : chan) : exec Set_ :=
  x ← index (sems s) num;
  Done (store_sem s (Z.to_nat num) (set_waiters (removeWaiter ch (waiters x)) x)).

(** The inner loop of [destroy]: one send per queued waiter. *)
Fixpoint notifyAll (ws : waiterList) (h : heap) : exec heap :=
  match ws with
  | [] => Done h
  | w :: rest => h' ← send h (w_ch w); notifyAll rest h'
  end.

(** The body of the outer loop of [destroy] on its range variable.  In
    [for _, s := range s.sems] the variable is a copy of the element: the
    sends go to the channels the queue links, [Reset] empties the queue
    header of the copy. *)
Definition destroyOne (copy : sem) (h : heap) : exec (sem * heap) :=
  h' ← notifyAll (waiters copy) h;
  Done (set_waiters (Reset (waiters copy)) copy, h').

(** The outer loop of [destroy]: the copy is dropped at the end of each
    iteration, the elements of [s.sems] are read and never written. *)
Fixpoint destroyLoop (elems : list sem) (h : heap) : exec heap :=
  match elems with
  | [] => Done h
  | x :: rest => '(_, h') ← destroyOne x h; destroyLoop rest h'
  end.

(** [destroy] *)
Definition destroy (s : Set_) (h : heap) : exec (Set_ * heap) :=
  let s := set_dead true s in
  h' ← destroyLoop (sems s) h;
  Done (s, h').

(** ** The registry *)

(** [r.semaphores] maps an id to the set object itself: a registered set
    is reached through its id, and [RemoveID] hands the removed object
    back next to the registry, for the callers that still hold it. *)
Record Registry : Type :=
  { userNS : Z;
    semaphores : gmap Z Set_;
    lastIDUsed : Z;
    indexes : gmap Z Z }.

(** [NewRegistry] *)
Definition NewRegistry (userNS' : Z) : Registry :=
  {| userNS := userNS'; semaphores := ∅; lastIDUsed := 0; indexes := ∅ |}.

(** Go leaves the order of [for ... range] over a map unspecified.  The
    two scans that range over a map take the sequence of entries they
    visit as an argument; [range_of m l] says that [l] is such a
    sequence. *)
Definition range_of {V} (m : gmap Z V) (l : list (Z * V)) : Prop :=
  l ≡ₚ map_to_list m.

(** [findByKey], visiting the entries in the order [range]. *)
Fixpoint findByKey (range : list (Z * Set_)) (key' : Z) : option Set_ :=
  match range with
  | [] => None
  | (_, v) :: rest =>
      if bool_decide (key v = key') then Some v else findByKey rest key'
  end.

(** [findIndexByID], visiting the entries in the order [range]. *)
Fixpoint findIndexByID (range : list (Z * Z)) (id : Z) : option Z :=
  match range with
  | [] => None
  | (k, v) :: rest =>
      if bool_decide (v = id) then Some k else findIndexByID rest id
  end.

(** The loop of [findFirstAvailableIndex], with [n] indexes left to try. *)
Fixpoint firstAvailable (idx : gmap Z Z) (n : nat) (index' : Z) : option Z :=
  match n with
  | O => None
  | S n' =>
      match idx !! index' with
      | None => Some index'
      | Some _ => firstAvailable idx n' (int32 (index' + 1))
      end
  end.

(** [findFirstAvailableIndex] *)
Definition findFirstAvailableIndex (r : Registry) : option Z :=
  firstAvailable (indexes r) (Z.to_nat setsMax) 0.

(** [totalSems] *)
Definition totalSems (r : Registry) : Z :=
  map_fold (λ _ v total, total + Size v) 0 (semaphores r).

(** The search loop of [newSet] from [id] on, the loop condition first.
    On a negative [id] the body sets it to 0 and continues, and the post
    statement [id++] runs before the condition is tested again. *)
Fixpoint newSet_loop (fuel : nat) (r : Registry) (set : Set_) (id : Z)
    : exec (Registry * (option Set_ * option errno)) :=
  match fuel with
  | O => Fuel
  | S fuel' =>
      if bool_decide (id ≠ lastIDUsed r) then
        if bool_decide (id < 0) then newSet_loop fuel' r set (int32 (0 + 1))
        else
          match semaphores r !! id with
          | None =>
              match findFirstAvailableIndex r with
              | None => Panic
              | Some index' =>
                  let set := set_ID id set in
                  Done ({| userNS := userNS r;
                           semaphores := <[id := set]> (semaphores r);
                           lastIDUsed := id;
                           indexes := <[index' := id]> (indexes r) |},
                        (Some set, None))
              end
          | Some _ => newSet_loop fuel' r set (int32 (id + 1))
          end
      else Done (r, (None, Some ENOMEM))
  end.

(** [newSet]; the [creator] argument is not used by the code, the creator
    of the new set is [owner]. *)
Definition newSet (fuel : nat) (r : Registry) (ctx : Context) (key' : Z)
    (owner' creator' : FileOwner) (perms' : FilePermissions) (nsems : Z)
    : exec (Registry * (option Set_ * option errno)) :=
  let set :=
    {| registry := userNS r; ID := 0; key := key'; creator := owner';
       owner := owner'; perms := perms'; opTime := 0;
       changeTime := NowFromContext ctx;
       sems := replicate (Z.to_nat nsems) {| value := 0; waiters := []; pid := 0 |};
       dead := false |} in
  newSet_loop fuel r set (int32 (lastIDUsed r + 1)).

(** [FindByID] *)
Definition FindByID (r : Registry) (id : Z) : option Set_ := semaphores r !! id.

(** [FindByIndex] *)
Definition FindByIndex (r : Registry) (index' : Z) : option Set_ :=
  match indexes r !! index' with
  | None => None
  | Some id => semaphores r !! id
  end.

(** [HighestIndex] *)
Definition HighestIndex (r : Registry) : Z :=
  map_fold (λ index' _ highestIndex,
              if bool_decide (index' > highestIndex) then index' else highestIndex)
    0 (indexes r).

Section Registry.

(** [fs.PermsFromMode] and [fs.FilePermsFromMode] belong to package fs;
    the registry only passes their results on. *)
Variable PermsFromMode : Z → PermMask.
Variable FilePermsFromMode : Z → FilePermissions.

(** The tail of [FindOrCreate], from "Zero is only valid if an existing
    set is found" on. *)
Definition createSet (fuel : nat) (r : Registry) (ctx : Context)
    (key' nsems mode : Z) : exec (Registry * (option Set_ * option errno)) :=
  if bool_decide (nsems = 0) then Done (r, (None, Some EINVAL))
  else if bool_decide (setsMax ≤ Z.of_nat (size (semaphores r))) then
    Done (r, (None, Some ENOSPC))
  else if bool_decide (totalSems r > int32 (semsTotalMax - nsems)) then
    Done (r, (None, Some ENOSPC))
  else
    let owner' := FileOwnerFromContext ctx in
    let perms' := FilePermsFromMode mode in
    newSet fuel r ctx key' owner' owner' perms' nsems.

(** [FindOrCreate]; [range] is the order in which [findByKey] visits
    [r.semaphores]. *)
Definition FindOrCreate (fuel : nat) (range : list (Z * Set_))
    (r : Registry) (ctx : Context) (key' nsems mode : Z)
    (private create exclusive : bool)
    : exec (Registry * (option Set_ * option errno)) :=
  if bool_decide (nsems < 0) || bool_decide (nsems > semsMax) then
    Done (r, (None, Some EINVAL))
  else if negb private then
    match findByKey range key' with
    | Some set =>
        let creds := CredentialsFromContext ctx in
        if negb (checkPerms set creds (PermsFromMode mode)) then
          Done (r, (None, Some EACCES))
        else if bool_decide (nsems > int32 (Size set)) then
          Done (r, (None, Some EINVAL))
        else if create && exclusive then Done (r, (None, Some EEXIST))
        else Done (r, (Some set, None))
    | None =>
        if negb create then Done (r, (None, Some ENOENT))
        else createSet fuel r ctx key' nsems mode
    end
  else createSet fuel r ctx key' nsems mode.

End Registry.

(** [RemoveID]; [range] is the order in which [findIndexByID] visits
    [r.indexes].  The removed set, marked dead, is returned with the
    registry. *)
Definition RemoveID (range : list (Z * Z)) (r : Registry) (h : heap)
    (id : Z) (creds : Credentials)
    : exec (Registry * heap * option Set_ * option errno) :=
  match semaphores r !! id with
  | None => Done (r, h, None, Some EINVAL)
  | Some set =>
      match findIndexByID range id with
      | None => Panic
      | Some index' =>
          if negb (checkCredentials set creds) && negb (checkCapability set creds)
          then Done (r, h, None, Some EACCES)
          else
            let r' := {| userNS := userNS r;
                         semaphores := delete (ID set) (semaphores r);
                         lastIDUsed := lastIDUsed r;
                         indexes := delete index' (indexes r) |} in
            '(set', h') ← destroy set h;
            Done (r', h', Some set', None)
      end
  end.

(** A call on a registered set through its handle: the object in the
    registry is the one that changes. *)
Definition withSet {A} (r : Registry) (id : Z)
    (f : Set_ → exec (Set_ * A)) : exec (Registry * A) :=
  match semaphores r !! id with
  | None => Panic
  | Some set =>
      '(set', a) ← f set;
      Done ({| userNS := userNS r;
               semaphores := <[id := set']> (semaphores r);
               lastIDUsed := lastIDUsed r;
               indexes := indexes r |}, a)
  end.

(** ** Vocabulary of the statements *)

(** [m'] is a sub-mask of [m]: every bit set in [m'] is set in [m]. *)
Definition subMask (m' m : PermMask) : Prop :=
  (Read m' → Read m) ∧ (Write m' → Write m) ∧ (Execute m' → Execute m).

(** The values a [linux.Sembuf] can hold: [SemNum] is a [uint16], [SemOp]
    and [SemFlg] are [int16]. *)
Definition wf_Sembuf (op : Sembuf) : Prop :=
  is_uint16 (SemNum op) ∧ is_int16 (SemOp op) ∧ is_int16 (SemFlg op).

(** [op] carries the [IPC_NOWAIT] flag. *)
Definition nowait (op : Sembuf) : Prop := Z.land (SemFlg op) IPC_NOWAIT ≠ 0.

(** All the waiters queued on a slice of semaphores, and on the
    semaphores of a set. *)
Definition queuedOn (l : list sem) : list waiter := concat (map waiters l).
Definition queued (s : Set_) : list waiter := queuedOn (sems s).

(** The discipline of the wake channels: every queued waiter has a channel
    of its own, and that channel is empty. *)
Definition chansOf (ws : list waiter) : list chan := w_ch <$> ws.
Definition quiet (l : list sem) (h : heap) : Prop :=
  NoDup (chansOf (queuedOn l)) ∧
  Forall (λ c, h !! c = Some 0%nat) (chansOf (queuedOn l)).

(** The calls that change a set or its channels, as the holders of a
    handle on the set make them one after the other.  [CallReceive] is a
    caller taking the signal out of its wake channel (nothing happens when
    there is none), [CallDestroy] is the second half of [RemoveID]. *)
Inductive call : Type :=
  | CallExecuteOps (ctx : Context) (ops : list Sembuf) (creds : Credentials) (pid' : Z)
  | CallSetVal (ctx : Context) (num val : Z) (creds : Credentials) (pid' : Z)
  | CallSetValAll (ctx : Context) (vals : list Z) (creds : Credentials) (pid' : Z)
  | CallChange (ctx : Context) (creds : Credentials) (owner' : FileOwner)
      (perms' : FilePermissions)
  | CallAbortWait (num : Z) (ch : chan)
  | CallReceive (ch : chan)
  | CallDestroy.

Definition step (c : call) (st : Set_ * heap) : exec (Set_ * heap) :=
  let '(s, h) := st in
  match c with
  | CallExecuteOps ctx ops creds pid' =>
      '(s', h', _) ← ExecuteOps ctx s h ops creds pid'; Done (s', h')
  | CallSetVal ctx num val creds pid' =>
      '(s', h', _) ← SetVal ctx s h num val creds pid'; Done (s', h')
  | CallSetValAll ctx vals creds pid' =>
      '(s', h', _) ← SetValAll ctx s h vals creds pid'; Done (s', h')
  | CallChange ctx creds owner' perms' =>
      Done (fst (Change ctx s creds owner' perms'), h)
  | CallAbortWait num ch => s' ← AbortWait s num ch; Done (s', h)
  | CallReceive ch => Done (s, default h (recv h ch))
  | CallDestroy => destroy s h
  end.

Fixpoint run (cs : list call) (st : Set_ * heap) : exec (Set_ * heap) :=
  match cs with
  | [] => Done st
  | c :: rest => st' ← step c st; run rest st'
  end.

Definition is_destroy (c : call) : bool :=
  match c with CallDestroy => true | _ => false end.

(** Two operations that differ in their flags at most. *)
Definition sameOp (a b : Sembuf) : Prop :=
  SemNum a = SemNum b ∧ SemOp a = SemOp b.

(** A call ends when it returns or panics: no send blocks.  [ends m Q]
    also asks for [Q] of what is returned. *)
Definition ends {A} (m : exec A) (Q : A → Prop) : Prop :=
  match m with
  | Done a => Q a
  | Panic => True
  | Stuck | Fuel => False
  end.

(** ** Concrete scenarios *)

(** Modelled from the spec: [fs.FilePermsFromMode] and [fs.PermsFromMode]
    belong to package fs.  Section 6: "mode bits use the standard 9-bit
    owner/group/other x read/write/exec encoding; exec is ignored";
    section 4.1: the mask checked by [FindOrCreate] has the "read/write
    bits derived from mode's owner triad". *)
Definition triad (mode : Z) (shift : Z) : PermMask :=
  {| Read := Z.testbit mode (shift + 2);
     Write := Z.testbit mode (shift + 1);
     Execute := false |}.
Definition FilePermsFromMode_spec (mode : Z) : FilePermissions :=
  {| User := triad mode 6; Group := triad mode 3; Other := triad mode 0 |}.
Definition PermsFromMode_spec (mode : Z) : PermMask := triad mode 6.

(** Two unprivileged users and the contexts of their calls. *)
Definition alice : Credentials :=
  {| EffectiveKUID := 1000; EffectiveKGID := 1000;
     InGroup := λ g, bool_decide (g = 1000);
     HasCapabilityIn := λ _ _, false;
     MapFromKUID_Ok := λ _, true |}.
Definition bob : Credentials :=
  {| EffectiveKUID := 2000; EffectiveKGID := 2000;
     InGroup := λ g, bool_decide (g = 2000);
     HasCapabilityIn := λ _ _, false;
     MapFromKUID_Ok := λ _, true |}.
Definition ctx_alice : Context :=
  {| NowFromContext := 1; CredentialsFromContext := alice;
     FileOwnerFromContext := {| UID := 1000; GID := 1000 |} |}.
Definition ctx_bob : Context :=
  {| NowFromContext := 2; CredentialsFromContext := bob;
     FileOwnerFromContext := {| UID := 2000; GID := 2000 |} |}.

(** [FindOrCreate] with the permissions decoded as above, the scan of
    [findByKey] in the order of [map_to_list], and fuel for 4 rounds of
    the search of [newSet]. *)
Definition semget (r : Registry) (ctx : Context) (key' nsems mode : Z)
    (private create exclusive : bool) :=
  FindOrCreate PermsFromMode_spec FilePermsFromMode_spec 4
    (map_to_list (semaphores r)) r ctx key' nsems mode private create exclusive.

(** A set of [n] semaphores with key 7 and mode 0600, as alice gets it
    from an empty registry. *)
Definition created (n : Z) : exec (Registry * Set_) :=
  '(r, (set, _)) ← semget (NewRegistry 0) ctx_alice 7 n 384 false true false;
  match set with
  | Some s => Done (r, s)
  | None => Panic
  end.

(** The set of two semaphores, as a value: what [created 2] returns. *)
Definition pair_set : Set_ :=
  {| registry := 0; ID := 1; key := 7;
     creator := {| UID := 1000; GID := 1000 |};
     owner := {| UID := 1000; GID := 1000 |};
     perms := FilePermsFromMode_spec 384;
     opTime := 0; changeTime := 1;
     sems := [ {| value := 0; waiters := []; pid := 0 |};
               {| value := 0; waiters := []; pid := 0 |} ];
     dead := false |}.

Definition sembuf (num op flg : Z) : Sembuf :=
  {| SemNum := num; SemOp := op; SemFlg := flg |}.

(** Alice creates a set of one semaphore and runs the single
    operation (0, -32768, 0) on it; what [ExecuteOps] returns, and what
    [GetVal] and [GetValAll] show afterwards. *)
Definition underflow : exec (ops_ret * (Z * option errno)
                             * (option (list Z) * option errno)) :=
  '(_, s0) ← created 1;
  '(s1, _, ret) ← ExecuteOps ctx_alice s0 [] [sembuf 0 (-32768) 0] alice 100;
  Done (ret, GetVal s1 0 alice, GetValAll s1 alice).

(** A registry whose last id is the largest [int32], with no set
    left in it. *)
Definition wrapped : Registry :=
  {| userNS := 0; semaphores := ∅; lastIDUsed := 2147483647; indexes := ∅ |}.

(** Alice creates a set of one semaphore and blocks on (0, -1, 0);
    the set is removed; the state of the removed set and of the
    channels. *)
Definition removed_while_waiting : exec (Set_ * heap) :=
  '(r1, _) ← created 1;
  '(r2, (h2, _)) ← withSet r1 1 (λ s,
      '(s', h', ret) ← ExecuteOps ctx_alice s [] [sembuf 0 (-1) 0] alice 100;
      Done (s', (h', ret)));
  '(_, h3, gone, _) ← RemoveID (map_to_list (indexes r2)) r2 h2 1 alice;
  match gone with
  | Some s => Done (s, h3)
  | None => Panic
  end.

(** ... and then a holder of the removed set calls [SetVal] on it. *)
Definition setval_after_removal : exec (Set_ * heap * option errno) :=
  '(s, h) ← removed_while_waiting;
  SetVal ctx_alice s h 0 1 alice 200.

(** [pair_set] after alice has blocked on (0, -1, 0): one waiter on
    channel 0 at the tail of the first queue. *)
Definition pair_blocked : Set_ :=
  store_sem pair_set 0
    {| value := 0; waiters := [{| w_value := -1; w_ch := 0%nat |}]; pid := 0 |}.

(** Alice creates a set of one semaphore, and removes it. *)
Definition removed_idle : exec (Set_ * heap) :=
  '(r1, _) ← created 1;
  '(_, h, gone, _) ← RemoveID (map_to_list (indexes r1)) r1 [] 1 alice;
  match gone with
  | Some s => Done (s, h)
  | None => Panic
  end.

(** The set of one semaphore and the registry that holds it: what
    [created 1] returns. *)
Definition single_set : Set_ :=
  {| registry := 0; ID := 1; key := 7;
     creator := {| UID := 1000; GID := 1000 |};
     owner := {| UID := 1000; GID := 1000 |};
     perms := FilePermsFromMode_spec 384;
     opTime := 0; changeTime := 1;
     sems := [ {| value := 0; waiters := []; pid := 0 |} ];
     dead := false |}.
Definition reg7 : Registry :=
  {| userNS := 0; semaphores := {[ 1 := single_set ]}; lastIDUsed := 1;
     indexes := {[ 0 := 1 ]} |}.

(** [single_set] with one waiter for (0, -1, 0) on channel 0. *)
Definition single_blocked : Set_ :=
  store_sem single_set 0
    {| value := 0; waiters := [{| w_value := -1; w_ch := 0%nat |}]; pid := 0 |}.

(** Every value of the set lies in [0, valueMax]. *)
Definition in_range (s : Set_) : Prop :=
  Forall (λ x, 0 ≤ value x ≤ valueMax) (sems s).

(** The arguments of a call have the values of their Go types. *)
Definition typed_call (c : call) : Prop :=
  match c with
  | CallExecuteOps _ ops _ _ => Forall wf_Sembuf ops
  | CallSetVal _ _ val _ _ => is_int16 val
  | CallSetValAll _ vals _ _ => Forall is_uint16 vals
  | _ => True
  end.

(** No operation of the call has the one [sem_op] whose negation
    overflows. *)
Definition no_min_op (c : call) : Prop :=
  match c with
  | CallExecuteOps _ ops _ _ => Forall (λ op, SemOp op ≠ -32768) ops
  | _ => True
  end.

(** One private set created by alice and removed again. *)
Definition cycle (r : Registry) : exec Registry :=
  '(r1, _) ← semget r ctx_alice 0 1 384 true false false;
  '(r2, _, _, _) ← RemoveID (map_to_list (indexes r1)) r1 [] (lastIDUsed r1) alice;
  Done r2.

(** ... [k] times over. *)
Fixpoint cycles (k : nat) (r : Registry) : exec Registry :=
  match k with
  | O => Done r
  | S k' => r' ← cycles k' r; cycle r'
  end.

(** ** Vocabulary of the further properties *)

(** A waiter [w] is still blocked on a semaphore of value [v]: the test of
    [wakeWaiters]. *)
Definition blocked (v : Z) (w : waiter) : Prop := v < abs (w_value w).

(** The net change that a batch asks of semaphore [i]: the sum of the
    [SemOp] of the operations that name it. *)
Fixpoint netOp (ops : list Sembuf) (i : Z) : Z :=
  match ops with
  | [] => 0
  | op :: rest => (if bool_decide (SemNum op = i) then SemOp op else 0) + netOp rest i
  end.

(** The masks of the permission checks. *)
Definition readMask : PermMask := {| Read := true; Write := false; Execute := false |}.
Definition writeMask : PermMask := {| Read := false; Write := true; Execute := false |}.

Global Instance blocked_dec (v : Z) (w : waiter) : Decision (blocked v w) :=
  decide (v < abs (w_value w)).

(** ** The descriptor of a set *)

(** Modelled from the spec: [linux.IPCPerm] and [linux.SemidDS] are
    declared in package abi/linux.  Section 6 gives the layout,
    "perm.{key, uid, gid, cuid, cgid, mode, seq=0}", "otime, ctime",
    "nsems as 64-bit"; the fields are the ones that [semStat] fills, with
    the widths of its conversions.  The fields of [IPCPerm] are prefixed,
    [FileOwner] has a [UID] and a [GID] too. *)
Record IPCPerm : Set :=
  { PermKey : Z; PermUID : Z; PermGID : Z; PermCUID : Z; PermCGID : Z;
    PermMode : Z; PermSeq : Z }.

Record SemidDS : Set :=
  { SemPerm : IPCPerm; SemOTime : Z; SemCTime : Z; SemNSems : Z }.

Definition uint32 (z : Z) : Z := z `mod` 4294967296.
Definition uint64 (z : Z) : Z := z `mod` 18446744073709551616.

Section Stat.

(** The mappings of ids into the user namespace of the caller
    ([creds.UserNamespace.MapFromKUID], [MapFromKGID]), the mode bits of
    the permissions ([fs.FilePermissions.LinuxMode]) and the conversion
    of a time ([ktime.Time.TimeT]) belong to other packages; [semStat]
    only copies their results. *)
Variable MapFromKUID : Credentials → Z → Z.
Variable MapFromKGID : Credentials → Z → Z.
Variable LinuxMode : FilePermissions → Z.
Variable TimeT : Z → Z.

(** [semStat]; [None] is the nil pointer. *)
Definition semStat (s : Set_) (creds : Credentials) (permMask : PermMask)
    : option SemidDS * option errno :=
  if negb (checkPerms s creds permMask) then (None, Some EACCES)
  else
    (Some {| SemPerm :=
               {| PermKey := uint32 (key s);
                  PermUID := uint32 (MapFromKUID creds (UID (owner s)));
                  PermGID := uint32 (MapFromKGID creds (GID (owner s)));
                  PermCUID := uint32 (MapFromKUID creds (UID (creator s)));
                  PermCGID := uint32 (MapFromKGID creds (GID (creator s)));
                  PermMode := uint16 (LinuxMode (perms s));
                  PermSeq := 0 |};
             SemOTime := TimeT (opTime s);
             SemCTime := TimeT (changeTime s);
             SemNSems := uint64 (Size s) |}, None).

(** [GetStat] *)
Definition GetStat (s : Set_) (creds : Credentials) :=
  semStat s creds {| Read := true; Write := false; Execute := false |}.

(** [GetStatAny] *)
Definition GetStatAny (s : Set_) (creds : Credentials) :=
  semStat s creds {| Read := false; Write := false; Execute := false |}.

End Stat.

(** What no call on a set changes: the registry it belongs to, its id,
    its key, its creator and the number of its semaphores. *)
Definition same_identity (s s' : Set_) : Prop :=
  registry s' = registry s ∧ ID s' = ID s ∧ key s' = key s ∧
  creator s' = creator s ∧ Size s' = Size s.

(** ** The invariant of the registry *)

(** What [NewRegistry] establishes and every call on the registry keeps:
    [lastIDUsed] is a non-negative [int32]; the two maps have the same
    size (the comment in [FindOrCreate]), within the limits on sets and on
    semaphores; a registered set is stored under its own id, a positive
    [int32], is not dead and has between 1 and [semsMax] semaphores; the
    indexes lie in [0, setsMax) and pair off with the ids in use, one
    index for each. *)
Definition reg_ok (r : Registry) : Prop :=
  0 ≤ lastIDUsed r ≤ 2147483647 ∧
  size (indexes r) = size (semaphores r) ∧
  Z.of_nat (size (semaphores r)) ≤ setsMax ∧
  totalSems r ≤ semsTotalMax ∧
  (∀ id s, semaphores r !! id = Some s →
     ID s = id ∧ 0 < id ≤ 2147483647 ∧ dead s = false ∧ 0 < Size s ≤ semsMax) ∧
  (∀ i id, indexes r !! i = Some id →
     0 ≤ i < setsMax ∧ is_Some (semaphores r !! id)) ∧
  (∀ id, is_Some (semaphores r !! id) → ∃ i, indexes r !! i = Some id) ∧
  (∀ i j id, indexes r !! i = Some id → indexes r !! j = Some id → i = j).

(** ** Further scenarios *)

(** A caller that holds every capability. *)
Definition root : Credentials :=
  {| EffectiveKUID := 0; EffectiveKGID := 0;
     InGroup := λ g, bool_decide (g = 0);
     HasCapabilityIn := λ _ _, true;
     MapFromKUID_Ok := λ _, true |}.

(** [single_set] with the value 3 and one waiter for zero on channel 0. *)
Definition waiting_for_zero : Set_ :=
  store_sem single_set 0
    {| value := 3; waiters := [{| w_value := 0; w_ch := 0%nat |}]; pid := 0 |}.

(** Ownership and permissions that shut everyone out: owner bob, mode 0. *)
Definition handed_over : Set_ :=
  fst (Change ctx_alice pair_set alice {| UID := 2000; GID := 2000 |}
         (FilePermsFromMode_spec 0)).

(** The registry after [n] private sets of one semaphore have been
    created by alice from a new registry, none removed: ids 1 to [n] at
    the indexes 0 to [n - 1]. *)
Fixpoint filled (n : nat) : Registry :=
  match n with
  | O => NewRegistry 0
  | S n' =>
      {| userNS := userNS (filled n');
         semaphores :=
           <[Z.of_nat n := set_ID (Z.of_nat n) single_set]> (semaphores (filled n'));
         lastIDUsed := Z.of_nat n;
         indexes := <[Z.of_nat n' := Z.of_nat n]> (indexes (filled n')) |}
  end.


(** * Properties *)

(** ** Basic facts about the outcome monad and the slices *)

Lemma exec_bind_Done {A B} (f : A → exec B) (m : exec A) (b : B) :
  m ≫= f = Done b → ∃ a, m = Done a ∧ f a = Done b.
Proof. destruct m; simpl; [eauto | discriminate..]. Qed.

Lemma index_Done {A} (l : list A) (i : Z) (x : A) :
  index l i = Done x ↔ 0 ≤ i ∧ l !! Z.to_nat i = Some x.
Proof.
  unfold index. case_bool_decide as Hi.
  - destruct (l !! Z.to_nat i) eqn:E; split.
    + intros [= ->]. done.
    + intros [_ [= ->]]. done.
    + discriminate.
    + intros [_ [=]].
  - split; [discriminate | intros [? _]; lia].
Qed.

Lemma index_Panic {A} (l : list A) (i : Z) :
  ¬ (0 ≤ i < Z.of_nat (length l)) → index l i = Panic.
Proof.
  intros Hi. unfold index. case_bool_decide as H0; [|done].
  rewrite lookup_ge_None_2; [done | lia].
Qed.

Lemma findSem_Some (s : Set_) (num : Z) (x : sem) :
  findSem s num = Some x ↔ 0 ≤ num ∧ sems s !! Z.to_nat num = Some x.
Proof.
  unfold findSem, Size.
  destruct (bool_decide (num < 0)) eqn:E1; simpl.
  { apply bool_decide_eq_true in E1. split; [discriminate | lia]. }
  apply bool_decide_eq_false in E1.
  destruct (bool_decide (Z.of_nat (length (sems s)) ≤ num)) eqn:E2; simpl.
  - apply bool_decide_eq_true in E2. split; [discriminate|].
    intros [_ Hx]. apply lookup_lt_Some in Hx. lia.
  - split; [intros ?; split; [lia | done] | intros [_ ?]; done].
Qed.

Lemma findSem_None (s : Set_) (num : Z) :
  findSem s num = None ↔ ¬ (0 ≤ num < Size s).
Proof.
  unfold findSem, Size.
  destruct (bool_decide (num < 0)) eqn:E1; simpl.
  { apply bool_decide_eq_true in E1. split; [lia | done]. }
  apply bool_decide_eq_false in E1.
  destruct (bool_decide (Z.of_nat (length (sems s)) ≤ num)) eqn:E2; simpl.
  - apply bool_decide_eq_true in E2. split; [lia | done].
  - apply bool_decide_eq_false in E2. rewrite lookup_ge_None. lia.
Qed.

Lemma store_sem_id (s : Set_) (i : nat) (x : sem) :
  sems s !! i = Some x → store_sem s i x = s.
Proof.
  intros Hx. unfold store_sem, set_sems. rewrite list_insert_id by done.
  by destruct s.
Qed.

(** What a write through the index changes: the element written, and
    nothing else of the set. *)
Lemma store_sem_lookup (s : Set_) (i : nat) (x y : sem) :
  sems s !! i = Some x →
  sems (store_sem s i y) !! i = Some y ∧
  (∀ j, j ≠ i → sems (store_sem s i y) !! j = sems s !! j) ∧
  length (sems (store_sem s i y)) = length (sems s).
Proof.
  intros Hx. unfold store_sem. simpl. split; [|split].
  - apply list_lookup_insert_eq. by eapply lookup_lt_Some.
  - intros j Hj. by apply list_lookup_insert_ne.
  - apply length_insert.
Qed.

(** ** Permissions *)

Lemma SupersetOf_subMask (p m m' : PermMask) :
  subMask m' m → SupersetOf p m = true → SupersetOf p m' = true.
Proof.
  destruct p as [[] [] []], m as [[] [] []], m' as [[] [] []];
    unfold subMask, SupersetOf; simpl; intros (Hr & Hw & Hx); intuition done.
Qed.

(** C9: permission checking is monotone in the requested mask: whenever
    [checkPerms] grants a mask it grants every sub-mask, for every set and
    every credentials. *)
Theorem checkPerms_monotone (s : Set_) (creds : Credentials) (m m' : PermMask) :
  subMask m' m →
  checkPerms s creds m = true →
  checkPerms s creds m' = true.
Proof.
  intros Hsub. unfold checkPerms.
  set (p := if bool_decide (UID (owner s) = EffectiveKUID creds) then _ else _).
  destruct (SupersetOf p m) eqn:Hm.
  - by rewrite (SupersetOf_subMask p m m' Hsub Hm).
  - intros ->. by destruct (SupersetOf p m').
Qed.

(** ** The atomic engine *)

(** The queue of semaphore [n] gets [w] at its tail, nothing else
    changes. *)
Lemma enqueue_Done (s s' : Set_) (h h' : heap) (op : Sembuf) (ret : ops_ret) :
  enqueue s h op = Done (s', h', ret) →
  ∃ x, 0 ≤ SemNum op ∧ sems s !! Z.to_nat (SemNum op) = Some x ∧
       s' = store_sem s (Z.to_nat (SemNum op))
              (set_waiters (waiters x ++ [{| w_value := SemOp op; w_ch := length h |}]) x) ∧
       h' = h ++ [0%nat] ∧
       ret = (Some (length h), int32 (SemNum op), None).
Proof.
  unfold enqueue. intros H.
  apply exec_bind_Done in H as (x & Hx & H).
  apply index_Done in Hx as [H0 Hx].
  simpl in H. injection H as <- <- <-. exists x. done.
Qed.

(** How the loop of [executeOps] can end: with [ERANGE] or
    [ErrWouldBlock] and nothing changed, with one waiter queued for an
    operation that does not carry [IPC_NOWAIT], or with the commit of a
    scratch vector as long as the initial one. *)
Lemma executeOps_loop_Done (ctx : Context) (p : Z) (ops : list Sembuf) :
  ∀ (tmpVals : list Z) (s s' : Set_) (h h' : heap) (ret : ops_ret),
  executeOps_loop ctx s h p ops tmpVals = Done (s', h', ret) →
  (s' = s ∧ h' = h ∧
     (ret = (None, 0, Some ErrWouldBlock) ∨ ret = (None, 0, Some ERANGE)))
  ∨ (∃ op, op ∈ ops ∧ Z.land (SemFlg op) IPC_NOWAIT = 0 ∧
       enqueue s h op = Done (s', h', ret))
  ∨ (∃ tmpVals' s1,
       length tmpVals' = length tmpVals ∧
       applyVals s h p 0 tmpVals' = Done (s1, h') ∧
       s' = set_opTime (NowFromContext ctx) s1 ∧
       ret = (None, 0, None)).
Proof.
  induction ops as [|op rest IH]; intros tmpVals s s' h h' ret H; simpl in H.
  - apply exec_bind_Done in H as ([s1 h1] & Happ & H).
    injection H as <- <- <-. right; right. exists tmpVals, s1. done.
  - apply exec_bind_Done in H as (x & Hx & H).
    apply exec_bind_Done in H as (cur & Hcur & H).
    assert (Hwait : (if bool_decide (Z.land (SemFlg op) IPC_NOWAIT ≠ 0)
                     then Done (s, h, (None, 0, Some ErrWouldBlock))
                     else enqueue s h op) = Done (s', h', ret) →
                    (s' = s ∧ h' = h ∧
                       (ret = (None, 0, Some ErrWouldBlock) ∨ ret = (None, 0, Some ERANGE)))
                    ∨ (∃ op', op' ∈ op :: rest ∧ Z.land (SemFlg op') IPC_NOWAIT = 0 ∧
                         enqueue s h op' = Done (s', h', ret))
                    ∨ (∃ tmpVals' s1,
                         length tmpVals' = length tmpVals ∧
                         applyVals s h p 0 tmpVals' = Done (s1, h') ∧
                         s' = set_opTime (NowFromContext ctx) s1 ∧
                         ret = (None, 0, None))).
    { clear H. case_bool_decide as Hnw.
      - intros [= <- <- <-]. left. auto.
      - intros Henq. right; left. exists op. split; [left|done]. }
    assert (Hnext : ∀ tmp, length tmp = length tmpVals →
              executeOps_loop ctx s h p rest tmp = Done (s', h', ret) →
              (s' = s ∧ h' = h ∧
                 (ret = (None, 0, Some ErrWouldBlock) ∨ ret = (None, 0, Some ERANGE)))
              ∨ (∃ op', op' ∈ op :: rest ∧ Z.land (SemFlg op') IPC_NOWAIT = 0 ∧
                   enqueue s h op' = Done (s', h', ret))
              ∨ (∃ tmpVals' s1,
                   length tmpVals' = length tmpVals ∧
                   applyVals s h p 0 tmpVals' = Done (s1, h') ∧
                   s' = set_opTime (NowFromContext ctx) s1 ∧
                   ret = (None, 0, None))).
    { intros tmp Hlen Hrest. apply IH in Hrest as [?|[(op' & ? & ? & ?)|(t' & s1 & ? & ? & ? & ?)]].
      - left. done.
      - right; left. exists op'. split; [by right | done].
      - right; right. exists t', s1. split; [congruence | done]. }
    destruct (bool_decide (SemOp op = 0)).
    { destruct (bool_decide (cur ≠ 0)); [by apply Hwait | by apply (Hnext tmpVals)]. }
    destruct (bool_decide (SemOp op < 0)).
    + destruct (bool_decide (int16 (- SemOp op) > valueMax)).
      { injection H as <- <- <-. left. auto. }
      destruct (bool_decide (int16 (- SemOp op) > cur)); [by apply Hwait|].
      eapply Hnext; [|exact H]. apply length_insert.
    + destruct (bool_decide (cur > int16 (valueMax - SemOp op))).
      { injection H as <- <- <-. left. auto. }
      eapply Hnext; [|exact H]. apply length_insert.
Qed.

Lemma int32_small (z : Z) : is_int32 z → int32 z = z.
Proof.
  unfold is_int32, int32. intros Hz.
  rewrite Z.mod_small by lia. lia.
Qed.

Lemma int32_uint16 (z : Z) : is_uint16 z → int32 z = z.
Proof. unfold is_uint16. intros Hz. apply int32_small. unfold is_int32. lia. Qed.

Lemma validateOps_EFBIG (s : Set_) (ops : list Sembuf) :
  ∀ (readOnly : bool) (e : errno), validateOps s ops readOnly = inl e → e = EFBIG.
Proof.
  induction ops as [|op rest IH]; intros readOnly e; simpl; [discriminate|].
  destruct (findSem s (int32 (SemNum op))); [apply IH | congruence].
Qed.

(** C1: on a live set, a call of [ExecuteOps] that returns an error
    returns one of [EFBIG], [EACCES], [ERANGE], [ErrWouldBlock] and leaves
    the set as it was (the values, the pids and [opTime] with it) and
    the channel store too; a call that returns a wake channel changes
    one thing in the set: the queue of the semaphore whose index it returns
    has one new waiter at its tail, for one of the operations of the batch,
    on the channel returned, which is new and empty.  The value and the
    pid of that semaphore, every other semaphore and every other field
    of the set are as before. *)
Theorem ExecuteOps_atomic (ctx : Context) (s s' : Set_) (h h' : heap)
    (ops : list Sembuf) (creds : Credentials) (p : Z)
    (ch : option chan) (num : Z) (err : option errno) :
  Forall wf_Sembuf ops →
  dead s = false →
  ExecuteOps ctx s h ops creds p = Done (s', h', (ch, num, err)) →
  (∀ e, err = Some e →
     e ∈ [EFBIG; EACCES; ERANGE; ErrWouldBlock] ∧ ch = None ∧ s' = s ∧ h' = h)
  ∧ (∀ c, ch = Some c →
       err = None ∧
       ∃ op x,
         op ∈ ops ∧ num = SemNum op ∧
         sems s !! Z.to_nat num = Some x ∧
         sems s' !! Z.to_nat num =
           Some {| value := value x;
                   waiters := waiters x ++ [{| w_value := SemOp op; w_ch := c |}];
                   pid := pid x |} ∧
         (∀ j, j ≠ Z.to_nat num → sems s' !! j = sems s !! j) ∧
         length (sems s') = length (sems s) ∧
         registry s' = registry s ∧ ID s' = ID s ∧ key s' = key s ∧
         creator s' = creator s ∧ owner s' = owner s ∧ perms s' = perms s ∧
         opTime s' = opTime s ∧ changeTime s' = changeTime s ∧ dead s' = dead s ∧
         s' = store_sem s (Z.to_nat num)
                (set_waiters (waiters x ++ [{| w_value := SemOp op; w_ch := c |}]) x) ∧
         c = length h ∧ h' = h ++ [0%nat]).
Proof.
  intros Hwf Hlive H. unfold ExecuteOps in H. rewrite Hlive in H.
  destruct (validateOps s ops true) as [e0|readOnly] eqn:Hval.
  { apply validateOps_EFBIG in Hval as ->. injection H as <- <- <- <- <-.
    split; [|discriminate]. intros e [= <-]. set_solver. }
  destruct (checkPerms s creds _); simpl in H.
  2:{ injection H as <- <- <- <- <-.
      split; [|discriminate]. intros e [= <-]. set_solver. }
  apply exec_bind_Done in H as ([[s1 h1] [[ch1 num1] err1]] & Hloop & H).
  apply executeOps_loop_Done in Hloop
    as [(-> & -> & Hret)|[(op & Hop & Hnw & Henq)|(t' & s2 & _ & _ & _ & Hret)]].
  - destruct Hret as [[= -> -> ->]|[= -> -> ->]]; injection H as <- <- <- <- <-;
      (split; [|discriminate]); intros e [= <-]; set_solver.
  - apply enqueue_Done in Henq as (x & H0 & Hx & -> & -> & [= -> -> ->]).
    injection H as <- <- <- <- <-. split; [discriminate|].
    intros c [= <-]. split; [done|]. exists op, x.
    rewrite Forall_forall in Hwf. destruct (Hwf op Hop) as (Hu & _).
    rewrite (int32_uint16 _ Hu).
    destruct (store_sem_lookup s (Z.to_nat (SemNum op)) x
                (set_waiters
                   (waiters x ++ [{| w_value := SemOp op; w_ch := length h |}]) x) Hx)
      as (Hnew & Hrest & Hlen).
    split; [done|]. split; [done|]. split; [done|].
    split; [exact Hnew|]. split; [exact Hrest|]. split; [exact Hlen|]. done.
  - injection Hret as -> -> ->. injection H as <- <- <- <- <-.
    split; discriminate.
Qed.

(** ** The commit *)

Lemma wakeLoop_Done (v : Z) (ws : waiterList) :
  ∀ (h h' : heap) (ws' : waiterList),
  wakeLoop v ws h = Done (ws', h') → length h' = length h ∧ ws' ⊆ ws.
Proof.
  induction ws as [|w rest IH]; intros h h' ws' H; simpl in H.
  - injection H as <- <-. done.
  - destruct (bool_decide (v < abs (w_value w))).
    + apply exec_bind_Done in H as ([r1 h1] & Hrest & H). injection H as <- <-.
      apply IH in Hrest as [? Hsub]. split; [done|].
      intros y Hy. apply elem_of_cons in Hy as [->|Hy]; [left | right; auto].
    + apply exec_bind_Done in H as (h1 & Hsend & H).
      apply IH in H as [Hlen Hsub]. split; [|intros y Hy; right; auto].
      unfold send in Hsend. destruct (h !! w_ch w); [|done].
      case_bool_decide; [|done]. injection Hsend as <-.
      by rewrite length_insert in Hlen.
Qed.

Lemma wakeWaiters_Done (x x' : sem) (h h' : heap) :
  wakeWaiters x h = Done (x', h') →
  value x' = value x ∧ pid x' = pid x ∧ waiters x' ⊆ waiters x ∧
  length h' = length h.
Proof.
  unfold wakeWaiters. intros H.
  apply exec_bind_Done in H as ([ws h1] & Hloop & H). injection H as <- <-.
  apply wakeLoop_Done in Hloop as [? ?]. done.
Qed.

(** The commit loop writes the scratch values and the pid into the
    semaphores [i], [i+1], ... and leaves the others alone. *)
Lemma applyVals_Done (p : Z) (tmpVals : list Z) :
  ∀ (i : nat) (s s' : Set_) (h h' : heap),
  applyVals s h p i tmpVals = Done (s', h') →
  length (sems s') = length (sems s) ∧
  set_sems (sems s) s' = s ∧
  (∀ j, (j < i ∨ i + length tmpVals ≤ j)%nat → sems s' !! j = sems s !! j) ∧
  (∀ j v, tmpVals !! j = Some v →
     ∃ x', sems s' !! (i + j)%nat = Some x' ∧ value x' = v ∧ pid x' = p).
Proof.
  induction tmpVals as [|v rest IH]; intros i s s' h h' H; simpl in H.
  - injection H as <- <-. simpl. split; [done|].
    split; [by destruct s|]. split; [done|]. intros j v [=].
  - apply exec_bind_Done in H as (x & Hx & H).
    apply index_Done in Hx as [_ Hx]. rewrite Nat2Z.id in Hx.
    apply exec_bind_Done in H as ([x' h1] & Hwake & H).
    apply wakeWaiters_Done in Hwake as (Hv & _ & _ & _).
    apply IH in H as (Hlen & Hset & Hout & Hin).
    apply lookup_lt_Some in Hx as Hi.
    unfold store_sem in *. simpl in *. rewrite length_insert in *.
    split; [done|]. split.
    { clear -Hset. destruct s, s'. unfold set_sems in *. simpl in *. congruence. }
    split.
    + intros j Hj. rewrite Hout by lia. apply list_lookup_insert_ne. lia.
    + intros [|j] w Hw; simpl in Hw.
      * injection Hw as <-. rewrite Nat.add_0_r, Hout by lia.
        rewrite list_lookup_insert_eq by done.
        eexists. split; [reflexivity|]. simpl. split; [|done]. by rewrite Hv.
      * replace (i + S j)%nat with (S i + j)%nat by lia. by apply Hin.
Qed.

(** A call of [ExecuteOps] that returns [(nil, 0, nil)] has committed: no
    operation was out of range, the set keeps its size, and every
    semaphore carries the pid of the caller. *)
Lemma ExecuteOps_success (ctx : Context) (s s' : Set_) (h h' : heap)
    (ops : list Sembuf) (creds : Credentials) (p : Z) :
  ExecuteOps ctx s h ops creds p = Done (s', h', (None, 0, None)) →
  dead s = false ∧
  length (sems s') = length (sems s) ∧
  (∀ op, op ∈ ops → 0 ≤ int32 (SemNum op) < Size s) ∧
  (∀ i x', sems s' !! i = Some x' → pid x' = p).
Proof.
  unfold ExecuteOps. intros H. destruct (dead s); [done|]. split; [done|].
  destruct (validateOps s ops true) as [e0|readOnly] eqn:Hval; [done|].
  destruct (checkPerms s creds _); simpl in H; [|done].
  apply exec_bind_Done in H as ([[s1 h1] [[ch1 num1] err1]] & Hloop & H).
  assert (Hops : ∀ op, op ∈ ops → 0 ≤ int32 (SemNum op) < Size s).
  { clear -Hval. revert Hval. generalize true.
    induction ops as [|op rest IH]; intros b Hval op' Hin; [by apply elem_of_nil in Hin|].
    simpl in Hval. destruct (findSem s (int32 (SemNum op))) eqn:Hf; [|done].
    apply elem_of_cons in Hin as [->|Hin]; [|by eapply IH].
    destruct (decide (0 ≤ int32 (SemNum op) < Size s)) as [|Hn]; [done|].
    apply findSem_None in Hn. congruence. }
  apply executeOps_loop_Done in Hloop
    as [(-> & -> & Hret)|[(op & Hop & Hnw & Henq)|(t' & s2 & Hlen & Happ & -> & Hret)]].
  - destruct Hret as [[= -> -> ->]|[= -> -> ->]]; done.
  - apply enqueue_Done in Henq as (x & H0 & Hx & -> & -> & [= -> -> ->]). done.
  - injection Hret as -> -> ->. injection H as <- <-.
    apply applyVals_Done in Happ as (Hlen' & _ & _ & Hin).
    rewrite length_map in Hlen. simpl. split; [done|]. split; [done|].
    intros i x' Hx'. apply lookup_lt_Some in Hx' as Hi.
    destruct (lookup_lt_is_Some_2 t' i) as [v Hv]; [lia|].
    destruct (Hin i v Hv) as (x'' & Hx'' & _ & Hp). simpl in Hx''. congruence.
Qed.

(** C4, as amended: after a successful call of [ExecuteOps] (one that
    returns [(nil, 0, nil)]) every semaphore of the set, whether or not an
    operation of the batch names it, has the pid of the caller; each
    operation of the batch names a semaphore of the set. *)
Theorem ExecuteOps_pid (ctx : Context) (s s' : Set_) (h h' : heap)
    (ops : list Sembuf) (creds : Credentials) (p : Z) :
  Forall wf_Sembuf ops →
  ExecuteOps ctx s h ops creds p = Done (s', h', (None, 0, None)) →
  (∀ op, op ∈ ops →
     ∃ x', sems s' !! Z.to_nat (SemNum op) = Some x' ∧ pid x' = p)
  ∧ (∀ i x', sems s' !! i = Some x' → pid x' = p)
  ∧ length (sems s') = length (sems s).
Proof.
  intros Hwf H. apply ExecuteOps_success in H as (_ & Hlen & Hops & Hpid).
  split; [|done]. intros op Hop.
  rewrite Forall_forall in Hwf. destruct (Hwf op Hop) as (Hu & _).
  specialize (Hops op Hop). rewrite (int32_uint16 _ Hu) in Hops. unfold Size in Hops.
  destruct (lookup_lt_is_Some_2 (sems s') (Z.to_nat (SemNum op))) as [x' Hx']; [lia|].
  exists x'. split; [done|]. by eapply Hpid.
Qed.

(** ** IPC_NOWAIT *)

Lemma validateOps_sameOp (s : Set_) (ops ops' : list Sembuf) :
  Forall2 sameOp ops ops' →
  ∀ readOnly, validateOps s ops readOnly = validateOps s ops' readOnly.
Proof.
  induction 1 as [|a b ops ops' [Hn Ho] _ IH]; intros readOnly; simpl; [done|].
  rewrite Hn, Ho. destruct (findSem s (int32 (SemNum b))); [apply IH | done].
Qed.

(** Where the batch without the flags queues a waiter, the batch with
    [IPC_NOWAIT] on every operation stops with [ErrWouldBlock], nothing
    changed. *)
Lemma executeOps_loop_nowait (ctx : Context) (s : Set_) (h : heap) (p : Z)
    (ops ops' : list Sembuf) :
  Forall2 sameOp ops ops' →
  Forall nowait ops →
  ∀ (tmpVals : list Z) (s' : Set_) (h' : heap) (c : chan) (num : Z) (err : option errno),
  executeOps_loop ctx s h p ops' tmpVals = Done (s', h', (Some c, num, err)) →
  executeOps_loop ctx s h p ops tmpVals = Done (s, h, (None, 0, Some ErrWouldBlock)).
Proof.
  induction 1 as [|a b ops ops' [Hn Ho] _ IH]; intros Hnw tmpVals s' h' c num err H;
    simpl in H |- *.
  - apply exec_bind_Done in H as ([s1 h1] & _ & H). done.
  - apply Forall_cons in Hnw as [Ha Hnw]. specialize (IH Hnw).
    rewrite Hn, Ho.
    apply exec_bind_Done in H as (x & Hx & H). rewrite Hx. simpl.
    apply exec_bind_Done in H as (cur & Hcur & H). rewrite Hcur. simpl.
    unfold nowait in Ha. rewrite (bool_decide_eq_true_2 _ Ha).
    destruct (bool_decide (SemOp b = 0)).
    { destruct (bool_decide (cur ≠ 0)); [done | by eapply IH]. }
    destruct (bool_decide (SemOp b < 0)).
    + destruct (bool_decide (int16 (- SemOp b) > valueMax)); [done|].
      destruct (bool_decide (int16 (- SemOp b) > cur)); [done | by eapply IH].
    + destruct (bool_decide (cur > int16 (valueMax - SemOp b))); [done | by eapply IH].
Qed.

(** C8: a batch in which every operation carries [IPC_NOWAIT] never
    makes [ExecuteOps] return a wake channel; when it returns
    [ErrWouldBlock] the set and the channels are as before the call; and
    wherever the same operations without the flags would have returned a
    wake channel, the call returns [ErrWouldBlock].  (The batch need not
    even be non-empty.) *)
Theorem ExecuteOps_nowait (ctx : Context) (s : Set_) (h : heap)
    (ops : list Sembuf) (creds : Credentials) (p : Z) :
  Forall nowait ops →
  (∀ s' h' ch num err,
     ExecuteOps ctx s h ops creds p = Done (s', h', (ch, num, err)) →
     ch = None ∧ (err = Some ErrWouldBlock → s' = s ∧ h' = h))
  ∧ (∀ ops' s' h' c num err,
       Forall2 sameOp ops ops' →
       ExecuteOps ctx s h ops' creds p = Done (s', h', (Some c, num, err)) →
       ExecuteOps ctx s h ops creds p = Done (s, h, (None, 0, Some ErrWouldBlock))).
Proof.
  intros Hnw. split.
  - intros s' h' ch num err H. unfold ExecuteOps in H.
    destruct (dead s); [by injection H as <- <- <- <- <-|].
    destruct (validateOps s ops true) as [e0|readOnly] eqn:Hval.
    { apply validateOps_EFBIG in Hval as ->. by injection H as <- <- <- <- <-. }
    destruct (checkPerms s creds _); simpl in H;
      [|by injection H as <- <- <- <- <-].
    apply exec_bind_Done in H as ([[s1 h1] [[ch1 num1] err1]] & Hloop & H).
    apply executeOps_loop_Done in Hloop
      as [(-> & -> & Hret)|[(op & Hop & Hflag & _)|(t' & s2 & _ & _ & _ & Hret)]].
    + destruct Hret as [[= -> -> ->]|[= -> -> ->]]; by injection H as <- <- <- <- <-.
    + rewrite Forall_forall in Hnw. by destruct (Hnw op Hop).
    + injection Hret as -> -> ->. by injection H as <- <- <- <- <-.
  - intros ops' s' h' c num err Hsame H. unfold ExecuteOps in H |- *.
    destruct (dead s); [done|].
    rewrite (validateOps_sameOp s ops ops' Hsame).
    destruct (validateOps s ops' true) as [e0|readOnly]; [done|].
    destruct (checkPerms s creds _); simpl in H |- *; [|done].
    apply exec_bind_Done in H as ([[s1 h1] [[ch1 num1] err1]] & Hloop & H).
    unfold executeOps in Hloop |- *.
    destruct err1; [done|]. injection H as -> -> -> -> <-.
    by rewrite (executeOps_loop_nowait _ _ _ _ _ _ Hsame Hnw _ _ _ _ _ _ Hloop).
Qed.

(** ** AbortWait *)

Lemma removeWaiter_first (ch : chan) (pre post : waiterList) (w : waiter) :
  (∀ w', w' ∈ pre → w_ch w' ≠ ch) → w_ch w = ch →
  removeWaiter ch (pre ++ w :: post) = pre ++ post.
Proof.
  intros Hpre Hw. induction pre as [|w' pre IH]; simpl.
  - by rewrite bool_decide_eq_true_2.
  - rewrite bool_decide_eq_false_2 by (apply Hpre; left).
    f_equal. apply IH. intros w'' Hin. apply Hpre. by right.
Qed.

Lemma removeWaiter_none (ch : chan) (ws : waiterList) :
  (∀ w, w ∈ ws → w_ch w ≠ ch) → removeWaiter ch ws = ws.
Proof.
  intros Hws. induction ws as [|w ws IH]; simpl; [done|].
  rewrite bool_decide_eq_false_2 by (apply Hws; left).
  f_equal. apply IH. intros w' Hin. apply Hws. by right.
Qed.

(** C10: [AbortWait] indexes [s.sems] without a bounds check.  For [num]
    outside [0, size) it panics, where [GetVal], [GetPID] and [SetVal]
    return an error: [ERANGE] for a caller that passes their permission
    check, [EACCES] from [GetVal] and [GetPID] for one that does not.  For
    [num] inside the range it unlinks the first waiter of that queue
    whose channel is the handle and changes nothing else: the value and
    the pid of that semaphore, every other semaphore and every other
    field of the set are as before; with no such waiter in the queue the
    set is left as it was. *)
Theorem AbortWait_spec (s : Set_) (num : Z) (ch : chan) :
  (¬ (0 ≤ num < Size s) →
     AbortWait s num ch = Panic ∧
     (∀ creds, checkPerms s creds {| Read := true; Write := false; Execute := false |} = true →
        GetVal s num creds = (0, Some ERANGE) ∧
        GetPID s num creds = (0, Some ERANGE)) ∧
     (∀ creds, checkPerms s creds {| Read := true; Write := false; Execute := false |} = false →
        GetVal s num creds = (0, Some EACCES) ∧
        GetPID s num creds = (0, Some EACCES)) ∧
     (∀ ctx h val creds p,
        checkPerms s creds {| Read := false; Write := true; Execute := false |} = true →
        SetVal ctx s h num val creds p = Done (s, h, Some ERANGE)))
  ∧ (0 ≤ num < Size s →
       ∃ x, sems s !! Z.to_nat num = Some x ∧
         (∀ pre w post,
            waiters x = pre ++ w :: post →
            (∀ w', w' ∈ pre → w_ch w' ≠ ch) → w_ch w = ch →
            ∃ s',
              AbortWait s num ch = Done s' ∧
              sems s' !! Z.to_nat num =
                Some {| value := value x; waiters := pre ++ post; pid := pid x |} ∧
              (∀ j, j ≠ Z.to_nat num → sems s' !! j = sems s !! j) ∧
              length (sems s') = length (sems s) ∧
              registry s' = registry s ∧ ID s' = ID s ∧ key s' = key s ∧
              creator s' = creator s ∧ owner s' = owner s ∧ perms s' = perms s ∧
              opTime s' = opTime s ∧ changeTime s' = changeTime s ∧
              dead s' = dead s ∧
              s' = store_sem s (Z.to_nat num) (set_waiters (pre ++ post) x)) ∧
         ((∀ w, w ∈ waiters x → w_ch w ≠ ch) → AbortWait s num ch = Done s)).
Proof.
  split.
  - intros Hout. split; [|split; [|split]].
    + unfold AbortWait. by rewrite index_Panic.
    + intros creds Hperm. unfold GetVal, GetPID. rewrite Hperm. simpl.
      apply findSem_None in Hout. by rewrite Hout.
    + intros creds Hperm. unfold GetVal, GetPID. by rewrite Hperm.
    + intros ctx h val creds p Hperm. unfold SetVal. rewrite Hperm. simpl.
      apply findSem_None in Hout. rewrite Hout. by destruct (_ || _).
  - intros Hin. unfold Size in Hin.
    destruct (lookup_lt_is_Some_2 (sems s) (Z.to_nat num)) as [x Hx]; [lia|].
    exists x. split; [done|].
    assert (Hidx : index (sems s) num = Done x) by (apply index_Done; split; [lia | done]).
    unfold AbortWait. rewrite Hidx. simpl. split.
    + intros pre w post Hws Hpre Hw. rewrite Hws, removeWaiter_first by done.
      eexists. split; [done|].
      destruct (store_sem_lookup s (Z.to_nat num) x
                  (set_waiters (pre ++ post) x) Hx) as (Hnew & Hrest & Hlen).
      split; [exact Hnew|]. split; [exact Hrest|]. split; [exact Hlen|]. done.
    + intros Hnone. rewrite removeWaiter_none by done.
      f_equal. apply store_sem_id. rewrite Hx. by destruct x.
Qed.

(** ** The discipline of the wake channels *)

Lemma send_empty (h : heap) (c : chan) :
  h !! c = Some 0%nat → send h c = Done (<[c := 1%nat]> h).
Proof. unfold send. intros ->. done. Qed.

(** One wake-up pass over a queue whose channels are distinct and empty
    never blocks; the waiters it keeps form a sublist, and the channels it
    changes are those of the waiters it unlinked, which now hold one
    signal. *)
Lemma wakeLoop_quiet (v : Z) (ws : waiterList) :
  ∀ (h : heap),
  NoDup (chansOf ws) →
  Forall (λ c, h !! c = Some 0%nat) (chansOf ws) →
  ∃ ws' h',
    wakeLoop v ws h = Done (ws', h') ∧
    sublist ws' ws ∧
    (∀ c, h' !! c = h !! c ∨
          (c ∈ chansOf ws ∧ (c ∉ chansOf ws') ∧ h' !! c = Some 1%nat)).
Proof.
  unfold chansOf.
  induction ws as [|w rest IH]; intros h Hnd Hall; simpl.
  - exists [], h. split; [done|]. split; [done|]. by left.
  - rewrite fmap_cons in Hnd, Hall.
    apply NoDup_cons in Hnd as [Hw Hnd]. apply Forall_cons in Hall as [Hwc Hall].
    destruct (bool_decide (v < abs (w_value w))).
    + destruct (IH h Hnd Hall) as (ws' & h' & -> & Hsub & Hch). simpl.
      exists (w :: ws'), h'. split; [done|]. split; [by apply sublist_skip|].
      intros c. destruct (Hch c) as [?|(Hin & Hout & H1)]; [by left|].
      right. split; [by right|]. split; [|done].
      rewrite fmap_cons. intros [->|?]%elem_of_cons; done.
    + rewrite (send_empty h _ Hwc). simpl.
      destruct (IH (<[w_ch w := 1%nat]> h) Hnd) as (ws' & h' & -> & Hsub & Hch).
      { rewrite Forall_forall in Hall |- *. intros c Hc.
        rewrite list_lookup_insert_ne; [by apply Hall|]. by intros <-. }
      exists ws', h'. split; [done|]. split; [by apply sublist_cons|].
      assert (Hfresh : w_ch w ∉ w_ch <$> ws').
      { intros Hin. apply Hw. eapply elem_of_sublist; [exact Hin|].
        by apply fmap_sublist. }
      intros c. destruct (Hch c) as [Heq|(Hin & Hout & H1)].
      * destruct (decide (c = w_ch w)) as [->|Hne].
        -- right. split; [by left|]. split; [done|]. rewrite Heq.
           apply list_lookup_insert_eq. by eapply lookup_lt_Some.
        -- left. rewrite Heq. by apply list_lookup_insert_ne.
      * right. split; [by right | done].
Qed.

Lemma queuedOn_app (l1 l2 : list sem) :
  queuedOn (l1 ++ l2) = queuedOn l1 ++ queuedOn l2.
Proof. unfold queuedOn. by rewrite map_app, concat_app. Qed.

Lemma queuedOn_cons (x : sem) (l : list sem) :
  queuedOn (x :: l) = waiters x ++ queuedOn l.
Proof. done. Qed.

(** The waiters of a slice, split around the semaphore at index [i]. *)
Lemma queuedOn_middle (l : list sem) (i : nat) (x : sem) :
  l !! i = Some x →
  queuedOn l = queuedOn (take i l) ++ waiters x ++ queuedOn (drop (S i) l).
Proof.
  intros Hx. rewrite <- (take_drop_middle l i x Hx) at 1.
  by rewrite queuedOn_app, queuedOn_cons.
Qed.

Lemma queuedOn_insert (l : list sem) (i : nat) (x x' : sem) :
  l !! i = Some x →
  queuedOn (<[i := x']> l) =
    queuedOn (take i l) ++ waiters x' ++ queuedOn (drop (S i) l).
Proof.
  intros Hx. rewrite insert_take_drop by (by eapply lookup_lt_Some).
  by rewrite queuedOn_app, queuedOn_cons.
Qed.

Lemma quiet_queue (l : list sem) (h : heap) (i : nat) (x : sem) :
  quiet l h → l !! i = Some x →
  NoDup (chansOf (waiters x)) ∧
  Forall (λ c, h !! c = Some 0%nat) (chansOf (waiters x)).
Proof.
  intros [Hnd Hall] Hx. rewrite (queuedOn_middle l i x Hx) in Hnd, Hall.
  unfold chansOf in *. rewrite !fmap_app in Hnd, Hall.
  apply NoDup_app in Hnd as (_ & _ & Hnd). apply NoDup_app in Hnd as (Hnd & _ & _).
  apply Forall_app in Hall as [_ Hall]. apply Forall_app in Hall as [Hall _]. done.
Qed.

(** Replacing a queue by what a wake-up pass leaves of it keeps the
    discipline. *)
Lemma quiet_shrink (l : list sem) (h h' : heap) (i : nat) (x x' : sem) :
  quiet l h → l !! i = Some x →
  sublist (waiters x') (waiters x) →
  (∀ c, h' !! c = h !! c ∨
        (c ∈ chansOf (waiters x) ∧ (c ∉ chansOf (waiters x')) ∧ h' !! c = Some 1%nat)) →
  quiet (<[i := x']> l) h'.
Proof.
  intros [Hnd Hall] Hx Hsub Hch. unfold quiet.
  rewrite (queuedOn_insert l i x x' Hx). rewrite (queuedOn_middle l i x Hx) in Hnd, Hall.
  unfold chansOf in *. rewrite !fmap_app in *.
  assert (Hsub' : sublist ((w_ch <$> queuedOn (take i l)) ++ (w_ch <$> waiters x')
                             ++ (w_ch <$> queuedOn (drop (S i) l)))
                    ((w_ch <$> queuedOn (take i l)) ++ (w_ch <$> waiters x)
                       ++ (w_ch <$> queuedOn (drop (S i) l)))).
  { apply sublist_app; [done|]. apply sublist_app; [|done]. by apply fmap_sublist. }
  split; [by eapply sublist_NoDup|].
  rewrite Forall_forall in Hall |- *. intros c Hc.
  destruct (Hch c) as [->|(Hin & Hout & _)].
  { apply Hall. by eapply elem_of_sublist. }
  exfalso.
  apply NoDup_app in Hnd as (_ & Hd1 & Hnd). apply NoDup_app in Hnd as (_ & Hd2 & _).
  apply elem_of_app in Hc as [Hc|Hc]; [|apply elem_of_app in Hc as [Hc|Hc]].
  - apply (Hd1 c Hc). apply elem_of_app. by left.
  - done.
  - by apply (Hd2 c Hin).
Qed.

Lemma quiet_same (l : list sem) (h : heap) (i : nat) (x x' : sem) :
  quiet l h → l !! i = Some x → waiters x' = waiters x → quiet (<[i := x']> l) h.
Proof.
  intros Hq Hx Hw. eapply quiet_shrink; [done..| |by left]. by rewrite Hw.
Qed.

(** A new waiter on a new channel keeps the discipline. *)
Lemma quiet_enqueue (l : list sem) (h : heap) (i : nat) (x : sem) (v : Z) :
  quiet l h → l !! i = Some x →
  quiet (<[i := set_waiters (waiters x ++ [{| w_value := v; w_ch := length h |}]) x]> l)
    (h ++ [0%nat]).
Proof.
  intros [Hnd Hall] Hx. unfold quiet.
  rewrite (queuedOn_insert l i x _ Hx). rewrite (queuedOn_middle l i x Hx) in Hnd, Hall.
  simpl. unfold chansOf in *. rewrite !fmap_app in *. simpl.
  set (A := w_ch <$> queuedOn (take i l)) in *.
  set (W := w_ch <$> waiters x) in *.
  set (B := w_ch <$> queuedOn (drop (S i) l)) in *.
  assert (Hperm : A ++ (W ++ [length h]) ++ B ≡ₚ length h :: A ++ W ++ B).
  { rewrite (Permutation_app_comm W [length h]). simpl.
    by rewrite <- Permutation_middle. }
  assert (Hnew : length h ∉ A ++ W ++ B).
  { intros Hin. rewrite Forall_forall in Hall. apply Hall in Hin.
    apply lookup_lt_Some in Hin. lia. }
  split.
  - rewrite Hperm. by apply NoDup_cons.
  - rewrite Hperm. apply Forall_cons. split.
    + by rewrite lookup_app_r, Nat.sub_diag.
    + eapply Forall_impl; [exact Hall|]. intros c Hc. simpl in Hc.
      rewrite lookup_app_l; [done | by eapply lookup_lt_Some].
Qed.

(** ** Calls that end *)

Lemma ends_bind {A B} (m : exec A) (f : A → exec B) (P : A → Prop) (Q : B → Prop) :
  ends m P → (∀ a, P a → ends (f a) Q) → ends (m ≫= f) Q.
Proof. destruct m; simpl; auto. Qed.

Lemma ends_index {A} (l : list A) (i : Z) :
  ends (index l i) (λ x, 0 ≤ i ∧ l !! Z.to_nat i = Some x).
Proof.
  destruct (index l i) eqn:E; simpl; try done.
  - by apply index_Done.
  - unfold index in E. case_bool_decide; [|done]. by destruct (l !! Z.to_nat i).
  - unfold index in E. case_bool_decide; [|done]. by destruct (l !! Z.to_nat i).
Qed.

Lemma wakeWaiters_quiet (l : list sem) (h : heap) (i : nat) (x x0 : sem) :
  quiet l h → l !! i = Some x → waiters x0 = waiters x →
  ends (wakeWaiters x0 h) (λ '(x', h'),
    ∀ x'', waiters x'' = waiters x' → quiet (<[i := x'']> l) h').
Proof.
  intros Hq Hx Hw. destruct (quiet_queue l h i x Hq Hx) as [Hnd Hall].
  unfold wakeWaiters. rewrite Hw.
  destruct (wakeLoop_quiet (value x0) (waiters x) h Hnd Hall)
    as (ws' & h' & -> & Hsub & Hch).
  simpl. intros x'' Hx''. eapply quiet_shrink; [done..| |]; by rewrite Hx''.
Qed.

Lemma applyVals_ends (p : Z) (tmpVals : list Z) :
  ∀ (i : nat) (s : Set_) (h : heap),
  quiet (sems s) h →
  ends (applyVals s h p i tmpVals)
    (λ '(s', h'), quiet (sems s') h' ∧ dead s' = dead s).
Proof.
  induction tmpVals as [|v rest IH]; intros i s h Hq; simpl; [done|].
  eapply ends_bind; [apply ends_index|]. intros x [_ Hx]. rewrite Nat2Z.id in Hx.
  eapply ends_bind; [by apply (wakeWaiters_quiet _ _ i x (set_value v x) Hq Hx)|].
  intros [x' h'] Hpost. apply (IH (S i) (store_sem s i (set_pid p x')) h').
  by apply Hpost.
Qed.

Lemma setAll_ends (p : Z) (vals : list Z) :
  ∀ (i : nat) (s : Set_) (h : heap),
  quiet (sems s) h →
  ends (setAll s h p i vals)
    (λ '(s', h'), quiet (sems s') h' ∧ dead s' = dead s).
Proof.
  induction vals as [|v rest IH]; intros i s h Hq; simpl; [done|].
  eapply ends_bind; [apply ends_index|]. intros x [_ Hx]. rewrite Nat2Z.id in Hx.
  eapply ends_bind;
    [by apply (wakeWaiters_quiet _ _ i x (set_pid p (set_value (int16 v) x)) Hq Hx)|].
  intros [x' h'] Hpost. apply (IH (S i) (store_sem s i x') h').
  by apply Hpost.
Qed.

Lemma enqueue_ends (s : Set_) (h : heap) (op : Sembuf) :
  quiet (sems s) h →
  ends (enqueue s h op)
    (λ '(s', h', _), quiet (sems s') h' ∧ dead s' = dead s).
Proof.
  intros Hq. unfold enqueue.
  eapply ends_bind; [apply ends_index|]. intros x [_ Hx]. simpl.
  split; [|done]. by apply quiet_enqueue.
Qed.

Lemma executeOps_loop_ends (ctx : Context) (p : Z) (s : Set_) (h : heap)
    (ops : list Sembuf) :
  quiet (sems s) h →
  ∀ tmpVals,
  ends (executeOps_loop ctx s h p ops tmpVals)
    (λ '(s', h', _), quiet (sems s') h' ∧ dead s' = dead s).
Proof.
  intros Hq. induction ops as [|op rest IH]; intros tmpVals; simpl.
  - eapply ends_bind; [by apply applyVals_ends|]. by intros [s' h'] ?.
  - eapply ends_bind; [apply ends_index|]. intros x _.
    eapply ends_bind; [apply ends_index|]. intros cur _.
    pose proof (enqueue_ends s h op Hq) as Henq.
    repeat case_bool_decide; done.
Qed.

Lemma ExecuteOps_ends (ctx : Context) (s : Set_) (h : heap) (ops : list Sembuf)
    (creds : Credentials) (p : Z) :
  quiet (sems s) h →
  ends (ExecuteOps ctx s h ops creds p)
    (λ '(s', h', _), quiet (sems s') h' ∧ dead s' = dead s).
Proof.
  intros Hq. unfold ExecuteOps. destruct (dead s) eqn:Hd; [done|].
  destruct (validateOps s ops true); [done|].
  destruct (checkPerms s creds _); simpl; [|done].
  eapply ends_bind; [by apply executeOps_loop_ends|].
  intros [[s' h'] [[ch num] [e|]]] [? ?]; simpl; split; congruence.
Qed.

Lemma SetVal_ends (ctx : Context) (s : Set_) (h : heap) (num val : Z)
    (creds : Credentials) (p : Z) :
  quiet (sems s) h →
  ends (SetVal ctx s h num val creds p)
    (λ '(s', h', _), quiet (sems s') h' ∧ dead s' = dead s).
Proof.
  intros Hq. unfold SetVal. destruct (_ || _); [done|].
  destruct (negb _); [done|].
  destruct (findSem s num) as [x|] eqn:Hx; [|done].
  apply findSem_Some in Hx as [_ Hx].
  eapply ends_bind;
    [by apply (wakeWaiters_quiet _ _ (Z.to_nat num) x (set_pid p (set_value val x)) Hq Hx)|].
  intros [x' h'] Hpost. simpl. split; [|done].
  rewrite list_insert_insert_eq. by apply Hpost.
Qed.

Lemma SetValAll_ends (ctx : Context) (s : Set_) (h : heap) (vals : list Z)
    (creds : Credentials) (p : Z) :
  quiet (sems s) h →
  ends (SetValAll ctx s h vals creds p)
    (λ '(s', h', _), quiet (sems s') h' ∧ dead s' = dead s).
Proof.
  intros Hq. unfold SetValAll. destruct (negb _); [done|].
  destruct (negb _); [done|]. destruct (negb _); [done|].
  eapply ends_bind; [by apply setAll_ends|]. by intros [s' h'] ?.
Qed.

Lemma removeWaiter_sublist (ch : chan) (ws : waiterList) :
  sublist (removeWaiter ch ws) ws.
Proof.
  induction ws as [|w ws IH]; simpl; [done|].
  case_bool_decide; [by apply sublist_cons | by apply sublist_skip].
Qed.

Lemma AbortWait_ends (s : Set_) (h : heap) (num : Z) (ch : chan) :
  quiet (sems s) h →
  ends (AbortWait s num ch) (λ s', quiet (sems s') h ∧ dead s' = dead s).
Proof.
  intros Hq. unfold AbortWait.
  eapply ends_bind; [apply ends_index|]. intros x [_ Hx]. simpl. split; [|done].
  eapply quiet_shrink; [done..| |by left]. apply removeWaiter_sublist.
Qed.

Lemma recv_quiet (l : list sem) (h : heap) (ch : chan) :
  quiet l h → quiet l (default h (recv h ch)).
Proof.
  intros [Hnd Hall]. split; [done|]. unfold recv.
  destruct (h !! ch) as [[|n]|] eqn:Hc; simpl; try done.
  eapply Forall_impl; [exact Hall|]. intros c Hc0. simpl in Hc0.
  rewrite list_lookup_insert_ne; [done | congruence].
Qed.

(** On a set whose queues obey the discipline no call other than [destroy]
    blocks in a send, and the discipline holds again afterwards. *)
Lemma step_quiet (c : call) (s : Set_) (h : heap) :
  is_destroy c = false →
  quiet (sems s) h →
  ends (step c (s, h)) (λ '(s', h'), quiet (sems s') h' ∧ dead s' = dead s).
Proof.
  intros Hc Hq. destruct c; simpl; try done.
  - eapply ends_bind; [by apply ExecuteOps_ends|]. by intros [[s' h'] ?] ?.
  - eapply ends_bind; [by apply SetVal_ends|]. by intros [[s' h'] ?] ?.
  - eapply ends_bind; [by apply SetValAll_ends|]. by intros [[s' h'] ?] ?.
  - unfold Change. by destruct (_ && _).
  - eapply ends_bind; [by apply AbortWait_ends|]. by intros s' ?.
  - split; [by apply recv_quiet | done].
Qed.

Lemma run_quiet (cs : list call) :
  ∀ (s : Set_) (h : heap),
  forallb (λ c, negb (is_destroy c)) cs = true →
  quiet (sems s) h →
  ends (run cs (s, h)) (λ '(s', h'), quiet (sems s') h' ∧ dead s' = dead s).
Proof.
  induction cs as [|c cs IH]; intros s h Hcs Hq; simpl; [done|].
  simpl in Hcs. apply andb_prop in Hcs as [Hc Hcs]. apply negb_true_iff in Hc.
  eapply ends_bind; [by apply step_quiet|].
  intros [s' h'] [Hq' Hd]. rewrite <- Hd. by apply IH.
Qed.

(** ** Removal *)

(** The fan-out of [destroy] over one queue. *)
Lemma notifyAll_quiet (ws : waiterList) :
  ∀ (h : heap),
  NoDup (chansOf ws) →
  Forall (λ c, h !! c = Some 0%nat) (chansOf ws) →
  ∃ h', notifyAll ws h = Done h' ∧
        (∀ c, c ∈ chansOf ws → h' !! c = Some 1%nat) ∧
        (∀ c, c ∉ chansOf ws → h' !! c = h !! c).
Proof.
  unfold chansOf.
  induction ws as [|w rest IH]; intros h Hnd Hall; simpl.
  - exists h. split; [done|]. split; [|done]. intros c Hc. by apply elem_of_nil in Hc.
  - rewrite fmap_cons in Hnd, Hall.
    apply NoDup_cons in Hnd as [Hw Hnd]. apply Forall_cons in Hall as [Hwc Hall].
    rewrite (send_empty h _ Hwc). simpl.
    destruct (IH (<[w_ch w := 1%nat]> h) Hnd) as (h' & -> & Hin & Hout).
    { rewrite Forall_forall in Hall |- *. intros c Hc.
      rewrite list_lookup_insert_ne; [by apply Hall|]. by intros <-. }
    exists h'. split; [done|]. split.
    + intros c [->|Hc]%elem_of_cons; [|by apply Hin].
      rewrite Hout by done. apply list_lookup_insert_eq. by eapply lookup_lt_Some.
    + intros c Hc. apply not_elem_of_cons in Hc as [Hne Hc].
      rewrite Hout by done. by apply list_lookup_insert_ne.
Qed.

(** The fan-out of [destroy] over the set. *)
Lemma destroyLoop_quiet (l : list sem) :
  ∀ (h : heap),
  quiet l h →
  ∃ h', destroyLoop l h = Done h' ∧
        (∀ c, c ∈ chansOf (queuedOn l) → h' !! c = Some 1%nat) ∧
        (∀ c, c ∉ chansOf (queuedOn l) → h' !! c = h !! c).
Proof.
  induction l as [|x l IH]; intros h [Hnd Hall]; simpl.
  - exists h. split; [done|]. split; [|done]. intros c Hc. by apply elem_of_nil in Hc.
  - rewrite queuedOn_cons in Hnd, Hall |- *. unfold chansOf in *.
    rewrite fmap_app in Hnd, Hall.
    apply NoDup_app in Hnd as (Hndx & Hdisj & Hndl).
    apply Forall_app in Hall as [Hallx Halll].
    destruct (notifyAll_quiet (waiters x) h Hndx Hallx) as (h1 & Hn & Hin1 & Hout1).
    unfold destroyOne. rewrite Hn. simpl.
    destruct (IH h1) as (h' & -> & Hin & Hout).
    { split; [done|]. rewrite Forall_forall in Halll |- *. intros c Hc.
      rewrite Hout1; [by apply Halll|]. intros Hcx. by apply (Hdisj c Hcx). }
    exists h'. split; [done|]. split.
    + intros c Hc. rewrite fmap_app in Hc. apply elem_of_app in Hc as [Hc|Hc].
      * rewrite Hout by (by apply Hdisj). by apply Hin1.
      * by apply Hin.
    + intros c Hc. rewrite fmap_app in Hc. apply not_elem_of_app in Hc as [Hcx Hcl].
      rewrite Hout by done. by apply Hout1.
Qed.

(** [dead] is never reset. *)
Lemma setAll_dead (p : Z) (vals : list Z) :
  ∀ (i : nat) (s s' : Set_) (h h' : heap),
  setAll s h p i vals = Done (s', h') → dead s' = dead s.
Proof.
  induction vals as [|v rest IH]; intros i s s' h h' H; simpl in H.
  - by injection H as <- <-.
  - apply exec_bind_Done in H as (x & _ & H).
    apply exec_bind_Done in H as ([x' h1] & _ & H).
    by apply IH in H.
Qed.

Lemma step_dead (c : call) (s s' : Set_) (h h' : heap) :
  step c (s, h) = Done (s', h') → dead s = true → dead s' = true.
Proof.
  intros H Hd. destruct c; simpl in H.
  - unfold ExecuteOps in H. rewrite Hd in H. simpl in H. by injection H as <- <-.
  - apply exec_bind_Done in H as ([[s1 h1] e] & H & [= <- <-]).
    unfold SetVal in H. destruct (_ || _); [by injection H as <- <- <-|].
    destruct (negb _); [by injection H as <- <- <-|].
    destruct (findSem s num); [|by injection H as <- <- <-].
    apply exec_bind_Done in H as ([x' h2] & _ & H). by injection H as <- <- <-.
  - apply exec_bind_Done in H as ([[s1 h1] e] & H & [= <- <-]).
    unfold SetValAll in H. destruct (negb _); [done|].
    destruct (negb _); [by injection H as <- <- <-|].
    destruct (negb _); [by injection H as <- <- <-|].
    apply exec_bind_Done in H as ([s2 h2] & Hall & H). injection H as <- <- <-.
    apply setAll_dead in Hall. simpl. congruence.
  - injection H as <- <-. unfold Change. by destruct (_ && _).
  - apply exec_bind_Done in H as (s1 & H & [= <- <-]).
    unfold AbortWait in H. apply exec_bind_Done in H as (x & _ & H).
    by injection H as <-.
  - by injection H as <- <-.
  - unfold destroy in H. apply exec_bind_Done in H as (h1 & _ & H).
    by injection H as <- <-.
Qed.

Lemma run_dead (cs : list call) :
  ∀ (s s' : Set_) (h h' : heap),
  run cs (s, h) = Done (s', h') → dead s = true → dead s' = true.
Proof.
  induction cs as [|c cs IH]; intros s s' h h' H Hd; simpl in H.
  - by injection H as <- <-.
  - apply exec_bind_Done in H as ([s1 h1] & Hstep & H).
    eapply IH; [exact H|]. by eapply step_dead.
Qed.

(** C3, as amended: [destroy] marks the set dead and sends one signal to
    every waiter queued on any of its semaphores (each of their channels,
    empty before, holds exactly one signal afterwards, and no other
    channel changes); from then on, whatever calls are made on the set,
    [dead] stays true and every call of [ExecuteOps] fails with [EIDRM]
    and changes nothing. *)
Theorem destroy_spec (s : Set_) (h : heap) :
  quiet (sems s) h →
  ∃ h',
    destroy s h = Done (set_dead true s, h') ∧
    (∀ w, w ∈ queued s → h !! w_ch w = Some 0%nat ∧ h' !! w_ch w = Some 1%nat) ∧
    (∀ c, c ∉ chansOf (queued s) → h' !! c = h !! c) ∧
    (∀ cs s'' h'',
       run cs (set_dead true s, h') = Done (s'', h'') →
       dead s'' = true ∧
       ∀ ctx ops creds p,
         ExecuteOps ctx s'' h'' ops creds p = Done (s'', h'', (None, 0, Some EIDRM))).
Proof.
  intros Hq. destruct (destroyLoop_quiet (sems s) h Hq) as (h' & Hloop & Hin & Hout).
  exists h'. unfold destroy. simpl. rewrite Hloop. simpl.
  split; [done|]. split; [|split; [done|]].
  - intros w Hw. assert (Hc : w_ch w ∈ chansOf (queued s)).
    { unfold chansOf. apply list_elem_of_fmap. by exists w. }
    split; [|by apply Hin]. destruct Hq as [_ Hall].
    rewrite Forall_forall in Hall. by apply Hall.
  - intros cs s'' h'' Hrun. apply run_dead in Hrun; [|done].
    split; [done|]. intros ctx ops creds p. unfold ExecuteOps. by rewrite Hrun.
Qed.

(** ** The registry *)

Lemma range_of_elem {V} (m : gmap Z V) (l : list (Z * V)) (k : Z) (v : V) :
  range_of m l → (k, v) ∈ l ↔ m !! k = Some v.
Proof. unfold range_of. intros ->. apply elem_of_map_to_list. Qed.

Lemma findByKey_Some (range : list (Z * Set_)) (k : Z) (v : Set_) :
  findByKey range k = Some v → key v = k ∧ ∃ id, (id, v) ∈ range.
Proof.
  induction range as [|[id v'] rest IH]; simpl; [done|].
  case_bool_decide as Hk.
  - intros [= ->]. split; [done|]. exists id. by left.
  - intros H. destruct (IH H) as [? [id' ?]]. split; [done|]. exists id'. by right.
Qed.

Lemma findByKey_None (range : list (Z * Set_)) (k : Z) :
  findByKey range k = None ↔ ∀ id v, (id, v) ∈ range → key v ≠ k.
Proof.
  induction range as [|[id v'] rest IH]; simpl.
  - split; [|done]. intros _ id v Hin. by apply elem_of_nil in Hin.
  - case_bool_decide as Hk.
    + split; [done|]. intros H. exfalso. apply (H id v'); [by left | done].
    + rewrite IH. split.
      * intros H id' v [[= -> ->]|Hin]%elem_of_cons; [done | by eapply H].
      * intros H id' v Hin. apply (H id'). by right.
Qed.

(** C6, as amended: a call of [FindOrCreate] with [nsems] within
    [0, semsMax] (any other [nsems] fails with [EINVAL] before the key is
    looked up) and [private = false], on a registry whose sets all have
    at most [semsMax] semaphores.  When the key matches a set of the
    registry, the scan finds such a set and the outcome is: [EACCES] when
    the caller fails the permission check for the mask derived from
    [mode], else [EINVAL] when [nsems] exceeds the size of the set found,
    else [EEXIST] when [create] and [exclusive] are both set, else the set
    found and no error; the registry does not change.  When no set
    matches the key and [create] is false, the outcome is [ENOENT]. *)
Theorem FindOrCreate_existing (PermsFromMode : Z → PermMask)
    (FilePermsFromMode : Z → FilePermissions) (fuel : nat)
    (range : list (Z * Set_)) (r : Registry) (ctx : Context)
    (key' nsems mode : Z) (create exclusive : bool) :
  range_of (semaphores r) range →
  (∀ id v, semaphores r !! id = Some v → Size v ≤ semsMax) →
  0 ≤ nsems ≤ semsMax →
  ((∃ id v, semaphores r !! id = Some v ∧ key v = key') →
     ∃ id found,
       semaphores r !! id = Some found ∧ key found = key' ∧
       findByKey range key' = Some found ∧
       FindOrCreate PermsFromMode FilePermsFromMode fuel range r ctx
         key' nsems mode false create exclusive =
       Done (r,
         if negb (checkPerms found (CredentialsFromContext ctx) (PermsFromMode mode))
         then (None, Some EACCES)
         else if bool_decide (nsems > Size found) then (None, Some EINVAL)
         else if create && exclusive then (None, Some EEXIST)
         else (Some found, None)))
  ∧ ((∀ id v, semaphores r !! id = Some v → key v ≠ key') →
     create = false →
     FindOrCreate PermsFromMode FilePermsFromMode fuel range r ctx
       key' nsems mode false create exclusive = Done (r, (None, Some ENOENT))).
Proof.
  intros Hrange Hsizes Hn.
  assert (Hguard : bool_decide (nsems < 0) || bool_decide (nsems > semsMax) = false).
  { rewrite !bool_decide_eq_false_2 by lia. done. }
  split.
  - intros (id & v & Hv & Hk).
    destruct (findByKey range key') as [found|] eqn:Hfind.
    2:{ exfalso. rewrite findByKey_None in Hfind. apply (Hfind id v); [|done].
        by apply (range_of_elem _ _ _ _ Hrange). }
    destruct (findByKey_Some _ _ _ Hfind) as (Hkey & id' & Hin).
    apply (range_of_elem _ _ _ _ Hrange) in Hin.
    exists id', found. split; [done|]. split; [done|]. split; [done|].
    unfold FindOrCreate. rewrite Hguard, Hfind. simpl.
    destruct (negb _); [done|].
    assert (Hsz : int32 (Size found) = Size found).
    { apply int32_small. specialize (Hsizes _ _ Hin). unfold Size, is_int32 in *.
      unfold semsMax, SEMMSL in Hsizes. lia. }
    rewrite Hsz. destruct (bool_decide (nsems > Size found)); [done|].
    by destruct (create && exclusive).
  - intros Hnone ->. unfold FindOrCreate. rewrite Hguard. simpl.
    assert (Hfind : findByKey range key' = None).
    { apply findByKey_None. intros id v Hin.
      apply (range_of_elem _ _ _ _ Hrange) in Hin. by eapply Hnone. }
    by rewrite Hfind.
Qed.

(** What the search of [newSet] can return: [ENOMEM] and the registry as
    it was, or the new set under a new id. *)
Lemma newSet_loop_Done (fuel : nat) (r : Registry) (set : Set_) :
  ∀ (id : Z) (r' : Registry) (ret : option Set_ * option errno),
  newSet_loop fuel r set id = Done (r', ret) →
  (r' = r ∧ ret = (None, Some ENOMEM))
  ∨ (∃ id' index',
       semaphores r !! id' = None ∧
       semaphores r' = <[id' := set_ID id' set]> (semaphores r) ∧
       lastIDUsed r' = id' ∧
       indexes r' = <[index' := id']> (indexes r) ∧
       ret = (Some (set_ID id' set), None)).
Proof.
  induction fuel as [|fuel IH]; intros id r' ret H; simpl in H; [done|].
  destruct (bool_decide (id ≠ lastIDUsed r)).
  2:{ injection H as <- <-. by left. }
  destruct (bool_decide (id < 0)); [by eapply IH|].
  destruct (semaphores r !! id) eqn:Hid; [by eapply IH|].
  destruct (findFirstAvailableIndex r) as [index'|]; [|done].
  injection H as <- <-. right. exists id, index'. done.
Qed.

(** The sets of a registry keep at most [semsMax] semaphores each. *)
Lemma FindOrCreate_sizes (PermsFromMode : Z → PermMask)
    (FilePermsFromMode : Z → FilePermissions) (fuel : nat)
    (range : list (Z * Set_)) (r r' : Registry) (ctx : Context)
    (key' nsems mode : Z) (private create exclusive : bool)
    (ret : option Set_ * option errno) :
  (∀ id v, semaphores r !! id = Some v → Size v ≤ semsMax) →
  FindOrCreate PermsFromMode FilePermsFromMode fuel range r ctx
    key' nsems mode private create exclusive = Done (r', ret) →
  ∀ id v, semaphores r' !! id = Some v → Size v ≤ semsMax.
Proof.
  intros Hsizes H. unfold FindOrCreate in H.
  destruct (_ || _) eqn:Hguard; [by injection H as <- <-|].
  apply orb_false_iff in Hguard as [Hn0 Hn1].
  apply bool_decide_eq_false in Hn0, Hn1.
  assert (Hcreate : createSet FilePermsFromMode fuel r ctx key' nsems mode = Done (r', ret) →
                    ∀ id v, semaphores r' !! id = Some v → Size v ≤ semsMax).
  { clear H. unfold createSet, newSet. intros H.
    destruct (bool_decide (nsems = 0)); [by injection H as <- <-|].
    destruct (bool_decide (setsMax ≤ _)); [by injection H as <- <-|].
    destruct (bool_decide (totalSems r > _)); [by injection H as <- <-|].
    apply newSet_loop_Done in H as [[-> _]|(id' & index' & _ & Hsem & _)]; [done|].
    intros id v. rewrite Hsem. destruct (decide (id' = id)) as [->|Hne].
    - rewrite lookup_insert_eq. intros [= <-]. unfold Size. simpl.
      rewrite length_replicate. lia.
    - rewrite lookup_insert_ne by done. apply Hsizes. }
  destruct private; simpl in H; [by apply Hcreate|].
  destruct (findByKey range key') as [found|].
  - destruct (negb _); [by injection H as <- <-|].
    destruct (bool_decide _); [by injection H as <- <-|].
    destruct (create && exclusive); by injection H as <- <-.
  - destruct (negb create); [by injection H as <- <-|]. by apply Hcreate.
Qed.

(** ** The range of the values *)

Lemma int16_small (z : Z) : is_int16 z → int16 z = z.
Proof.
  unfold is_int16, int16. intros Hz. rewrite Z.mod_small by lia. lia.
Qed.

Lemma in_range_store (s : Set_) (i : nat) (x : sem) :
  in_range s → 0 ≤ value x ≤ valueMax → in_range (store_sem s i x).
Proof. intros Hs Hx. unfold in_range. simpl. by apply Forall_insert. Qed.

Lemma applyVals_range (p : Z) (tmpVals : list Z) :
  ∀ (i : nat) (s s' : Set_) (h h' : heap),
  Forall (λ v, 0 ≤ v ≤ valueMax) tmpVals →
  in_range s →
  applyVals s h p i tmpVals = Done (s', h') →
  in_range s'.
Proof.
  induction tmpVals as [|v rest IH]; intros i s s' h h' Htmp Hs H; simpl in H.
  - by injection H as <- <-.
  - apply Forall_cons in Htmp as [Hv Hrest].
    apply exec_bind_Done in H as (x & _ & H).
    apply exec_bind_Done in H as ([x' h1] & Hwake & H).
    apply wakeWaiters_Done in Hwake as (Hval & _).
    eapply IH; [done| |exact H]. apply in_range_store; [done|].
    simpl. by rewrite Hval.
Qed.

Lemma setAll_range (p : Z) (vals : list Z) :
  ∀ (i : nat) (s s' : Set_) (h h' : heap),
  Forall (λ v, 0 ≤ v ≤ valueMax) vals →
  in_range s →
  setAll s h p i vals = Done (s', h') →
  in_range s'.
Proof.
  induction vals as [|v rest IH]; intros i s s' h h' Hvals Hs H; simpl in H.
  - by injection H as <- <-.
  - apply Forall_cons in Hvals as [Hv Hrest].
    apply exec_bind_Done in H as (x & _ & H).
    apply exec_bind_Done in H as ([x' h1] & Hwake & H).
    apply wakeWaiters_Done in Hwake as (Hval & _).
    eapply IH; [done| |exact H]. apply in_range_store; [done|].
    rewrite Hval. simpl. rewrite int16_small; [done|].
    unfold is_int16, valueMax, SEMVMX in *. lia.
Qed.

(** One operation that is not the smallest [int16] keeps the scratch
    vector within the range. *)
Lemma executeOps_loop_range (ctx : Context) (p : Z) (ops : list Sembuf) :
  ∀ (tmpVals : list Z) (s s' : Set_) (h h' : heap) (ret : ops_ret),
  Forall wf_Sembuf ops →
  Forall (λ op, SemOp op ≠ -32768) ops →
  Forall (λ v, 0 ≤ v ≤ valueMax) tmpVals →
  in_range s →
  executeOps_loop ctx s h p ops tmpVals = Done (s', h', ret) →
  in_range s'.
Proof.
  induction ops as [|op rest IH]; intros tmpVals s s' h h' ret Hwf Hmin Htmp Hs H;
    simpl in H.
  - apply exec_bind_Done in H as ([s1 h1] & Happ & H). injection H as <- <- <-.
    eapply applyVals_range in Happ; done.
  - apply Forall_cons in Hwf as [(_ & Hop & _) Hwf].
    apply Forall_cons in Hmin as [Hne Hmin].
    apply exec_bind_Done in H as (x & Hx & H).
    apply exec_bind_Done in H as (cur & Hcur & H).
    apply index_Done in Hcur as [_ Hcur].
    assert (Hc : 0 ≤ cur ≤ valueMax).
    { rewrite Forall_forall in Htmp. apply Htmp. by eapply list_elem_of_lookup_2. }
    assert (Hwait : ∀ ret', (if bool_decide (Z.land (SemFlg op) IPC_NOWAIT ≠ 0)
                     then Done (s, h, (None, 0, Some ErrWouldBlock))
                     else enqueue s h op) = Done (s', h', ret') → in_range s').
    { clear H. intros ret'. case_bool_decide.
      - by intros [= <- <- <-].
      - intros Henq. apply enqueue_Done in Henq as (y & _ & Hy & -> & _).
        apply in_range_store; [done|]. simpl.
        unfold in_range in Hs. rewrite Forall_forall in Hs. apply Hs.
        by eapply list_elem_of_lookup_2. }
    unfold is_int16, valueMax, SEMVMX in *.
    destruct (bool_decide (SemOp op = 0)).
    { destruct (bool_decide (cur ≠ 0)); [by eapply Hwait | by eapply IH]. }
    destruct (bool_decide (SemOp op < 0)) eqn:Hneg.
    + apply bool_decide_eq_true in Hneg.
      rewrite (int16_small (- SemOp op)) in H by (unfold is_int16; lia).
      destruct (bool_decide (- SemOp op > 32767)); [by injection H as <- <- <-|].
      destruct (bool_decide (- SemOp op > cur)) eqn:Hblock; [by eapply Hwait|].
      apply bool_decide_eq_false in Hblock.
      eapply IH; [done..| |done|exact H].
      apply Forall_insert; [done|].
      rewrite int16_small by (unfold is_int16; lia). lia.
    + apply bool_decide_eq_false in Hneg.
      rewrite (int16_small (32767 - SemOp op)) in H by (unfold is_int16; lia).
      destruct (bool_decide (cur > 32767 - SemOp op)) eqn:Hover;
        [by injection H as <- <- <-|].
      apply bool_decide_eq_false in Hover.
      eapply IH; [done..| |done|exact H].
      apply Forall_insert; [done|].
      rewrite int16_small by (unfold is_int16; lia). lia.
Qed.

Lemma valsInRange_Forall (vals : list Z) :
  Forall is_uint16 vals → valsInRange vals = true →
  Forall (λ v, 0 ≤ v ≤ valueMax) vals.
Proof.
  unfold valsInRange. intros Hty Hok. rewrite forallb_forall in Hok.
  rewrite Forall_forall in Hty |- *. intros v Hv.
  specialize (Hty v Hv). specialize (Hok v (proj1 (list_elem_of_In _ _) Hv)).
  apply negb_true_iff, bool_decide_eq_false in Hok. unfold is_uint16 in Hty. lia.
Qed.

(** On a set of values within the range, a typed call keeps them there,
    unless an operation of [ExecuteOps] is the smallest [int16]. *)
Lemma step_in_range (c : call) (s s' : Set_) (h h' : heap) :
  typed_call c → no_min_op c → in_range s →
  step c (s, h) = Done (s', h') → in_range s'.
Proof.
  intros Hty Hmin Hs H. destruct c; simpl in *.
  - apply exec_bind_Done in H as ([[s1 h1] ret] & H & [= <- <-]).
    unfold ExecuteOps in H. destruct (dead s); [by injection H as <- <- <-|].
    destruct (validateOps s ops true); [by injection H as <- <- <-|].
    destruct (checkPerms s creds _); simpl in H; [|by injection H as <- <- <-].
    apply exec_bind_Done in H as ([[s2 h2] [[c n] e]] & Hloop & H).
    unfold executeOps in Hloop.
    assert (Htmp : Forall (λ v, 0 ≤ v ≤ valueMax) (map value (sems s))).
    { apply Forall_fmap. exact Hs. }
    apply (executeOps_loop_range _ _ _ _ _ _ _ _ _ Hty Hmin Htmp Hs) in Hloop.
    destruct e; by injection H as <- <- <-.
  - apply exec_bind_Done in H as ([[s1 h1] e] & H & [= <- <-]).
    unfold SetVal in H. destruct (_ || _) eqn:Hval; [by injection H as <- <- <-|].
    destruct (negb _); [by injection H as <- <- <-|].
    destruct (findSem s num); [|by injection H as <- <- <-].
    apply exec_bind_Done in H as ([x' h2] & Hwake & H). injection H as <- <- <-.
    apply wakeWaiters_Done in Hwake as (Hv & _).
    apply orb_false_iff in Hval as [H1 H2].
    apply bool_decide_eq_false in H1, H2.
    apply in_range_store; [apply in_range_store; [done|]|]; simpl; [|rewrite Hv; simpl]; lia.
  - apply exec_bind_Done in H as ([[s1 h1] e] & H & [= <- <-]).
    unfold SetValAll in H. destruct (negb _); [done|].
    destruct (negb (valsInRange vals)) eqn:Hok; [by injection H as <- <- <-|].
    destruct (negb (checkPerms _ _ _)); [by injection H as <- <- <-|].
    apply exec_bind_Done in H as ([s2 h2] & Hall & H). injection H as <- <- <-.
    apply negb_false_iff in Hok.
    eapply setAll_range in Hall; [done| |done]. by apply valsInRange_Forall.
  - injection H as <- <-. unfold Change. by destruct (_ && _).
  - apply exec_bind_Done in H as (s1 & H & [= <- <-]).
    unfold AbortWait in H. apply exec_bind_Done in H as (x & Hx & H).
    injection H as <-. apply index_Done in Hx as [_ Hx].
    apply in_range_store; [done|]. simpl.
    unfold in_range in Hs. rewrite Forall_forall in Hs. apply Hs.
    by eapply list_elem_of_lookup_2.
  - by injection H as <- <-.
  - unfold destroy in H. apply exec_bind_Done in H as (h1 & _ & H).
    by injection H as <- <-.
Qed.

Lemma run_in_range (cs : list call) :
  ∀ (s s' : Set_) (h h' : heap),
  Forall typed_call cs → Forall no_min_op cs → in_range s →
  run cs (s, h) = Done (s', h') → in_range s'.
Proof.
  induction cs as [|c cs IH]; intros s s' h h' Hty Hmin Hs H; simpl in H.
  - by injection H as <- <-.
  - apply Forall_cons in Hty as [Hc Hty]. apply Forall_cons in Hmin as [Hm Hmin].
    apply exec_bind_Done in H as ([s1 h1] & Hstep & H).
    eapply IH; [done..| |exact H]. by eapply step_in_range.
Qed.

(** ** New sets *)

(** A set as [newSet] makes it: live, every value 0, no waiter. *)
Lemma newSet_blank (fuel : nat) (r r' : Registry) (ctx : Context) (key' : Z)
    (owner' creator' : FileOwner) (perms' : FilePermissions) (nsems : Z)
    (s : Set_) (err : option errno) :
  newSet fuel r ctx key' owner' creator' perms' nsems = Done (r', (Some s, err)) →
  dead s = false ∧ Size s = Z.max 0 nsems ∧
  Forall (λ x, value x = 0 ∧ waiters x = []) (sems s).
Proof.
  unfold newSet. intros H.
  apply newSet_loop_Done in H as [[_ [=]]|(id' & index' & _ & _ & _ & _ & [= Hs _])].
  subst s. split; [done|]. split.
  - unfold Size. simpl. rewrite length_replicate. lia.
  - simpl. by apply Forall_replicate.
Qed.

(** Such a set has its values in the range and obeys the discipline of
    the wake channels, whatever the channels are. *)
Lemma blank_in_range (s : Set_) :
  Forall (λ x, value x = 0 ∧ waiters x = []) (sems s) → in_range s.
Proof.
  unfold in_range. intros Hblank. eapply Forall_impl; [exact Hblank|].
  intros x [-> _]. unfold valueMax, SEMVMX. lia.
Qed.

Lemma blank_quiet (s : Set_) (h : heap) :
  Forall (λ x, value x = 0 ∧ waiters x = []) (sems s) → quiet (sems s) h.
Proof.
  intros Hblank. assert (Hq : queuedOn (sems s) = []).
  { induction Hblank as [|x l [_ Hx] _ IH]; [done|].
    by rewrite queuedOn_cons, Hx, IH. }
  unfold quiet. rewrite Hq. split; [apply NoDup_nil_2 | apply Forall_nil_2].
Qed.

(** X14: on a new set, calls other than [destroy] never block in a send, and
    every queued waiter keeps an empty channel of its own. *)
Corollary new_set_never_blocks (fuel : nat) (r r' : Registry) (ctx : Context)
    (key' : Z) (owner' creator' : FileOwner) (perms' : FilePermissions)
    (nsems : Z) (s : Set_) (err : option errno) (h : heap) (cs : list call) :
  newSet fuel r ctx key' owner' creator' perms' nsems = Done (r', (Some s, err)) →
  forallb (λ c, negb (is_destroy c)) cs = true →
  ends (run cs (s, h)) (λ '(s', h'), quiet (sems s') h' ∧ dead s' = false).
Proof.
  intros Hnew Hcs. apply newSet_blank in Hnew as (Hlive & _ & Hblank).
  rewrite <- Hlive. apply run_quiet; [done|]. by apply blank_quiet.
Qed.

(** X22: on a new set, typed calls keep every value within [0, valueMax] as
    long as no operation of [ExecuteOps] is -32768. *)
Corollary new_set_in_range (fuel : nat) (r r' : Registry) (ctx : Context)
    (key' : Z) (owner' creator' : FileOwner) (perms' : FilePermissions)
    (nsems : Z) (s s' : Set_) (err : option errno) (h h' : heap) (cs : list call) :
  newSet fuel r ctx key' owner' creator' perms' nsems = Done (r', (Some s, err)) →
  Forall typed_call cs → Forall no_min_op cs →
  run cs (s, h) = Done (s', h') → in_range s'.
Proof.
  intros Hnew Hty Hmin Hrun. apply newSet_blank in Hnew as (_ & _ & Hblank).
  eapply run_in_range; [done..| |exact Hrun]. by apply blank_in_range.
Qed.

(** ** Allocation of ids and indexes *)

Lemma firstAvailable_Some (idx : gmap Z Z) (n : nat) :
  ∀ (i0 i : Z),
  0 ≤ i0 → i0 + Z.of_nat n ≤ 2147483647 →
  firstAvailable idx n i0 = Some i →
  i0 ≤ i < i0 + Z.of_nat n ∧ idx !! i = None ∧
  ∀ j, i0 ≤ j < i → is_Some (idx !! j).
Proof.
  induction n as [|n IH]; intros i0 i H0 Hn H; simpl in H; [done|].
  destruct (idx !! i0) as [v|] eqn:Hi0.
  - rewrite int32_small in H by (unfold is_int32; lia).
    apply IH in H as (Hi & Hfree & Hused); [|lia..].
    split; [lia|]. split; [done|]. intros j Hj.
    destruct (decide (j = i0)) as [->|]; [by eexists|]. apply Hused. lia.
  - injection H as <-. split; [lia|]. split; [done|]. intros j Hj. lia.
Qed.

(** [findFirstAvailableIndex] returns the lowest unused index of
    [0, setsMax). *)
Lemma findFirstAvailableIndex_Some (r : Registry) (i : Z) :
  findFirstAvailableIndex r = Some i →
  0 ≤ i < setsMax ∧ indexes r !! i = None ∧
  ∀ j, 0 ≤ j < i → is_Some (indexes r !! j).
Proof.
  unfold findFirstAvailableIndex. intros H.
  apply firstAvailable_Some in H; [|done|].
  - rewrite Z2Nat.id in H by done. by rewrite Z.add_0_l in H.
  - rewrite Z2Nat.id by done. unfold setsMax, SEMMNI. lia.
Qed.

(** Without wrap-around the search of [newSet] assigns the first unused
    id above [lastIDUsed], records it, and pairs it with the lowest unused
    index. *)
Lemma newSet_next_free (r : Registry) (ctx : Context) (key' : Z)
    (owner' creator' : FileOwner) (perms' : FilePermissions) (nsems : Z)
    (id index' : Z) :
  0 ≤ lastIDUsed r < id → id ≤ 2147483647 →
  semaphores r !! id = None →
  (∀ j, lastIDUsed r < j < id → is_Some (semaphores r !! j)) →
  findFirstAvailableIndex r = Some index' →
  ∃ fuel set,
    newSet fuel r ctx key' owner' creator' perms' nsems =
      Done ({| userNS := userNS r;
               semaphores := <[id := set]> (semaphores r);
               lastIDUsed := id;
               indexes := <[index' := id]> (indexes r) |},
            (Some set, None)) ∧
    ID set = id ∧ Size set = Z.max 0 nsems ∧
    Forall (λ x, value x = 0) (sems set).
Proof.
  intros HL Hmax Hfree Hused Hidx. unfold newSet.
  set (set0 := {| registry := userNS r; ID := 0; key := key'; creator := owner';
                  owner := owner'; perms := perms'; opTime := 0;
                  changeTime := NowFromContext ctx;
                  sems := replicate (Z.to_nat nsems) {| value := 0; waiters := []; pid := 0 |};
                  dead := false |}).
  rewrite int32_small by (unfold is_int32; lia).
  assert (Hloop : ∀ (d : nat) (cur : Z),
            cur = id - Z.of_nat d → lastIDUsed r < cur →
            newSet_loop (S d) r set0 cur =
              Done ({| userNS := userNS r;
                       semaphores := <[id := set_ID id set0]> (semaphores r);
                       lastIDUsed := id;
                       indexes := <[index' := id]> (indexes r) |},
                    (Some (set_ID id set0), None))).
  { induction d as [|d IH]; intros cur Hcur Hlt.
    - assert (cur = id) as -> by lia. simpl.
      rewrite bool_decide_eq_true_2 by lia. rewrite bool_decide_eq_false_2 by lia.
      by rewrite Hfree, Hidx.
    - change (newSet_loop (S (S d)) r set0 cur) with
        (if bool_decide (cur ≠ lastIDUsed r) then
           if bool_decide (cur < 0) then newSet_loop (S d) r set0 (int32 (0 + 1))
           else match semaphores r !! cur with
                | None =>
                    match findFirstAvailableIndex r with
                    | None => Panic
                    | Some index' =>
                        let set := set_ID cur set0 in
                        Done ({| userNS := userNS r;
                                 semaphores := <[cur := set]> (semaphores r);
                                 lastIDUsed := cur;
                                 indexes := <[index' := cur]> (indexes r) |},
                              (Some set, None))
                    end
                | Some _ => newSet_loop (S d) r set0 (int32 (cur + 1))
                end
         else Done (r, (None, Some ENOMEM))).
      rewrite bool_decide_eq_true_2 by lia. rewrite bool_decide_eq_false_2 by lia.
      destruct (Hused cur) as [v ->]; [lia|].
      rewrite int32_small by (unfold is_int32; lia). apply IH; lia. }
  exists (S (Z.to_nat (id - (lastIDUsed r + 1)))), (set_ID id set0).
  split; [apply Hloop; lia|]. split; [done|]. split.
  - unfold Size. simpl. rewrite length_replicate. lia.
  - simpl. apply Forall_replicate. done.
Qed.

(** ** The wrap-around is reachable *)

Lemma firstAvailable_empty : firstAvailable ∅ (Z.to_nat setsMax) 0 = Some 0.
Proof. vm_compute. reflexivity. Qed.

(** One creation and removal on an empty registry moves [lastIDUsed] on
    by one. *)
Lemma cycle_spec (n : Z) :
  0 ≤ n < 2147483647 →
  cycle {| userNS := 0; semaphores := ∅; lastIDUsed := n; indexes := ∅ |}
  = Done {| userNS := 0; semaphores := ∅; lastIDUsed := n + 1; indexes := ∅ |}.
Proof.
  intros Hn. unfold cycle, semget, FindOrCreate, createSet. simpl.
  unfold totalSems. simpl. rewrite map_size_empty, map_fold_empty.
  rewrite (bool_decide_eq_false_2 (setsMax ≤ _)) by (vm_compute; auto).
  rewrite (bool_decide_eq_false_2 (0 > _)) by (vm_compute; intros [=]).
  unfold newSet. cbn [lastIDUsed userNS].
  rewrite int32_small by (unfold is_int32; lia).
  change (newSet_loop 4 ?r ?s ?i) with
    (if bool_decide (i ≠ lastIDUsed r) then
       if bool_decide (i < 0) then newSet_loop 3 r s (int32 (0 + 1))
       else match semaphores r !! i with
            | None =>
                match findFirstAvailableIndex r with
                | None => Panic
                | Some index' =>
                    let set := set_ID i s in
                    Done ({| userNS := userNS r;
                             semaphores := <[i := set]> (semaphores r);
                             lastIDUsed := i;
                             indexes := <[index' := i]> (indexes r) |},
                          (Some set, None))
                end
            | Some _ => newSet_loop 3 r s (int32 (i + 1))
            end
     else Done (r, (None, Some ENOMEM))).
  cbn [lastIDUsed semaphores indexes userNS].
  rewrite bool_decide_eq_true_2 by lia. rewrite bool_decide_eq_false_2 by lia.
  rewrite lookup_empty. unfold findFirstAvailableIndex. cbn [indexes].
  rewrite firstAvailable_empty. cbn -[Z.add].
  rewrite insert_empty, map_to_list_singleton. cbn -[Z.add].
  unfold RemoveID. cbn [semaphores indexes lastIDUsed userNS].
  rewrite lookup_insert_eq. cbn [findIndexByID].
  rewrite bool_decide_eq_true_2 by done.
  unfold checkCredentials. cbn [owner creator set_ID UID GID EffectiveKUID alice].
  rewrite (bool_decide_eq_true_2 (1000 = 1000)) by done. cbn [orb negb andb].
  cbn [ID set_ID].
  rewrite delete_insert_eq, delete_empty, delete_singleton_eq.
  reflexivity.
Qed.

Lemma cycles_spec (k : nat) :
  Z.of_nat k ≤ 2147483647 →
  cycles k (NewRegistry 0)
  = Done {| userNS := 0; semaphores := ∅; lastIDUsed := Z.of_nat k; indexes := ∅ |}.
Proof.
  induction k as [|k IH]; intros Hk; [done|].
  change (cycles (S k) (NewRegistry 0)) with (cycles k (NewRegistry 0) ≫= cycle).
  rewrite IH by lia.
  change (Done ?r ≫= cycle) with (cycle r).
  rewrite cycle_spec by lia. do 2 f_equal. lia.
Qed.

(** The registry [wrapped] is what 2147483647 creations and removals
    leave of a new registry. *)
Lemma wrapped_reachable :
  cycles (Z.to_nat 2147483647) (NewRegistry 0) = Done wrapped.
Proof.
  rewrite cycles_spec by (rewrite Z2Nat.id; lia).
  rewrite Z2Nat.id by lia. reflexivity.
Qed.

(** ** Scenarios *)

Lemma created_pair : ∃ r, created 2 = Done (r, pair_set).
Proof. eexists. vm_compute. reflexivity. Qed.

(** C2: the batch [(0, -32768, 0)] is well typed, and on a fresh set of
    one semaphore [ExecuteOps] commits it: it returns [(nil, 0, nil)],
    after which [GetVal] returns -32768 and [GetValAll] 32768, both
    outside [0, valueMax]. *)
Theorem ExecuteOps_underflow :
  wf_Sembuf (sembuf 0 (-32768) 0) ∧
  underflow = Done ((None, 0, None), (-32768, None), (Some [32768], None)) ∧
  ¬ (0 ≤ -32768 ≤ valueMax) ∧ ¬ (0 ≤ 32768 ≤ valueMax).
Proof.
  split; [|split; [|split]].
  - unfold wf_Sembuf, is_uint16, is_int16. simpl. lia.
  - vm_compute. reflexivity.
  - unfold valueMax, SEMVMX. lia.
  - unfold valueMax, SEMVMX. lia.
Qed.

(** C5: the registry [wrapped], which 2147483647 creations and removals
    leave of a new registry, has [lastIDUsed] at the largest [int32] and
    every id unused; there the search of [newSet] wraps and assigns id 1,
    not id 0: after [id = 0; continue] the post statement has run before
    the next test. *)
Theorem newSet_wrap_skips_zero :
  cycles (Z.to_nat 2147483647) (NewRegistry 0) = Done wrapped ∧
  semaphores wrapped !! 0 = None ∧
  ∃ r' set,
    newSet 2 wrapped ctx_alice 7 (FileOwnerFromContext ctx_alice)
      (FileOwnerFromContext ctx_alice) (FilePermsFromMode_spec 384) 1
    = Done (r', (Some set, None)) ∧
    ID set = 1 ∧ lastIDUsed r' = 1 ∧
    semaphores r' !! 0 = None ∧ semaphores r' !! 1 = Some set ∧
    indexes r' !! 0 = Some 1.
Proof.
  split; [apply wrapped_reachable|].
  split; [done|]. eexists _, _. split; [vm_compute; reflexivity|].
  repeat split; vm_compute; reflexivity.
Qed.

(** C7: after the removal of a set on which a caller waits, the waiter is
    still linked in the queue of the removed set and its channel holds
    the signal of [destroy]; a call of [SetVal] on the removed set that
    makes the semaphore large enough for that waiter then blocks in the
    send of [wakeWaiters]. *)
Theorem wakeWaiters_blocks_after_destroy :
  removed_while_waiting = Done (set_dead true single_blocked, [chanCap]) ∧
  queued (set_dead true single_blocked) = [{| w_value := -1; w_ch := 0%nat |}] ∧
  setval_after_removal = Stuck.
Proof. repeat split; vm_compute; reflexivity. Qed.

(** C3 fails as stated: on a removed (dead) set [GetVal] answers without
    an error, and [SetVal] succeeds and changes the value. *)
Lemma dead_set_still_answers :
  removed_idle = Done (set_dead true single_set, []) ∧
  GetVal (set_dead true single_set) 0 alice = (0, None) ∧
  ∃ s',
    SetVal ctx_alice (set_dead true single_set) [] 0 5 alice 200 = Done (s', [], None) ∧
    dead s' = true ∧
    GetVal s' 0 alice = (5, None).
Proof.
  split; [vm_compute; reflexivity|]. split; [vm_compute; reflexivity|].
  eexists. split; [vm_compute; reflexivity|].
  split; vm_compute; reflexivity.
Qed.

(** C4 fails as stated: an increment of semaphore 0 alone, by pid 100,
    succeeds and leaves pid 100 in semaphore 1 too, whose pid was 0. *)
Lemma ExecuteOps_pid_of_untouched_sem :
  ExecuteOps ctx_alice pair_set [] [sembuf 0 1 0] alice 100
    = Done (set_opTime 1
              (set_sems [ {| value := 1; waiters := []; pid := 100 |};
                          {| value := 0; waiters := []; pid := 100 |} ] pair_set),
            [], (None, 0, None)) ∧
  (∀ op, op ∈ [sembuf 0 1 0] → SemNum op ≠ 1) ∧
  pid <$> sems pair_set !! 1%nat = Some 0.
Proof.
  split; [vm_compute; reflexivity|].
  split; [|vm_compute; reflexivity].
  intros op [->|Hin]%elem_of_cons; [done | by apply elem_of_nil in Hin].
Qed.

(** C6 fails as stated: bob fails the permission check on the set with
    key 7 (the request is for mode 0666, the set has mode 0600 and alice
    owns it); asking for that key with [nsems = -1], which does not exceed
    the size of the set, bob gets [EINVAL], not [EACCES]. *)
Lemma FindOrCreate_bad_nsems_first :
  created 1 = Done (reg7, single_set) ∧
  findByKey (map_to_list (semaphores reg7)) 7 = Some single_set ∧
  checkPerms single_set bob (PermsFromMode_spec 438) = false ∧
  ¬ (-1 > Size single_set) ∧
  semget reg7 ctx_bob 7 (-1) 438 false false false = Done (reg7, (None, Some EINVAL)).
Proof.
  split; [vm_compute; reflexivity|].
  split; [vm_compute; reflexivity|]. split; [vm_compute; reflexivity|].
  split; [vm_compute; intros [=] | vm_compute; reflexivity].
Qed.

(** C10 fails as stated: on an index outside the set [GetVal], [GetPID]
    and [SetVal] do not return [ERANGE] to every caller.  The permission
    check comes first: bob, who has no permission on the set of alice,
    gets [EACCES] on index 5 of a set of two semaphores, where alice gets
    [ERANGE] and [AbortWait] panics. *)
Lemma out_of_range_is_EACCES_without_permission :
  ¬ (0 ≤ 5 < Size pair_set) ∧
  GetVal pair_set 5 bob = (0, Some EACCES) ∧
  GetPID pair_set 5 bob = (0, Some EACCES) ∧
  SetVal ctx_bob pair_set [] 5 1 bob 300 = Done (pair_set, [], Some EACCES) ∧
  GetVal pair_set 5 alice = (0, Some ERANGE) ∧
  AbortWait pair_set 5 0%nat = Panic.
Proof.
  split; [vm_compute; intros [_ H]; discriminate H|].
  repeat split; vm_compute; reflexivity.
Qed.

(** ** Instances *)

Lemma created_single : created 1 = Done (reg7, single_set).
Proof. vm_compute. reflexivity. Qed.

Lemma ExecuteOps_atomic_witness :
  ExecuteOps ctx_alice pair_set [] [sembuf 0 (-1) 0] alice 100
    = Done (pair_blocked, [0%nat], (Some 0%nat, 0, None)) ∧
  ∃ op x,
    op ∈ [sembuf 0 (-1) 0] ∧ 0 = SemNum op ∧
    sems pair_set !! Z.to_nat 0 = Some x ∧
    sems pair_blocked !! Z.to_nat 0 =
      Some {| value := value x;
              waiters := waiters x ++ [{| w_value := SemOp op; w_ch := 0%nat |}];
              pid := pid x |} ∧
    (∀ j, j ≠ Z.to_nat 0 → sems pair_blocked !! j = sems pair_set !! j) ∧
    length (sems pair_blocked) = length (sems pair_set) ∧
    registry pair_blocked = registry pair_set ∧ ID pair_blocked = ID pair_set ∧
    key pair_blocked = key pair_set ∧ creator pair_blocked = creator pair_set ∧
    owner pair_blocked = owner pair_set ∧ perms pair_blocked = perms pair_set ∧
    opTime pair_blocked = opTime pair_set ∧
    changeTime pair_blocked = changeTime pair_set ∧
    dead pair_blocked = dead pair_set ∧
    pair_blocked = store_sem pair_set (Z.to_nat 0)
      (set_waiters (waiters x ++ [{| w_value := SemOp op; w_ch := 0%nat |}]) x) ∧
    0%nat = length (@nil nat) ∧ [0%nat] = [] ++ [0%nat].
Proof.
  assert (Hrun : ExecuteOps ctx_alice pair_set [] [sembuf 0 (-1) 0] alice 100
                 = Done (pair_blocked, [0%nat], (Some 0%nat, 0, None)))
    by (vm_compute; reflexivity).
  split; [exact Hrun|].
  refine (proj2 (proj2 (ExecuteOps_atomic ctx_alice pair_set pair_blocked [] [0%nat]
                          [sembuf 0 (-1) 0] alice 100 (Some 0%nat) 0 None _ _ Hrun)
                   0%nat eq_refl)).
  - repeat constructor; simpl; lia.
  - reflexivity.
Defined.

Lemma ExecuteOps_pid_witness :
  ∃ s' h',
    ExecuteOps ctx_alice pair_set [] [sembuf 0 1 0] alice 100
      = Done (s', h', (None, 0, None)) ∧
    ∀ i x', sems s' !! i = Some x' → pid x' = 100.
Proof.
  eexists _, _. split; [vm_compute; reflexivity|].
  refine (proj1 (proj2 (ExecuteOps_pid ctx_alice pair_set _ [] _
                          [sembuf 0 1 0] alice 100 _ _))).
  - repeat constructor; simpl; lia.
  - vm_compute. reflexivity.
Defined.

Lemma ExecuteOps_nowait_witness :
  ExecuteOps ctx_alice pair_set [] [sembuf 0 (-1) 2048] alice 100
    = Done (pair_set, [], (None, 0, Some ErrWouldBlock)).
Proof.
  refine (proj2 (ExecuteOps_nowait ctx_alice pair_set [] [sembuf 0 (-1) 2048] alice 100 _)
            [sembuf 0 (-1) 0] pair_blocked [0%nat] 0%nat 0 None _ _).
  - repeat constructor. unfold nowait. vm_compute. intros [=].
  - repeat constructor.
  - vm_compute. reflexivity.
Defined.

Lemma checkPerms_monotone_witness :
  checkPerms pair_set alice {| Read := true; Write := false; Execute := false |} = true.
Proof.
  apply (checkPerms_monotone pair_set alice
           {| Read := true; Write := true; Execute := false |}).
  - unfold subMask. simpl. tauto.
  - vm_compute. reflexivity.
Defined.

Lemma AbortWait_spec_witness :
  AbortWait pair_set 5 0%nat = Panic ∧
  AbortWait pair_blocked 0 0%nat = Done pair_set ∧
  sems pair_set !! 0%nat = Some {| value := 0; waiters := []; pid := 0 |}.
Proof.
  split.
  - refine (proj1 (proj1 (AbortWait_spec pair_set 5 0%nat) _)).
    vm_compute. intros [_ H]. discriminate H.
  - destruct (proj2 (AbortWait_spec pair_blocked 0 0%nat)) as (x & Hx & Hfirst & _).
    { vm_compute. split; [intros [=] | reflexivity]. }
    vm_compute in Hx. injection Hx as <-.
    destruct (Hfirst [] {| w_value := -1; w_ch := 0%nat |} [])
      as (s' & Hrun & Hnew & _ & _ & _ & _ & _ & _ & _ & _ & _ & _ & _ & Heq).
    + reflexivity.
    + intros w' Hw'. inversion Hw'.
    + reflexivity.
    + assert (Hs' : s' = pair_set) by (rewrite Heq; vm_compute; reflexivity).
      rewrite Hs' in Hrun, Hnew. split; [exact Hrun | exact Hnew].
Defined.

Lemma destroy_spec_witness :
  quiet (sems pair_blocked) [0%nat] ∧
  ∃ h', destroy pair_blocked [0%nat] = Done (set_dead true pair_blocked, h') ∧
        h' !! 0%nat = Some 1%nat.
Proof.
  assert (Hq : quiet (sems pair_blocked) [0%nat]).
  { split; vm_compute.
    - apply NoDup_singleton.
    - repeat constructor. }
  split; [exact Hq|].
  destruct (destroy_spec pair_blocked [0%nat] Hq) as (h' & Hd & Hsig & _).
  exists h'. split; [exact Hd|].
  apply (Hsig {| w_value := -1; w_ch := 0%nat |}).
  vm_compute. left.
Defined.

Lemma FindOrCreate_existing_witness :
  semget reg7 ctx_bob 7 1 438 false false false = Done (reg7, (None, Some EACCES)) ∧
  semget reg7 ctx_alice 7 1 438 false true true = Done (reg7, (None, Some EEXIST)) ∧
  semget reg7 ctx_alice 8 1 438 false false false = Done (reg7, (None, Some ENOENT)).
Proof.
  assert (Hrange : range_of (semaphores reg7) (map_to_list (semaphores reg7)))
    by (unfold range_of; reflexivity).
  assert (Hsizes : ∀ id v, semaphores reg7 !! id = Some v → Size v ≤ semsMax).
  { intros id v H. simpl in H. apply lookup_singleton_Some in H as [_ <-].
    vm_compute. intros [=]. }
  assert (Hn : 0 ≤ 1 ≤ semsMax) by (vm_compute; split; intros [=]).
  assert (Hex : ∃ id v, semaphores reg7 !! id = Some v ∧ key v = 7).
  { exists 1, single_set. split; reflexivity. }
  split; [|split].
  - destruct (proj1 (FindOrCreate_existing PermsFromMode_spec FilePermsFromMode_spec 4
                       (map_to_list (semaphores reg7)) reg7 ctx_bob 7 1 438 false false
                       Hrange Hsizes Hn) Hex)
      as (id & found & _ & _ & Hfind & Hres).
    vm_compute in Hfind. injection Hfind as <-. exact Hres.
  - destruct (proj1 (FindOrCreate_existing PermsFromMode_spec FilePermsFromMode_spec 4
                       (map_to_list (semaphores reg7)) reg7 ctx_alice 7 1 438 true true
                       Hrange Hsizes Hn) Hex)
      as (id & found & _ & _ & Hfind & Hres).
    vm_compute in Hfind. injection Hfind as <-. exact Hres.
  - refine (proj2 (FindOrCreate_existing PermsFromMode_spec FilePermsFromMode_spec 4
                     (map_to_list (semaphores reg7)) reg7 ctx_alice 8 1 438 false false
                     Hrange Hsizes Hn) _ eq_refl).
    intros id v H. simpl in H. apply lookup_singleton_Some in H as [_ <-].
    vm_compute. intros [=].
Defined.
(** * Further properties *)

(** ** The wake-up pass *)

(** What one pass keeps: the waiters still blocked, in their order. *)
Lemma wakeLoop_filter (v : Z) (ws : waiterList) :
  ∀ (h h' : heap) (ws' : waiterList),
  wakeLoop v ws h = Done (ws', h') → ws' = filter (blocked v) ws.
Proof.
  induction ws as [|w rest IH]; intros h h' ws' H; simpl in H.
  - by injection H as <- <-.
  - destruct (bool_decide (v < abs (w_value w))) eqn:Hb.
    + apply bool_decide_eq_true in Hb.
      apply exec_bind_Done in H as ([r1 h1] & Hrest & H). injection H as <- <-.
      rewrite filter_cons_True by done. f_equal. by eapply IH.
    + apply bool_decide_eq_false in Hb.
      apply exec_bind_Done in H as (h1 & _ & H).
      rewrite filter_cons_False by done. by eapply IH.
Qed.

(** With distinct, empty channels the pass goes through: every waiter it
    unlinks has one signal in its channel, no other channel changes. *)
Lemma wakeLoop_signals (v : Z) (ws : waiterList) :
  ∀ (h : heap),
  NoDup (chansOf ws) →
  Forall (λ c, h !! c = Some 0%nat) (chansOf ws) →
  ∃ h',
    wakeLoop v ws h = Done (filter (blocked v) ws, h') ∧
    length h' = length h ∧
    (∀ w, w ∈ ws → ¬ blocked v w → h' !! w_ch w = Some 1%nat) ∧
    (∀ c, (∀ w, w ∈ ws → ¬ blocked v w → w_ch w ≠ c) → h' !! c = h !! c).
Proof.
  unfold chansOf.
  induction ws as [|w rest IH]; intros h Hnd Hall; simpl.
  - exists h. split; [done|]. split; [done|]. split; [|done].
    intros w Hw. by apply elem_of_nil in Hw.
  - rewrite fmap_cons in Hnd, Hall.
    apply NoDup_cons in Hnd as [Hw Hnd]. apply Forall_cons in Hall as [Hwc Hall].
    destruct (bool_decide (v < abs (w_value w))) eqn:Hb.
    + apply bool_decide_eq_true in Hb.
      destruct (IH h Hnd Hall) as (h' & -> & Hlen & Hsig & Hout). simpl.
      exists h'. rewrite filter_cons_True by done.
      split; [done|]. split; [done|]. split.
      * intros w' [->|Hin]%elem_of_cons Hnb; [done | by apply Hsig].
      * intros c Hc. apply Hout. intros w' Hin. apply Hc. by right.
    + apply bool_decide_eq_false in Hb.
      rewrite (send_empty h _ Hwc). simpl.
      destruct (IH (<[w_ch w := 1%nat]> h) Hnd) as (h' & -> & Hlen & Hsig & Hout).
      { rewrite Forall_forall in Hall |- *. intros c Hc.
        rewrite list_lookup_insert_ne; [by apply Hall|]. by intros <-. }
      exists h'. rewrite filter_cons_False by done.
      split; [done|]. split; [by rewrite Hlen, length_insert|]. split.
      * intros w' [->|Hin]%elem_of_cons Hnb; [|by apply Hsig].
        rewrite Hout.
        -- apply list_lookup_insert_eq. by eapply lookup_lt_Some.
        -- intros w' Hin _ Heq. apply Hw. rewrite <- Heq.
           apply list_elem_of_fmap. by exists w'.
      * intros c Hc. rewrite Hout.
        -- apply list_lookup_insert_ne. apply Hc; [by left | done].
        -- intros w' Hin. apply Hc. by right.
Qed.

Lemma wakeWaiters_filter (x x' : sem) (h h' : heap) :
  wakeWaiters x h = Done (x', h') →
  x' = set_waiters (filter (blocked (value x)) (waiters x)) x.
Proof.
  intros H. unfold wakeWaiters in H.
  apply exec_bind_Done in H as ([ws h1] & Hloop & H). injection H as <- <-.
  by rewrite (wakeLoop_filter _ _ _ _ _ Hloop).
Qed.

(** X1: [wakeWaiters] keeps exactly the waiters that are still blocked on
    the value of the semaphore, in queue order, and leaves value and pid
    alone; when the queued channels are distinct and empty it returns,
    each waiter it unlinks has exactly one signal in its channel, and no
    other channel changes. *)
Theorem wakeWaiters_spec (x : sem) (h : heap) :
  (∀ x' h', wakeWaiters x h = Done (x', h') →
     x' = set_waiters (filter (blocked (value x)) (waiters x)) x)
  ∧ (NoDup (chansOf (waiters x)) →
     Forall (λ c, h !! c = Some 0%nat) (chansOf (waiters x)) →
     ∃ h',
       wakeWaiters x h =
         Done (set_waiters (filter (blocked (value x)) (waiters x)) x, h') ∧
       (∀ w, w ∈ waiters x → ¬ blocked (value x) w → h' !! w_ch w = Some 1%nat) ∧
       (∀ c, (∀ w, w ∈ waiters x → ¬ blocked (value x) w → w_ch w ≠ c) →
             h' !! c = h !! c)).
Proof.
  split.
  - intros x' h' H. by eapply wakeWaiters_filter.
  - intros Hnd Hall.
    destruct (wakeLoop_signals (value x) (waiters x) h Hnd Hall)
      as (h' & Hloop & _ & Hsig & Hout).
    exists h'. unfold wakeWaiters. rewrite Hloop. done.
Qed.

(** ** The commit of a batch *)

(** The commit loop, semaphore by semaphore. *)
Lemma applyVals_full (p : Z) (tmpVals : list Z) :
  ∀ (i : nat) (s s' : Set_) (h h' : heap),
  applyVals s h p i tmpVals = Done (s', h') →
  ∀ j v, tmpVals !! j = Some v →
    ∃ x, sems s !! (i + j)%nat = Some x ∧
         sems s' !! (i + j)%nat =
           Some {| value := v; waiters := filter (blocked v) (waiters x); pid := p |}.
Proof.
  induction tmpVals as [|v rest IH]; intros i s s' h h' H j w Hw; [done|].
  simpl in H.
  apply exec_bind_Done in H as (x & Hx & H).
  apply index_Done in Hx as [_ Hx]. rewrite Nat2Z.id in Hx.
  apply exec_bind_Done in H as ([x' h1] & Hwake & H).
  apply wakeWaiters_filter in Hwake as ->.
  pose proof (applyVals_Done _ _ _ _ _ _ _ H) as (_ & _ & Hout & _).
  destruct j as [|j]; simpl in Hw.
  - injection Hw as <-. rewrite Nat.add_0_r. exists x. split; [done|].
    rewrite Hout by lia. simpl.
    rewrite list_lookup_insert_eq by (by eapply lookup_lt_Some). done.
  - destruct (IH _ _ _ _ _ H j w Hw) as (y & Hy & Hy').
    replace (i + S j)%nat with (S i + j)%nat by lia.
    exists y. split; [|done]. simpl in Hy.
    rewrite list_lookup_insert_ne in Hy by lia. done.
Qed.

(** When the loop of [executeOps] reaches the commit, the scratch vector
    holds the initial values plus the net change of each semaphore, as
    long as no addition wrapped. *)
Lemma executeOps_loop_commit (ctx : Context) (p : Z) (ops : list Sembuf) :
  ∀ (tmpVals : list Z) (s s' : Set_) (h h' : heap),
  Forall wf_Sembuf ops →
  Forall (λ op, SemOp op ≠ -32768) ops →
  Forall (λ v, 0 ≤ v ≤ valueMax) tmpVals →
  executeOps_loop ctx s h p ops tmpVals = Done (s', h', (None, 0, None)) →
  ∃ tmpVals' s1,
    applyVals s h p 0 tmpVals' = Done (s1, h') ∧
    s' = set_opTime (NowFromContext ctx) s1 ∧
    length tmpVals' = length tmpVals ∧
    Forall (λ v, 0 ≤ v ≤ valueMax) tmpVals' ∧
    ∀ i, tmpVals' !! i = (λ v, v + netOp ops (Z.of_nat i)) <$> tmpVals !! i.
Proof.
  induction ops as [|op rest IH]; intros tmpVals s s' h h' Hwf Hmin Htmp H; simpl in H.
  - apply exec_bind_Done in H as ([s1 h1] & Happ & H). injection H as <- <-.
    exists tmpVals, s1. repeat split; try done.
    intros i. simpl. destruct (tmpVals !! i); simpl; [f_equal; lia | done].
  - apply Forall_cons in Hwf as [(Hnum & Hop & _) Hwf].
    apply Forall_cons in Hmin as [Hne Hmin].
    apply exec_bind_Done in H as (x & Hx & H).
    apply exec_bind_Done in H as (cur & Hcur & H).
    apply index_Done in Hcur as [Hn0 Hcur].
    assert (Hc : 0 ≤ cur ≤ valueMax).
    { rewrite Forall_forall in Htmp. apply Htmp. by eapply list_elem_of_lookup_2. }
    assert (Hwait : (if bool_decide (Z.land (SemFlg op) IPC_NOWAIT ≠ 0)
                     then Done (s, h, (None, 0, Some ErrWouldBlock))
                     else enqueue s h op) ≠ Done (s', h', (None, 0, None))).
    { clear H. case_bool_decide; [done|]. intros Henq.
      by apply enqueue_Done in Henq as (y & _ & _ & _ & _ & [=]). }
    assert (Hstep : ∀ delta,
              delta = SemOp op → 0 ≤ cur + delta ≤ valueMax →
              executeOps_loop ctx s h p rest
                (<[Z.to_nat (SemNum op) := cur + delta]> tmpVals)
                = Done (s', h', (None, 0, None)) →
              ∃ tmpVals' s1,
                applyVals s h p 0 tmpVals' = Done (s1, h') ∧
                s' = set_opTime (NowFromContext ctx) s1 ∧
                length tmpVals' = length tmpVals ∧
                Forall (λ v, 0 ≤ v ≤ valueMax) tmpVals' ∧
                ∀ i, tmpVals' !! i =
                     (λ v, v + netOp (op :: rest) (Z.of_nat i)) <$> tmpVals !! i).
    { intros delta -> Hr Hnext.
      apply IH in Hnext as (t' & s1 & Happ & -> & Hlen & Hrng & Hsum);
        [|done..|by apply Forall_insert].
      exists t', s1. rewrite length_insert in Hlen. repeat split; try done.
      intros i. rewrite Hsum. simpl.
      destruct (decide (i = Z.to_nat (SemNum op))) as [->|Hi].
      - rewrite list_lookup_insert_eq by (by eapply lookup_lt_Some).
        rewrite Hcur. simpl. rewrite Z2Nat.id by done.
        rewrite bool_decide_eq_true_2 by done. f_equal. lia.
      - rewrite list_lookup_insert_ne by done.
        rewrite bool_decide_eq_false_2 by lia.
        destruct (tmpVals !! i); simpl; [f_equal; lia | done]. }
    unfold is_int16, valueMax, SEMVMX in *.
    destruct (bool_decide (SemOp op = 0)) eqn:H0.
    { apply bool_decide_eq_true in H0.
      destruct (bool_decide (cur ≠ 0)) eqn:Hcur0; [done|].
      apply bool_decide_eq_false in Hcur0.
      apply (Hstep (SemOp op)); [done | lia |].
      rewrite H0, Z.add_0_r, list_insert_id by done. exact H. }
    destruct (bool_decide (SemOp op < 0)) eqn:Hneg.
    + apply bool_decide_eq_true in Hneg.
      rewrite (int16_small (- SemOp op)) in H by (unfold is_int16; lia).
      destruct (bool_decide (- SemOp op > 32767)); [done|].
      destruct (bool_decide (- SemOp op > cur)) eqn:Hblock; [done|].
      apply bool_decide_eq_false in Hblock.
      rewrite int16_small in H by (unfold is_int16; lia).
      apply (Hstep (SemOp op)); [done | lia | exact H].
    + apply bool_decide_eq_false in Hneg.
      rewrite (int16_small (32767 - SemOp op)) in H by (unfold is_int16; lia).
      destruct (bool_decide (cur > 32767 - SemOp op)) eqn:Hover; [done|].
      apply bool_decide_eq_false in Hover.
      rewrite int16_small in H by (unfold is_int16; lia).
      apply (Hstep (SemOp op)); [done | lia | exact H].
Qed.

(** X2: after a successful call of [ExecuteOps] no waiter that could
    proceed is left queued: on every semaphore the queue is what it was
    without the waiters that are no longer blocked on the new value, in
    the same order.  Nothing but the semaphores and [opTime] changes. *)
Theorem ExecuteOps_wakes (ctx : Context) (s s' : Set_) (h h' : heap)
    (ops : list Sembuf) (creds : Credentials) (p : Z) :
  ExecuteOps ctx s h ops creds p = Done (s', h', (None, 0, None)) →
  opTime s' = NowFromContext ctx ∧
  set_opTime (opTime s) (set_sems (sems s) s') = s ∧
  (∀ i x', sems s' !! i = Some x' →
     ∃ x, sems s !! i = Some x ∧
          waiters x' = filter (blocked (value x')) (waiters x)) ∧
  (∀ i x' w, sems s' !! i = Some x' → w ∈ waiters x' → blocked (value x') w).
Proof.
  intros H. pose proof (ExecuteOps_success _ _ _ _ _ _ _ _ H) as (_ & Hlen & _ & _).
  unfold ExecuteOps in H. destruct (dead s); [done|].
  destruct (validateOps s ops true) as [e0|readOnly]; [done|].
  destruct (checkPerms s creds _); simpl in H; [|done].
  apply exec_bind_Done in H as ([[s1 h1] [[ch1 num1] err1]] & Hloop & H).
  assert (Hq : ∀ i x', sems s' !! i = Some x' →
            ∃ x, sems s !! i = Some x ∧
                 waiters x' = filter (blocked (value x')) (waiters x)).
  { apply executeOps_loop_Done in Hloop
      as [(-> & -> & Hret)|[(op & Hop & Hnw & Henq)|(t' & s2 & Hlt & Happ & -> & Hret)]].
    - destruct Hret as [[= -> -> ->]|[= -> -> ->]]; done.
    - apply enqueue_Done in Henq as (x & H0 & Hx & -> & -> & [= -> -> ->]). done.
    - injection Hret as -> -> ->. injection H as <- <-.
      rewrite length_map in Hlt. simpl in *.
      intros i x' Hx'. apply lookup_lt_Some in Hx' as Hi.
      destruct (lookup_lt_is_Some_2 t' i) as [v Hv]; [lia|].
      destruct (applyVals_full _ _ _ _ _ _ _ Happ i v Hv) as (x & Hx & Hx2).
      simpl in Hx, Hx2. exists x. split; [done|].
      rewrite Hx2 in Hx'. by injection Hx' as <-. }
  split; [|split; [|split; [done|]]].
  - apply executeOps_loop_Done in Hloop
      as [(-> & -> & Hret)|[(op & Hop & Hnw & Henq)|(t' & s2 & Hlt & Happ & -> & Hret)]].
    + destruct Hret as [[= -> -> ->]|[= -> -> ->]]; done.
    + apply enqueue_Done in Henq as (x & H0 & Hx & -> & -> & [= -> -> ->]). done.
    + injection Hret as -> -> ->. by injection H as <- <-.
  - apply executeOps_loop_Done in Hloop
      as [(-> & -> & Hret)|[(op & Hop & Hnw & Henq)|(t' & s2 & Hlt & Happ & -> & Hret)]].
    + destruct Hret as [[= -> -> ->]|[= -> -> ->]]; done.
    + apply enqueue_Done in Henq as (x & H0 & Hx & -> & -> & [= -> -> ->]). done.
    + injection Hret as -> -> ->. injection H as <- <-.
      apply applyVals_Done in Happ as (_ & Hset & _).
      clear -Hset. destruct s, s2. unfold set_sems, set_opTime in *.
      simpl in *. congruence.
  - intros i x' w Hx' Hw. destruct (Hq i x' Hx') as (x & _ & Heq).
    rewrite Heq in Hw. by apply list_elem_of_filter in Hw as [? _].
Qed.

(** X3: a successful call of [ExecuteOps] with well-typed operations, none
    of them -32768, on values within [0, valueMax], adds to every
    semaphore the sum of the operations that name it, keeps the values
    within the range, writes the pid of the caller everywhere, and keeps
    of each queue the waiters still blocked on the new value. *)
Theorem ExecuteOps_net (ctx : Context) (s s' : Set_) (h h' : heap)
    (ops : list Sembuf) (creds : Credentials) (p : Z) :
  Forall wf_Sembuf ops →
  Forall (λ op, SemOp op ≠ -32768) ops →
  in_range s →
  ExecuteOps ctx s h ops creds p = Done (s', h', (None, 0, None)) →
  in_range s' ∧
  ∀ i x, sems s !! i = Some x →
    sems s' !! i =
      Some {| value := value x + netOp ops (Z.of_nat i);
              waiters := filter (blocked (value x + netOp ops (Z.of_nat i))) (waiters x);
              pid := p |}.
Proof.
  intros Hwf Hmin Hs H.
  assert (Hrange : in_range s').
  { eapply (step_in_range (CallExecuteOps ctx ops creds p) s s' h h'); try done.
    simpl. by rewrite H. }
  split; [done|].
  unfold ExecuteOps in H. destruct (dead s); [done|].
  destruct (validateOps s ops true) as [e0|readOnly]; [done|].
  destruct (checkPerms s creds _); simpl in H; [|done].
  apply exec_bind_Done in H as ([[s1 h1] [[ch1 num1] [e|]]] & Hloop & H); [done|].
  injection H as -> -> -> ->. unfold executeOps in Hloop.
  apply executeOps_loop_commit in Hloop as (t' & s2 & Happ & -> & Hlen & _ & Hsum);
    [|done..|by apply Forall_fmap].
  intros i x Hx.
  assert (Hv : t' !! i = Some (value x + netOp ops (Z.of_nat i))).
  { rewrite Hsum. change (map value (sems s)) with (value <$> sems s).
    by rewrite list_lookup_fmap, Hx. }
  destruct (applyVals_full _ _ _ _ _ _ _ Happ i _ Hv) as (y & Hy & Hy').
  simpl in Hy, Hy'. rewrite Hx in Hy. injection Hy as <-. exact Hy'.
Qed.

(** ** SetVal and the readers *)

Lemma checkPerms_same (s s' : Set_) (creds : Credentials) (m : PermMask) :
  owner s' = owner s → perms s' = perms s → registry s' = registry s →
  checkPerms s' creds m = checkPerms s creds m.
Proof.
  intros Ho Hp Hr. unfold checkPerms, checkCapability. by rewrite Ho, Hp, Hr.
Qed.

Lemma findSem_store (s : Set_) (num : Z) (x y : sem) :
  0 ≤ num → sems s !! Z.to_nat num = Some x →
  findSem (store_sem s (Z.to_nat num) y) num = Some y.
Proof.
  intros H0 Hx. apply findSem_Some. split; [done|]. simpl.
  apply list_lookup_insert_eq. by eapply lookup_lt_Some.
Qed.

Lemma SetVal_Done (ctx : Context) (s s' : Set_) (h h' : heap)
    (num val : Z) (creds : Credentials) (p : Z) :
  SetVal ctx s h num val creds p = Done (s', h', None) →
  0 ≤ val ≤ valueMax ∧
  checkPerms s creds writeMask = true ∧
  ∃ x, 0 ≤ num ∧ sems s !! Z.to_nat num = Some x ∧
       s' = set_changeTime (NowFromContext ctx)
              (store_sem s (Z.to_nat num)
                 {| value := val; waiters := filter (blocked val) (waiters x);
                    pid := p |}).
Proof.
  unfold SetVal. intros H.
  destruct (bool_decide (val < 0)) eqn:H1; [done|].
  destruct (bool_decide (val > valueMax)) eqn:H2; [done|].
  apply bool_decide_eq_false in H1, H2. simpl in H.
  fold writeMask in H. destruct (checkPerms s creds writeMask) eqn:Hperm; [|done].
  simpl in H. destruct (findSem s num) as [x|] eqn:Hx; [|done].
  apply findSem_Some in Hx as [H0 Hx].
  apply exec_bind_Done in H as ([x' h1] & Hwake & H). injection H as <- <-.
  apply wakeWaiters_filter in Hwake as ->. simpl.
  split; [lia|]. split; [done|]. exists x. split; [done|]. split; [done|].
  unfold store_sem, set_changeTime, set_sems. simpl.
  by rewrite list_insert_insert_eq.
Qed.

(** X4: a successful [SetVal] has written a value of [0, valueMax] and
    the pid of the caller into the semaphore [num], has kept of its queue
    the waiters still blocked on the new value, and has set [changeTime];
    every other semaphore and field is as before.  [GetVal] and [GetPID]
    then read the value and the pid back. *)
Theorem SetVal_roundtrip (ctx : Context) (s s' : Set_) (h h' : heap)
    (num val : Z) (creds : Credentials) (p : Z) :
  SetVal ctx s h num val creds p = Done (s', h', None) →
  0 ≤ val ≤ valueMax ∧
  checkPerms s creds writeMask = true ∧
  (∃ x, 0 ≤ num ∧ sems s !! Z.to_nat num = Some x ∧
        s' = set_changeTime (NowFromContext ctx)
               (store_sem s (Z.to_nat num)
                  {| value := val; waiters := filter (blocked val) (waiters x);
                     pid := p |})) ∧
  (∀ reader, checkPerms s' reader readMask = true →
     GetVal s' num reader = (val, None) ∧ GetPID s' num reader = (p, None)).
Proof.
  intros H. apply SetVal_Done in H as (Hval & Hperm & x & H0 & Hx & ->).
  split; [done|]. split; [done|]. split; [by exists x|].
  intros reader Hr. unfold GetVal, GetPID. fold readMask. rewrite Hr. simpl.
  assert (Hf : findSem
                 (set_changeTime (NowFromContext ctx)
                    (store_sem s (Z.to_nat num)
                       {| value := val; waiters := filter (blocked val) (waiters x);
                          pid := p |})) num
               = Some {| value := val; waiters := filter (blocked val) (waiters x);
                         pid := p |}).
  { apply findSem_Some. split; [done|]. simpl.
    apply list_lookup_insert_eq. by eapply lookup_lt_Some. }
  by rewrite Hf.
Qed.

(** X5: when [SetVal] returns an error nothing has changed, and the
    error is [ERANGE] for a value outside [0, valueMax] (whoever calls),
    else [EACCES] for a caller without write permission, else [ERANGE]
    for an index outside the set. *)
Theorem SetVal_errors (ctx : Context) (s s' : Set_) (h h' : heap)
    (num val : Z) (creds : Credentials) (p : Z) (e : errno) :
  SetVal ctx s h num val creds p = Done (s', h', Some e) →
  s' = s ∧ h' = h ∧
  e = (if bool_decide (0 ≤ val ≤ valueMax) then
         if checkPerms s creds writeMask then ERANGE else EACCES
       else ERANGE) ∧
  (0 ≤ val ≤ valueMax → checkPerms s creds writeMask = true →
   ¬ (0 ≤ num < Size s)).
Proof.
  unfold SetVal. intros H.
  destruct (bool_decide (val < 0)) eqn:H1.
  { apply bool_decide_eq_true in H1. injection H as <- <- <-.
    rewrite bool_decide_eq_false_2 by lia. repeat split; lia. }
  destruct (bool_decide (val > valueMax)) eqn:H2.
  { apply bool_decide_eq_true in H2. injection H as <- <- <-.
    rewrite bool_decide_eq_false_2 by lia. repeat split; lia. }
  apply bool_decide_eq_false in H1, H2. simpl in H.
  rewrite bool_decide_eq_true_2 by lia.
  fold writeMask in H. destruct (checkPerms s creds writeMask) eqn:Hperm; simpl in H.
  2:{ injection H as <- <- <-. done. }
  destruct (findSem s num) as [x|] eqn:Hx.
  - apply exec_bind_Done in H as ([x' h1] & _ & H). done.
  - injection H as <- <- <-. apply findSem_None in Hx. done.
Qed.

(** ** Counting waiters *)

Lemma uint16_succ (a : Z) : uint16 (uint16 a + 1) = uint16 (a + 1).
Proof. unfold uint16. by rewrite Zplus_mod_idemp_l. Qed.

Lemma count_fold (P : waiter → Prop) `{!∀ w, Decision (P w)} (ws : waiterList) :
  ∀ a : Z,
  fold_left (λ cnt w, if bool_decide (P w) then uint16 (cnt + 1) else cnt) ws (uint16 a)
  = uint16 (a + Z.of_nat (length (filter P ws))).
Proof.
  induction ws as [|w ws IH]; intros a; simpl.
  - by rewrite Z.add_0_r.
  - case_bool_decide as Hw.
    + rewrite filter_cons_True by done. rewrite uint16_succ, IH. simpl length.
      f_equal. lia.
    + rewrite filter_cons_False by done. apply IH.
Qed.

Lemma count_fold0 (P : waiter → Prop) `{!∀ w, Decision (P w)} (ws : waiterList) :
  fold_left (λ cnt w, if bool_decide (P w) then uint16 (cnt + 1) else cnt) ws 0
  = uint16 (Z.of_nat (length (filter P ws))).
Proof. exact (count_fold P ws 0). Qed.

(** X6: for a caller with read permission and an index of the set,
    [CountZeroWaiters] and [CountNegativeWaiters] return the number of
    queued waiters whose value is 0, respectively negative, reduced
    modulo 65536 (the counter is a [uint16]); without read permission both
    return [EACCES], and with it [ERANGE] for an index outside the set. *)
Theorem countWaiters_spec (s : Set_) (num : Z) (creds : Credentials) :
  (checkPerms s creds readMask = false →
     CountZeroWaiters s num creds = (0, Some EACCES) ∧
     CountNegativeWaiters s num creds = (0, Some EACCES))
  ∧ (checkPerms s creds readMask = true → ¬ (0 ≤ num < Size s) →
     CountZeroWaiters s num creds = (0, Some ERANGE) ∧
     CountNegativeWaiters s num creds = (0, Some ERANGE))
  ∧ (checkPerms s creds readMask = true →
     ∀ x, 0 ≤ num → sems s !! Z.to_nat num = Some x →
     CountZeroWaiters s num creds =
       (uint16 (Z.of_nat (length (filter (λ w, w_value w = 0) (waiters x)))), None) ∧
     CountNegativeWaiters s num creds =
       (uint16 (Z.of_nat (length (filter (λ w, w_value w < 0) (waiters x)))), None)).
Proof.
  unfold CountZeroWaiters, CountNegativeWaiters, countWaiters. fold readMask.
  split; [|split].
  - intros ->. done.
  - intros -> Hout. simpl. apply findSem_None in Hout. by rewrite Hout.
  - intros -> x H0 Hx. simpl.
    rewrite (proj2 (findSem_Some s num x) (conj H0 Hx)).
    by rewrite (count_fold0 (λ w, w_value w = 0)), (count_fold0 (λ w, w_value w < 0)).
Qed.

Lemma filter_none {A} (P : A → Prop) `{!∀ x, Decision (P x)} (l : list A) :
  (∀ x, x ∈ l → ¬ P x) → filter P l = [].
Proof.
  induction l as [|x l IH]; intros Hl; [done|].
  rewrite filter_cons_False by (apply Hl; left). apply IH.
  intros y Hy. apply Hl. by right.
Qed.

(** X7: a wake-up pass on a value that is not negative unlinks every
    waiter that waits for zero, whether or not the value is zero: after a
    successful [SetVal], [CountZeroWaiters] on that semaphore is 0. *)
Theorem SetVal_releases_zero_waiters (ctx : Context) (s s' : Set_) (h h' : heap)
    (num val : Z) (creds reader : Credentials) (p : Z) :
  SetVal ctx s h num val creds p = Done (s', h', None) →
  checkPerms s' reader readMask = true →
  CountZeroWaiters s' num reader = (0, None).
Proof.
  intros H Hr. apply SetVal_Done in H as (Hval & _ & x & H0 & Hx & ->).
  unfold CountZeroWaiters, countWaiters. fold readMask. rewrite Hr. simpl.
  assert (Hf : findSem
                 (set_changeTime (NowFromContext ctx)
                    (store_sem s (Z.to_nat num)
                       {| value := val; waiters := filter (blocked val) (waiters x);
                          pid := p |})) num
               = Some {| value := val; waiters := filter (blocked val) (waiters x);
                         pid := p |}).
  { apply findSem_Some. split; [done|]. simpl.
    apply list_lookup_insert_eq. by eapply lookup_lt_Some. }
  rewrite Hf. simpl. rewrite (count_fold0 (λ w, w_value w = 0)).
  rewrite filter_none; [done|].
  intros w [Hb _]%list_elem_of_filter Hw. unfold blocked in Hb.
  rewrite Hw in Hb. unfold abs in Hb. rewrite bool_decide_eq_false_2 in Hb by lia. lia.
Qed.

(** ** Giving up a wait *)

Lemma removeWaiter_last (ch : chan) (ws : waiterList) (v : Z) :
  (∀ w, w ∈ ws → w_ch w ≠ ch) →
  removeWaiter ch (ws ++ [{| w_value := v; w_ch := ch |}]) = ws.
Proof.
  intros Hws. rewrite (removeWaiter_first ch ws []); [by rewrite app_nil_r|done..].
Qed.

(** X8: [AbortWait] undoes the enqueue of a blocking [ExecuteOps]: on a
    set whose queued waiters have channels of the store, a call of
    [ExecuteOps] that returns a wake channel and an index, followed by
    [AbortWait] with that index and channel, leaves the set exactly as it
    was before the two calls. *)
Theorem AbortWait_undoes_block (ctx : Context) (s s' : Set_) (h h' : heap)
    (ops : list Sembuf) (creds : Credentials) (p : Z) (c : chan) (num : Z) :
  Forall wf_Sembuf ops →
  Forall (λ c', (c' < length h)%nat) (chansOf (queued s)) →
  ExecuteOps ctx s h ops creds p = Done (s', h', (Some c, num, None)) →
  AbortWait s' num c = Done s.
Proof.
  intros Hwf Hch H. unfold ExecuteOps in H. destruct (dead s); [done|].
  destruct (validateOps s ops true) as [e0|readOnly]; [done|].
  destruct (checkPerms s creds _); simpl in H; [|done].
  apply exec_bind_Done in H as ([[s1 h1] [[ch1 num1] [e|]]] & Hloop & H); [done|].
  injection H as -> -> -> ->.
  apply executeOps_loop_Done in Hloop
    as [(_ & _ & [[=]|[=]])|[(op & Hop & _ & Henq)|(t' & s2 & _ & _ & _ & [=])]].
  apply enqueue_Done in Henq as (x & H0 & Hx & -> & -> & [= -> ->]).
  rewrite Forall_forall in Hwf. destruct (Hwf op Hop) as (Hu & _).
  rewrite (int32_uint16 _ Hu). unfold AbortWait.
  assert (Hidx : index (sems (store_sem s (Z.to_nat (SemNum op))
                   (set_waiters (waiters x ++ [{| w_value := SemOp op; w_ch := length h |}]) x)))
                   (SemNum op)
                 = Done (set_waiters (waiters x ++ [{| w_value := SemOp op; w_ch := length h |}]) x)).
  { apply index_Done. split; [done|]. simpl.
    apply list_lookup_insert_eq. by eapply lookup_lt_Some. }
  rewrite Hidx. simpl. rewrite removeWaiter_last.
  - f_equal. unfold store_sem, set_sems. simpl. rewrite list_insert_insert_eq.
    rewrite list_insert_id; [by destruct s | by destruct x].
  - intros w Hw Heq. rewrite Forall_forall in Hch.
    assert (Hin : w_ch w ∈ chansOf (queued s)).
    { unfold chansOf, queued. apply list_elem_of_fmap. exists w. split; [done|].
      rewrite (queuedOn_middle _ _ _ Hx). rewrite !elem_of_app. auto. }
    apply Hch in Hin. lia.
Qed.

(** ** SetValAll *)

(** The second loop of [SetValAll], semaphore by semaphore. *)
Lemma setAll_full (p : Z) (vals : list Z) :
  ∀ (i : nat) (s s' : Set_) (h h' : heap),
  setAll s h p i vals = Done (s', h') →
  length (sems s') = length (sems s) ∧
  set_sems (sems s) s' = s ∧
  (∀ j, (j < i)%nat → sems s' !! j = sems s !! j) ∧
  (∀ j v, vals !! j = Some v →
     ∃ x, sems s !! (i + j)%nat = Some x ∧
          sems s' !! (i + j)%nat =
            Some {| value := int16 v;
                    waiters := filter (blocked (int16 v)) (waiters x); pid := p |}).
Proof.
  induction vals as [|v rest IH]; intros i s s' h h' H; simpl in H.
  - injection H as <- <-. split; [done|]. split; [by destruct s|]. split; [done|].
    intros j v [=].
  - apply exec_bind_Done in H as (x & Hx & H).
    apply index_Done in Hx as [_ Hx]. rewrite Nat2Z.id in Hx.
    apply exec_bind_Done in H as ([x' h1] & Hwake & H).
    apply wakeWaiters_filter in Hwake as ->.
    apply IH in H as (Hlen & Hset & Hout & Hin).
    unfold store_sem in *. simpl in *. rewrite length_insert in Hlen.
    split; [done|]. split.
    { clear -Hset. destruct s, s'. unfold set_sems in *. simpl in *. congruence. }
    split.
    + intros j Hj. rewrite Hout by lia. apply list_lookup_insert_ne. lia.
    + intros [|j] w Hw; simpl in Hw.
      * injection Hw as <-. rewrite Nat.add_0_r. exists x. split; [done|].
        rewrite Hout by lia.
        rewrite list_lookup_insert_eq by (by eapply lookup_lt_Some). done.
      * destruct (Hin j w Hw) as (y & Hy & Hy').
        replace (i + S j)%nat with (S i + j)%nat by lia.
        exists y. split; [|done].
        rewrite list_lookup_insert_ne in Hy by lia. done.
Qed.

Lemma valsInRange_false (vals : list Z) :
  valsInRange vals = false → Exists (λ v, v > valueMax) vals.
Proof.
  unfold valsInRange. induction vals as [|v vals IH]; simpl; [done|].
  case_bool_decide as Hv; simpl.
  - intros _. by left.
  - intros H. right. by apply IH.
Qed.

(** X9: a successful [SetValAll] of well-typed values has checked that
    there is one value per semaphore, none above [valueMax]; it has
    written the values and the pid of the caller into the semaphores, kept
    of each queue the waiters still blocked, and set [changeTime];
    [GetValAll] then reads the same values back. *)
Theorem SetValAll_roundtrip (ctx : Context) (s s' : Set_) (h h' : heap)
    (vals : list Z) (creds : Credentials) (p : Z) :
  Forall is_uint16 vals →
  SetValAll ctx s h vals creds p = Done (s', h', None) →
  length vals = length (sems s) ∧
  Forall (λ v, 0 ≤ v ≤ valueMax) vals ∧
  checkPerms s creds writeMask = true ∧
  changeTime s' = NowFromContext ctx ∧
  set_changeTime (changeTime s) (set_sems (sems s) s') = s ∧
  (∀ i v x, vals !! i = Some v → sems s !! i = Some x →
     sems s' !! i =
       Some {| value := v; waiters := filter (blocked v) (waiters x); pid := p |}) ∧
  (∀ reader, checkPerms s' reader readMask = true →
     GetValAll s' reader = (Some vals, None)).
Proof.
  intros Hty H. unfold SetValAll in H.
  destruct (bool_decide (Z.of_nat (length vals) = Size s)) eqn:Hlen; [|done].
  apply bool_decide_eq_true in Hlen. unfold Size in Hlen. simpl in H.
  destruct (valsInRange vals) eqn:Hok; [|done]. simpl in H.
  fold writeMask in H. destruct (checkPerms s creds writeMask) eqn:Hperm; [|done].
  simpl in H. apply exec_bind_Done in H as ([s2 h2] & Hall & H). injection H as <- <-.
  apply setAll_full in Hall as (Hl & Hset & _ & Hin).
  pose proof (valsInRange_Forall _ Hty Hok) as Hrng.
  assert (Hsem : ∀ i v x, vals !! i = Some v → sems s !! i = Some x →
            sems s2 !! i =
              Some {| value := v; waiters := filter (blocked v) (waiters x); pid := p |}).
  { intros i v x Hv Hx. destruct (Hin i v Hv) as (y & Hy & Hy').
    simpl in Hy, Hy'. rewrite Hx in Hy. injection Hy as <-.
    rewrite Forall_forall in Hrng.
    assert (Hv' : 0 ≤ v ≤ valueMax) by (apply Hrng; by eapply list_elem_of_lookup_2).
    rewrite int16_small in Hy'; [done|].
    unfold is_int16, valueMax, SEMVMX in *. lia. }
  split; [lia|]. split; [done|]. split; [done|]. split; [done|]. split.
  { clear -Hset. destruct s, s2. unfold set_sems, set_changeTime in *.
    simpl in *. congruence. }
  split; [exact Hsem|].
  intros reader Hr. unfold GetValAll. fold readMask. rewrite Hr. simpl.
  do 2 f_equal. apply list_eq. intros i.
  change (map ?f ?l) with (f <$> l). rewrite list_lookup_fmap.
  destruct (vals !! i) as [v|] eqn:Hv.
  - destruct (lookup_lt_is_Some_2 (sems s) i) as [x Hx].
    { apply lookup_lt_Some in Hv. lia. }
    rewrite (Hsem i v x Hv Hx). simpl. f_equal.
    rewrite Forall_forall in Hrng.
    assert (Hv' : 0 ≤ v ≤ valueMax) by (apply Hrng; by eapply list_elem_of_lookup_2).
    unfold uint16, valueMax, SEMVMX in *. apply Z.mod_small. lia.
  - apply lookup_ge_None in Hv. rewrite lookup_ge_None_2; [done|]. lia.
Qed.

(** X10: [SetValAll] is all or nothing.  With as many values as the set has
    semaphores, an error leaves the set and the channels as they were:
    [ERANGE] as soon as one value exceeds [valueMax] (before the
    permission check), else [EACCES] without write permission.  With any
    other number of values the call panics. *)
Theorem SetValAll_errors (ctx : Context) (s : Set_) (h : heap)
    (vals : list Z) (creds : Credentials) (p : Z) :
  (length vals ≠ length (sems s) → SetValAll ctx s h vals creds p = Panic)
  ∧ (∀ s' h' e,
       SetValAll ctx s h vals creds p = Done (s', h', Some e) →
       s' = s ∧ h' = h ∧
       ((e = ERANGE ∧ Exists (λ v, v > valueMax) vals) ∨
        (e = EACCES ∧ Forall (λ v, ¬ v > valueMax) vals ∧
         checkPerms s creds writeMask = false))).
Proof.
  unfold SetValAll. fold writeMask. split.
  - intros Hlen. rewrite bool_decide_eq_false_2; [done|]. unfold Size. lia.
  - intros s' h' e H.
    destruct (bool_decide (Z.of_nat (length vals) = Size s)); [|done]. simpl in H.
    destruct (valsInRange vals) eqn:Hok; simpl in H.
    2:{ injection H as <- <- <-. split; [done|]. split; [done|]. left.
        split; [done|]. by apply valsInRange_false. }
    destruct (checkPerms s creds writeMask) eqn:Hperm; simpl in H.
    + apply exec_bind_Done in H as ([s2 h2] & _ & H). done.
    + injection H as <- <- <-. split; [done|]. split; [done|]. right.
      split; [done|]. split; [|done].
      unfold valsInRange in Hok. rewrite forallb_forall in Hok.
      rewrite Forall_forall. intros v Hv.
      specialize (Hok v (proj1 (list_elem_of_In _ _) Hv)).
      by apply negb_true_iff, bool_decide_eq_false in Hok.
Qed.

(** ** Permissions of a batch *)




(** ** The descriptor *)

(** X12: [GetStatAny] never refuses a caller and [GetStat] refuses the
    callers without read permission only, with [EACCES]; a caller that
    [GetStat] serves gets the descriptor of [GetStatAny]. *)
Theorem GetStat_GetStatAny (MapFromKUID MapFromKGID : Credentials → Z → Z)
    (LinuxMode : FilePermissions → Z) (TimeT : Z → Z)
    (s : Set_) (creds : Credentials) :
  ∃ d,
    GetStatAny MapFromKUID MapFromKGID LinuxMode TimeT s creds = (Some d, None) ∧
    PermKey (SemPerm d) = uint32 (key s) ∧
    SemNSems d = uint64 (Size s) ∧
    GetStat MapFromKUID MapFromKGID LinuxMode TimeT s creds =
      if checkPerms s creds readMask then (Some d, None) else (None, Some EACCES).
Proof.
  unfold GetStatAny, GetStat, semStat.
  assert (Hany : checkPerms s creds
            {| Read := false; Write := false; Execute := false |} = true).
  { unfold checkPerms, SupersetOf. simpl.
    by repeat case_match. }
  rewrite Hany. cbn [negb]. eexists. split; [done|].
  split; [done|]. split; [done|].
  unfold readMask.
  by destruct (checkPerms s creds {| Read := true; Write := false; Execute := false |}).
Qed.

(** ** What never changes *)

Lemma same_identity_refl (s : Set_) : same_identity s s.
Proof. by repeat split. Qed.

Lemma same_identity_trans (s1 s2 s3 : Set_) :
  same_identity s1 s2 → same_identity s2 s3 → same_identity s1 s3.
Proof.
  intros (?&?&?&?&?) (?&?&?&?&?). repeat split; congruence.
Qed.

Lemma same_identity_store (s : Set_) (i : nat) (x : sem) :
  same_identity s (store_sem s i x).
Proof.
  unfold same_identity, store_sem, Size. simpl.
  by rewrite length_insert.
Qed.

Lemma same_identity_sems (s s' : Set_) :
  length (sems s') = length (sems s) → set_sems (sems s) s' = s →
  same_identity s s'.
Proof.
  intros Hlen Hset. unfold same_identity, Size. rewrite Hlen.
  clear Hlen. destruct s, s'. unfold set_sems in Hset. simpl in *.
  injection Hset as -> -> -> -> _ _ _ _ _. done.
Qed.

Lemma setAll_identity (p : Z) (vals : list Z) :
  ∀ (i : nat) (s s' : Set_) (h h' : heap),
  setAll s h p i vals = Done (s', h') → same_identity s s'.
Proof.
  induction vals as [|v rest IH]; intros i s s' h h' H; simpl in H.
  - injection H as <- <-. apply same_identity_refl.
  - apply exec_bind_Done in H as (x & _ & H).
    apply exec_bind_Done in H as ([x' h1] & _ & H).
    apply IH in H. eapply same_identity_trans; [|exact H].
    apply same_identity_store.
Qed.

Lemma ExecuteOps_identity (ctx : Context) (s s' : Set_) (h h' : heap)
    (ops : list Sembuf) (creds : Credentials) (p : Z) (ret : ops_ret) :
  ExecuteOps ctx s h ops creds p = Done (s', h', ret) → same_identity s s'.
Proof.
  unfold ExecuteOps. intros H.
  destruct (dead s); [injection H as <- _ _; apply same_identity_refl|].
  destruct (validateOps s ops true) as [e|ro];
    [injection H as <- _ _; apply same_identity_refl|].
  destruct (negb (checkPerms _ _ _));
    [injection H as <- _ _; apply same_identity_refl|].
  apply exec_bind_Done in H as ([[s1 h1] [[ch num] err]] & Hex & H).
  assert (s' = s1) as -> by (destruct err; by injection H as <- _ _).
  clear H. unfold executeOps in Hex.
  apply executeOps_loop_Done in Hex
    as [(-> & _)|[(op & _ & _ & Henq)|(tmp & s2 & _ & Happ & -> & _)]].
  - apply same_identity_refl.
  - apply enqueue_Done in Henq as (x & _ & _ & -> & _).
    apply same_identity_store.
  - apply applyVals_Done in Happ as (Hlen & Hset & _).
    pose proof (same_identity_sems _ _ Hlen Hset) as Hid.
    eapply same_identity_trans; [exact Hid|]. by repeat split.
Qed.

Lemma step_identity (c : call) (s s' : Set_) (h h' : heap) :
  step c (s, h) = Done (s', h') → same_identity s s'.
Proof.
  intros H. destruct c; simpl in H.
  - apply exec_bind_Done in H as ([[s1 h1] e] & H & [= <- <-]).
    by apply ExecuteOps_identity in H.
  - apply exec_bind_Done in H as ([[s1 h1] e] & H & [= <- <-]).
    unfold SetVal in H.
    destruct (_ || _); [injection H as <- _ _; apply same_identity_refl|].
    destruct (negb _); [injection H as <- _ _; apply same_identity_refl|].
    destruct (findSem s num); [|injection H as <- _ _; apply same_identity_refl].
    apply exec_bind_Done in H as ([x' h2] & _ & H). injection H as <- _ _.
    unfold same_identity, Size. simpl. by rewrite !length_insert.
  - apply exec_bind_Done in H as ([[s1 h1] e] & H & [= <- <-]).
    unfold SetValAll in H. destruct (negb _); [done|].
    destruct (negb _); [injection H as <- _ _; apply same_identity_refl|].
    destruct (negb _); [injection H as <- _ _; apply same_identity_refl|].
    apply exec_bind_Done in H as ([s2 h2] & Hall & H). injection H as <- _ _.
    apply setAll_identity in Hall.
    eapply same_identity_trans; [exact Hall|]. by repeat split.
  - injection H as <- _. unfold Change.
    destruct (_ && _); simpl; [apply same_identity_refl|by repeat split].
  - apply exec_bind_Done in H as (s1 & H & [= <- <-]).
    unfold AbortWait in H. apply exec_bind_Done in H as (x & _ & H).
    injection H as <-. apply same_identity_store.
  - injection H as <- _. apply same_identity_refl.
  - unfold destroy in H. apply exec_bind_Done in H as (h1 & _ & H).
    injection H as <- _. by repeat split.
Qed.

Lemma run_identity (cs : list call) :
  ∀ s s' h h', run cs (s, h) = Done (s', h') → same_identity s s'.
Proof.
  induction cs as [|c rest IH]; intros s s' h h' H; simpl in H.
  - injection H as <- _. apply same_identity_refl.
  - apply exec_bind_Done in H as ([s1 h1] & Hstep & H).
    apply step_identity in Hstep. apply IH in H.
    by eapply same_identity_trans.
Qed.

(** X13: whatever is called on a set, in any order and by anyone
    (operations, [SetVal], [SetValAll], [Change], [AbortWait], removal),
    the set keeps its registry, id, key, creator and number of
    semaphores.  So a caller whose effective user or group is the
    creator's can always [Change] the set, whoever owns it by then: the
    call installs the owner and the permissions it is given, stamps the
    change time and leaves the semaphores as they are. *)
Theorem creator_keeps_control (cs : list call) (s s' : Set_) (h h' : heap)
    (ctx : Context) (creds : Credentials) (o : FileOwner) (p : FilePermissions) :
  run cs (s, h) = Done (s', h') →
  EffectiveKUID creds = UID (creator s) ∨ EffectiveKGID creds = GID (creator s) →
  same_identity s s' ∧
  ∃ s'',
    Change ctx s' creds o p = (s'', None) ∧
    owner s'' = o ∧ perms s'' = p ∧ changeTime s'' = NowFromContext ctx ∧
    sems s'' = sems s' ∧ opTime s'' = opTime s' ∧ dead s'' = dead s' ∧
    same_identity s s''.
Proof.
  intros Hrun Hcr. pose proof (run_identity _ _ _ _ _ Hrun) as Hid.
  split; [done|]. destruct Hid as (Hr & Hi & Hk & Hc & Hn).
  assert (Hcheck : checkCredentials s' creds = true).
  { unfold checkCredentials. rewrite Hc.
    destruct Hcr as [-> | ->].
    - rewrite (bool_decide_eq_true_2 (UID (creator s) = UID (creator s))) by done.
      by rewrite orb_true_r.
    - rewrite (bool_decide_eq_true_2 (GID (creator s) = GID (creator s))) by done.
      by rewrite orb_true_r. }
  unfold Change. rewrite Hcheck. simpl. eexists. split; [done|].
  simpl. repeat split; done.
Qed.

(** ** Counting *)

Lemma totalSems_insert (m : gmap Z Set_) (id : Z) (s : Set_) :
  m !! id = None →
  map_fold (λ _ v total, total + Size v) 0 (<[id := s]> m)
  = map_fold (λ _ v total, total + Size v) 0 m + Size s.
Proof.
  intros Hid. rewrite map_fold_insert_L; [done| |done].
  intros. lia.
Qed.

Lemma totalSems_delete (m : gmap Z Set_) (id : Z) (s : Set_) :
  m !! id = Some s →
  map_fold (λ _ v total, total + Size v) 0 m
  = map_fold (λ _ v total, total + Size v) 0 (delete id m) + Size s.
Proof.
  intros Hid. rewrite (map_fold_delete_L _ _ id s m); [done| |done].
  intros. lia.
Qed.

(** A map that holds every key of an interval has at least as many
    entries as the interval has keys. *)
Lemma occupied_size {V} (m : gmap Z V) (start : Z) (k : nat) :
  (∀ j, start ≤ j < start + Z.of_nat k → is_Some (m !! j)) →
  (k ≤ size m)%nat.
Proof.
  intros Hocc.
  assert (Hsub : (list_to_set (seqZ start (Z.of_nat k)) : gset Z) ⊆ dom m).
  { intros j Hj. apply elem_of_list_to_set, elem_of_seqZ in Hj.
    apply elem_of_dom. by apply Hocc. }
  apply subseteq_size in Hsub.
  rewrite size_list_to_set in Hsub by apply NoDup_seqZ.
  rewrite length_seqZ, size_dom in Hsub. lia.
Qed.

(** The first free key of an interval, when there is one. *)
Lemma first_free_or_full {V} (m : gmap Z V) (k : nat) :
  ∀ start,
  (∃ id, start ≤ id < start + Z.of_nat k ∧ m !! id = None ∧
         ∀ j, start ≤ j < id → is_Some (m !! j))
  ∨ (∀ j, start ≤ j < start + Z.of_nat k → is_Some (m !! j)).
Proof.
  induction k as [|k IH]; intros start.
  - right. intros j Hj. lia.
  - destruct (m !! start) as [v|] eqn:Hs.
    + destruct (IH (start + 1)) as [(id & Hid & Hfree & Hocc)|Hfull].
      * left. exists id. split; [lia|]. split; [done|].
        intros j Hj. destruct (decide (j = start)) as [->|Hne]; [by eexists|].
        apply Hocc. lia.
      * right. intros j Hj.
        destruct (decide (j = start)) as [->|Hne]; [by eexists|].
        apply Hfull. lia.
    + left. exists start. split; [lia|]. split; [done|]. intros j Hj. lia.
Qed.

Lemma first_free {V} (m : gmap Z V) (k : nat) (start : Z) :
  (size m < k)%nat →
  ∃ id, start ≤ id < start + Z.of_nat k ∧ m !! id = None ∧
        ∀ j, start ≤ j < id → is_Some (m !! j).
Proof.
  intros Hsize. destruct (first_free_or_full m k start) as [H|Hfull]; [done|].
  apply occupied_size in Hfull. lia.
Qed.

(** ** The invariant *)

Lemma reg_ok_new (ns : Z) : reg_ok (NewRegistry ns).
Proof.
  unfold reg_ok, NewRegistry, totalSems. simpl.
  rewrite map_fold_empty, !map_size_empty.
  split; [lia|]. split; [done|]. split; [done|]. split; [done|].
  split; [intros id s H; by rewrite lookup_empty in H|].
  split; [intros i id H; by rewrite lookup_empty in H|].
  split; [intros id [s H]; by rewrite lookup_empty in H|].
  intros i j id H. by rewrite lookup_empty in H.
Qed.

Lemma reg_ok_insert (r : Registry) (id index' : Z) (set : Set_) :
  reg_ok r →
  1 ≤ id ≤ 2147483647 → semaphores r !! id = None →
  0 ≤ index' < setsMax → indexes r !! index' = None →
  ID set = id → dead set = false → 0 < Size set ≤ semsMax →
  Z.of_nat (size (semaphores r)) < setsMax →
  totalSems r + Size set ≤ semsTotalMax →
  reg_ok {| userNS := userNS r; semaphores := <[id := set]> (semaphores r);
            lastIDUsed := id; indexes := <[index' := id]> (indexes r) |}.
Proof.
  intros (HL & Hsz & Hmax & Htot & Hsets & Hidx & Hsur & Hinj)
    Hid Hfree Hi Hifree HID Hdead Hsize Hroom Hsems.
  unfold reg_ok, totalSems. simpl.
  rewrite totalSems_insert by done.
  rewrite !map_size_insert_None by done.
  split; [lia|]. split; [by rewrite Hsz|]. split; [lia|].
  split; [exact Hsems|].
  split; [|split; [|split]].
  - intros id' s Hs. apply lookup_insert_Some in Hs as [[<- <-]|[Hne Hs]].
    + repeat split; try done; lia.
    + by apply Hsets.
  - intros i id' Hi'. apply lookup_insert_Some in Hi' as [[<- <-]|[Hne Hi']].
    + split; [done|]. rewrite lookup_insert_eq. by eexists.
    + destruct (Hidx _ _ Hi') as (Hr & Hs). split; [done|].
      rewrite lookup_insert_is_Some. right. split; [|done].
      intros <-. rewrite Hfree in Hs. by destruct Hs.
  - intros id' Hs. apply lookup_insert_is_Some in Hs as [<-|[Hne Hs]].
    + exists index'. by rewrite lookup_insert_eq.
    + destruct (Hsur _ Hs) as (i & Hi'). exists i.
      rewrite lookup_insert_ne; [done|]. intros <-. congruence.
  - intros i j id' H1 H2.
    apply lookup_insert_Some in H1 as [[<- Heq1]|[Hne1 H1]];
      apply lookup_insert_Some in H2 as [[<- Heq2]|[Hne2 H2]]; try done.
    + subst id'. destruct (Hidx _ _ H2) as (_ & Hs).
      rewrite Hfree in Hs. by destruct Hs.
    + subst id'. destruct (Hidx _ _ H1) as (_ & Hs).
      rewrite Hfree in Hs. by destruct Hs.
    + by eapply Hinj.
Qed.

Lemma reg_ok_delete (r : Registry) (id index' : Z) (set : Set_) :
  reg_ok r →
  semaphores r !! id = Some set → indexes r !! index' = Some id →
  reg_ok {| userNS := userNS r; semaphores := delete id (semaphores r);
            lastIDUsed := lastIDUsed r; indexes := delete index' (indexes r) |}.
Proof.
  intros (HL & Hsz & Hmax & Htot & Hsets & Hidx & Hsur & Hinj) Hs Hi.
  unfold reg_ok, totalSems in *. simpl.
  rewrite (totalSems_delete _ _ _ Hs) in Htot.
  rewrite !map_size_delete_Some by (by eexists).
  split; [lia|]. split; [by rewrite Hsz|]. split; [lia|].
  split; [unfold Size in *; lia|].
  split; [|split; [|split]].
  - intros id' s Hs'. apply lookup_delete_Some in Hs' as [Hne Hs'].
    by apply Hsets.
  - intros i id' Hi'. apply lookup_delete_Some in Hi' as [Hne Hi'].
    destruct (Hidx _ _ Hi') as (Hr & Hs'). split; [done|].
    rewrite lookup_delete_is_Some. split; [|done].
    intros <-. apply Hne. by eapply Hinj.
  - intros id' Hs'. apply lookup_delete_is_Some in Hs' as [Hne Hs'].
    destruct (Hsur _ Hs') as (i & Hi'). exists i.
    rewrite lookup_delete_ne; [done|]. intros <-. congruence.
  - intros i j id' H1 H2.
    apply lookup_delete_Some in H1 as [_ H1].
    apply lookup_delete_Some in H2 as [_ H2]. by eapply Hinj.
Qed.

(** ** The two searches of [newSet] *)

Lemma firstAvailable_first (idx : gmap Z Z) (n : nat) :
  ∀ (i0 i : Z),
  i0 ≤ i < i0 + Z.of_nat n → -2147483648 ≤ i0 → i ≤ 2147483647 →
  idx !! i = None → (∀ j, i0 ≤ j < i → is_Some (idx !! j)) →
  firstAvailable idx n i0 = Some i.
Proof.
  induction n as [|n IH]; intros i0 i Hi Hlo Hmax Hfree Hocc; [lia|].
  simpl. destruct (idx !! i0) as [v|] eqn:H0.
  - assert (i ≠ i0) by (intros ->; congruence).
    rewrite int32_small by (unfold is_int32; lia).
    apply IH; try lia; [done|]. intros j Hj. apply Hocc. lia.
  - destruct (decide (i = i0)) as [->|Hne]; [done|].
    destruct (Hocc i0) as [v Hv]; [lia|]. congruence.
Qed.

Lemma findFirstAvailableIndex_is_Some (r : Registry) :
  Z.of_nat (size (indexes r)) < setsMax →
  ∃ i, findFirstAvailableIndex r = Some i.
Proof.
  intros Hsize.
  destruct (first_free (indexes r) (Z.to_nat setsMax) 0) as (i & Hi & Hfree & Hocc).
  { unfold setsMax, SEMMNI in *. lia. }
  exists i. unfold findFirstAvailableIndex.
  apply firstAvailable_first; try done; unfold setsMax, SEMMNI in *; lia.
Qed.

Lemma newSet_loop_S (fuel : nat) (r : Registry) (set : Set_) (id : Z) :
  newSet_loop (S fuel) r set id =
    if bool_decide (id ≠ lastIDUsed r) then
      if bool_decide (id < 0) then newSet_loop fuel r set (int32 (0 + 1))
      else
        match semaphores r !! id with
        | None =>
            match findFirstAvailableIndex r with
            | None => Panic
            | Some index' =>
                let set := set_ID id set in
                Done ({| userNS := userNS r;
                         semaphores := <[id := set]> (semaphores r);
                         lastIDUsed := id;
                         indexes := <[index' := id]> (indexes r) |},
                      (Some set, None))
            end
        | Some _ => newSet_loop fuel r set (int32 (id + 1))
        end
    else Done (r, (None, Some ENOMEM)).
Proof. reflexivity. Qed.

(** The loop walks over the ids in use. *)
Lemma newSet_loop_up (r : Registry) (set : Set_) (fuel : nat) (k : nat) :
  ∀ id,
  0 ≤ id ≤ 2147483647 → id + Z.of_nat k ≤ 2147483648 →
  (∀ j, id ≤ j < id + Z.of_nat k →
        j ≠ lastIDUsed r ∧ is_Some (semaphores r !! j)) →
  newSet_loop (k + fuel) r set id = newSet_loop fuel r set (int32 (id + Z.of_nat k)).
Proof.
  induction k as [|k IH]; intros id Hid Hk Hocc.
  - rewrite Z.add_0_r. rewrite int32_small by (unfold is_int32; lia). done.
  - change (S k + fuel)%nat with (S (k + fuel)). rewrite newSet_loop_S.
    destruct (Hocc id) as (Hne & v & Hv); [lia|].
    rewrite bool_decide_eq_true_2 by done.
    rewrite bool_decide_eq_false_2 by lia. rewrite Hv.
    destruct (decide (id = 2147483647)) as [->|Hlt].
    + assert (k = 0%nat) as -> by lia. done.
    + rewrite int32_small by (unfold is_int32; lia).
      rewrite IH; [|lia|lia|intros j Hj; apply Hocc; lia].
      do 2 f_equal. lia.
Qed.

(** ... and stops at the first one that is free. *)
Lemma newSet_loop_free (r : Registry) (set : Set_) (fuel : nat) (id index' : Z) :
  0 ≤ id → id ≠ lastIDUsed r → semaphores r !! id = None →
  findFirstAvailableIndex r = Some index' →
  newSet_loop (S fuel) r set id =
    Done ({| userNS := userNS r;
             semaphores := <[id := set_ID id set]> (semaphores r);
             lastIDUsed := id;
             indexes := <[index' := id]> (indexes r) |},
          (Some (set_ID id set), None)).
Proof.
  intros Hid Hne Hfree Hidx. rewrite newSet_loop_S.
  rewrite bool_decide_eq_true_2 by done.
  rewrite bool_decide_eq_false_2 by lia. by rewrite Hfree, Hidx.
Qed.

(** The search from [start] on, when no id of the next [size + 1] is
    [lastIDUsed]. *)
Lemma newSet_loop_search (r : Registry) (set : Set_) (start index' : Z) :
  0 ≤ start → start + Z.of_nat (size (semaphores r)) ≤ 2147483647 →
  (∀ j, start ≤ j ≤ start + Z.of_nat (size (semaphores r)) → j ≠ lastIDUsed r) →
  findFirstAvailableIndex r = Some index' →
  ∃ id k,
    start ≤ id ≤ start + Z.of_nat (size (semaphores r)) ∧
    semaphores r !! id = None ∧
    (∀ j, start ≤ j < id → is_Some (semaphores r !! j)) ∧
    ∀ fuel,
      newSet_loop (k + S fuel) r set start =
        Done ({| userNS := userNS r;
                 semaphores := <[id := set_ID id set]> (semaphores r);
                 lastIDUsed := id;
                 indexes := <[index' := id]> (indexes r) |},
              (Some (set_ID id set), None)).
Proof.
  intros Hstart Hmax HL Hidx.
  destruct (first_free (semaphores r) (S (size (semaphores r))) start)
    as (id & Hid & Hfree & Hocc); [lia|].
  exists id, (Z.to_nat (id - start)). split; [lia|]. split; [done|].
  split; [done|]. intros fuel.
  rewrite newSet_loop_up; [|lia|lia|].
  - rewrite Z2Nat.id by lia. replace (start + (id - start)) with id by lia.
    rewrite int32_small by (unfold is_int32; lia).
    apply newSet_loop_free; try done; [lia|apply HL; lia].
  - intros j Hj. split; [apply HL; lia|apply Hocc; lia].
Qed.

(** What the loop returns, when it returns. *)
Lemma newSet_loop_result (r : Registry) (set : Set_) (fuel : nat) :
  ∀ (id : Z) (r' : Registry) (ret : option Set_ * option errno),
  1 ≤ id ≤ 2147483647 ∨ -2147483648 ≤ id < 0 →
  newSet_loop fuel r set id = Done (r', ret) →
  (r' = r ∧ ret = (None, Some ENOMEM))
  ∨ (∃ id' index',
       1 ≤ id' ≤ 2147483647 ∧ semaphores r !! id' = None ∧
       findFirstAvailableIndex r = Some index' ∧
       r' = {| userNS := userNS r;
               semaphores := <[id' := set_ID id' set]> (semaphores r);
               lastIDUsed := id';
               indexes := <[index' := id']> (indexes r) |} ∧
       ret = (Some (set_ID id' set), None)).
Proof.
  induction fuel as [|fuel IH]; intros id r' ret Hid H; [done|].
  rewrite newSet_loop_S in H.
  destruct (bool_decide (id ≠ lastIDUsed r)).
  2:{ injection H as <- <-. by left. }
  case_bool_decide as Hneg.
  { apply IH in H; [done|]. left. vm_compute. split; intros [=]. }
  destruct (semaphores r !! id) eqn:Hfree.
  { apply IH in H; [done|].
    destruct (decide (id = 2147483647)) as [->|Hlt].
    - right. vm_compute. split; [intros [=]|done].
    - left. rewrite int32_small by (unfold is_int32; lia). lia. }
  destruct (findFirstAvailableIndex r) as [index'|] eqn:Hidx; [|done].
  injection H as <- <-. right. exists id, index'.
  split; [lia|]. done.
Qed.

(** With room for one more set the loop finds an id, whatever
    [lastIDUsed] is. *)
Lemma newSet_loop_finds (r : Registry) (set : Set_) :
  reg_ok r → Z.of_nat (size (semaphores r)) < setsMax →
  ∃ fuel0 id index',
    1 ≤ id ≤ 2147483647 ∧ semaphores r !! id = None ∧
    findFirstAvailableIndex r = Some index' ∧
    ∀ fuel, (fuel0 ≤ fuel)%nat →
      newSet_loop fuel r set (int32 (lastIDUsed r + 1)) =
        Done ({| userNS := userNS r;
                 semaphores := <[id := set_ID id set]> (semaphores r);
                 lastIDUsed := id;
                 indexes := <[index' := id]> (indexes r) |},
              (Some (set_ID id set), None)).
Proof.
  intros (HL & Hsz & _) Hroom.
  destruct (findFirstAvailableIndex_is_Some r) as (index' & Hidx); [lia|].
  unfold setsMax, SEMMNI in Hroom.
  destruct (decide (lastIDUsed r + 1 + Z.of_nat (size (semaphores r)) ≤ 2147483647))
    as [Hfit|Hwrap].
  - destruct (newSet_loop_search r set (lastIDUsed r + 1) index')
      as (id & k & Hid & Hfree & _ & Hloop); [lia|lia|intros j Hj; lia|done|].
    exists (k + 1)%nat, id, index'. split; [lia|]. split; [done|]. split; [done|].
    intros fuel Hfuel. rewrite int32_small by (unfold is_int32; lia).
    replace fuel with (k + S (fuel - k - 1))%nat by lia. apply Hloop.
  - destruct (first_free_or_full (semaphores r)
                (Z.to_nat (2147483647 - lastIDUsed r)) (lastIDUsed r + 1))
      as [(id & Hid & Hfree & Hocc)|Hfull].
    + exists (Z.to_nat (id - (lastIDUsed r + 1)) + 1)%nat, id, index'.
      split; [lia|]. split; [done|]. split; [done|].
      intros fuel Hfuel. rewrite int32_small by (unfold is_int32; lia).
      replace fuel with
        (Z.to_nat (id - (lastIDUsed r + 1))
         + S (fuel - Z.to_nat (id - (lastIDUsed r + 1)) - 1))%nat by lia.
      rewrite newSet_loop_up; [|lia|lia|].
      * rewrite Z2Nat.id by lia.
        replace (lastIDUsed r + 1 + (id - (lastIDUsed r + 1))) with id by lia.
        rewrite int32_small by (unfold is_int32; lia).
        apply newSet_loop_free; try done; lia.
      * intros j Hj. split; [lia|]. apply Hocc. lia.
    + destruct (newSet_loop_search r set 1 index')
        as (id & k & Hid & Hfree & _ & Hloop); [lia|lia|intros j Hj; lia|done|].
      assert (Hup : ∀ fuel,
                newSet_loop (Z.to_nat (2147483647 - lastIDUsed r) + fuel) r set
                  (int32 (lastIDUsed r + 1))
                = newSet_loop fuel r set (-2147483648)).
      { intros fuel. destruct (decide (lastIDUsed r = 2147483647)) as [->|Hlt].
        - done.
        - rewrite int32_small by (unfold is_int32; lia).
          rewrite newSet_loop_up; [|lia|lia|].
          + rewrite Z2Nat.id by lia.
            by replace (lastIDUsed r + 1 + (2147483647 - lastIDUsed r))
              with 2147483648 by lia.
          + intros j Hj. split; [lia|]. apply Hfull. lia. }
      exists (Z.to_nat (2147483647 - lastIDUsed r) + S (k + 1))%nat, id, index'.
      split; [lia|]. split; [done|]. split; [done|].
      intros fuel Hfuel.
      replace fuel with
        (Z.to_nat (2147483647 - lastIDUsed r)
         + S (k + S (fuel - Z.to_nat (2147483647 - lastIDUsed r) - k - 2)))%nat by lia.
      rewrite Hup, newSet_loop_S.
      rewrite bool_decide_eq_true_2 by lia.
      rewrite bool_decide_eq_true_2 by lia.
      change (int32 (0 + 1)) with 1. apply Hloop.
Qed.

(** ** Lookups *)

Lemma findIndexByID_Some (range : list (Z * Z)) (id i : Z) :
  findIndexByID range id = Some i → (i, id) ∈ range.
Proof.
  induction range as [|[k v] rest IH]; simpl; [done|].
  case_bool_decide as Hv.
  - intros [= <-]. subst v. apply elem_of_cons. by left.
  - intros H. apply elem_of_cons. right. by apply IH.
Qed.

Lemma findIndexByID_None (range : list (Z * Z)) (id : Z) :
  findIndexByID range id = None → ∀ i, (i, id) ∉ range.
Proof.
  induction range as [|[k v] rest IH]; simpl; intros H i Hin.
  - by apply elem_of_nil in Hin.
  - case_bool_decide as Hv; [done|].
    apply elem_of_cons in Hin as [[= -> ->]|Hin]; [done|]. by eapply IH.
Qed.

Lemma findIndexByID_registered (range : list (Z * Z)) (r : Registry) (id : Z) :
  reg_ok r → range_of (indexes r) range → is_Some (semaphores r !! id) →
  ∃ i, findIndexByID range id = Some i ∧ indexes r !! i = Some id.
Proof.
  intros (_ & _ & _ & _ & _ & _ & Hsur & _) Hrange Hs.
  destruct (Hsur _ Hs) as (i & Hi).
  destruct (findIndexByID range id) as [i'|] eqn:Hfind.
  - exists i'. split; [done|].
    apply findIndexByID_Some in Hfind. by apply (range_of_elem _ _ _ _ Hrange).
  - exfalso. apply (findIndexByID_None _ _ Hfind i).
    by apply (range_of_elem _ _ _ _ Hrange).
Qed.

(** ** Creation *)

Lemma createSet_creates (FilePermsFromMode : Z → FilePermissions)
    (r : Registry) (ctx : Context) (key' nsems mode : Z) :
  reg_ok r →
  0 < nsems ≤ semsMax →
  Z.of_nat (size (semaphores r)) < setsMax →
  totalSems r + nsems ≤ semsTotalMax →
  ∃ fuel0 id index',
    1 ≤ id ≤ 2147483647 ∧ semaphores r !! id = None ∧
    findFirstAvailableIndex r = Some index' ∧
    ∀ fuel, (fuel0 ≤ fuel)%nat →
      createSet FilePermsFromMode fuel r ctx key' nsems mode =
        Done ({| userNS := userNS r;
                 semaphores :=
                   <[id := {| registry := userNS r; ID := id; key := key';
                              creator := FileOwnerFromContext ctx;
                              owner := FileOwnerFromContext ctx;
                              perms := FilePermsFromMode mode; opTime := 0;
                              changeTime := NowFromContext ctx;
                              sems := replicate (Z.to_nat nsems)
                                        {| value := 0; waiters := []; pid := 0 |};
                              dead := false |}]> (semaphores r);
                 lastIDUsed := id;
                 indexes := <[index' := id]> (indexes r) |},
              (Some {| registry := userNS r; ID := id; key := key';
                       creator := FileOwnerFromContext ctx;
                       owner := FileOwnerFromContext ctx;
                       perms := FilePermsFromMode mode; opTime := 0;
                       changeTime := NowFromContext ctx;
                       sems := replicate (Z.to_nat nsems)
                                 {| value := 0; waiters := []; pid := 0 |};
                       dead := false |}, None)).
Proof.
  intros Hok Hn Hroom Htot.
  destruct (newSet_loop_finds r
              {| registry := userNS r; ID := 0; key := key';
                 creator := FileOwnerFromContext ctx;
                 owner := FileOwnerFromContext ctx;
                 perms := FilePermsFromMode mode; opTime := 0;
                 changeTime := NowFromContext ctx;
                 sems := replicate (Z.to_nat nsems)
                           {| value := 0; waiters := []; pid := 0 |};
                 dead := false |} Hok Hroom)
    as (fuel0 & id & index' & Hid & Hfree & Hidx & Hloop).
  exists fuel0, id, index'. split; [done|]. split; [done|]. split; [done|].
  intros fuel Hfuel. unfold createSet.
  rewrite bool_decide_eq_false_2 by lia.
  rewrite bool_decide_eq_false_2 by lia.
  rewrite int32_small
    by (unfold is_int32, semsTotalMax, semsMax, SEMMNS, SEMMNI, SEMMSL in *; lia).
  rewrite bool_decide_eq_false_2 by lia.
  unfold newSet. by rewrite Hloop.
Qed.

(** X15: creation always succeeds when there is room.  On a registry
    that satisfies the invariant, with fewer than [setsMax] sets and room
    for [nsems] more semaphores, [FindOrCreate] for a private set, or
    with [create] for a key no set has, returns a new set, given enough
    fuel for the search of an id: it never reports [ENOMEM] and never
    panics, wherever [lastIDUsed] stands.  The set has an id that was
    not in use and the lowest index that was not, it is found again by
    [FindByID] and [FindByIndex], its owner and creator are the caller,
    its [nsems] semaphores are zero with no waiter, and no other entry
    of the registry changes. *)
Theorem FindOrCreate_creates (PermsFromMode : Z → PermMask)
    (FilePermsFromMode : Z → FilePermissions)
    (range : list (Z * Set_)) (r : Registry) (ctx : Context)
    (key' nsems mode : Z) (private create exclusive : bool) :
  reg_ok r →
  range_of (semaphores r) range →
  0 < nsems ≤ semsMax →
  Z.of_nat (size (semaphores r)) < setsMax →
  totalSems r + nsems ≤ semsTotalMax →
  private = true ∨
    (create = true ∧ ∀ id v, semaphores r !! id = Some v → key v ≠ key') →
  ∃ fuel0 r' set index',
    (∀ fuel, (fuel0 ≤ fuel)%nat →
       FindOrCreate PermsFromMode FilePermsFromMode fuel range r ctx
         key' nsems mode private create exclusive = Done (r', (Some set, None))) ∧
    FindByID r (ID set) = None ∧ FindByID r' (ID set) = Some set ∧
    FindByIndex r index' = None ∧ FindByIndex r' index' = Some set ∧
    (∀ j, 0 ≤ j < index' → is_Some (indexes r !! j)) ∧
    (∀ id, id ≠ ID set → FindByID r' id = FindByID r id) ∧
    (∀ j, j ≠ index' → FindByIndex r' j = FindByIndex r j) ∧
    lastIDUsed r' = ID set ∧
    key set = key' ∧
    owner set = FileOwnerFromContext ctx ∧
    creator set = FileOwnerFromContext ctx ∧
    perms set = FilePermsFromMode mode ∧
    dead set = false ∧
    Size set = nsems ∧
    Forall (λ x, value x = 0 ∧ waiters x = [] ∧ pid x = 0) (sems set) ∧
    size (semaphores r') = S (size (semaphores r)) ∧
    totalSems r' = totalSems r + nsems.
Proof.
  intros Hok Hrange Hn Hroom Htot Hpath.
  destruct (createSet_creates FilePermsFromMode r ctx key' nsems mode
              Hok Hn Hroom Htot)
    as (fuel0 & id & index' & Hid & Hfree & Hidx & Hcreate).
  pose proof Hok as (_ & _ & _ & _ & _ & Hreg & _).
  apply findFirstAvailableIndex_Some in Hidx as (Hi & Hifree & Hlow).
  eexists fuel0, _, _, index'. split; [|simpl; split; [|split; [|split; [|split]]]].
  - intros fuel Hfuel. unfold FindOrCreate.
    rewrite bool_decide_eq_false_2 by lia.
    rewrite bool_decide_eq_false_2 by lia. simpl.
    destruct Hpath as [->|(-> & Hkey)]; simpl.
    + by apply Hcreate.
    + assert (findByKey range key' = None) as ->.
      { apply findByKey_None. intros id' v Hin.
        apply (range_of_elem _ _ _ _ Hrange) in Hin. by eapply Hkey. }
      simpl. destruct private; by apply Hcreate.
  - done.
  - unfold FindByID. simpl. by rewrite lookup_insert_eq.
  - unfold FindByIndex. by rewrite Hifree.
  - unfold FindByIndex. simpl. by rewrite !lookup_insert_eq.
  - split; [done|]. split.
    { intros id' Hne. unfold FindByID. simpl. by rewrite lookup_insert_ne. }
    split.
    { intros j Hne. unfold FindByIndex. simpl. rewrite lookup_insert_ne by done.
      destruct (indexes r !! j) as [id'|] eqn:Hj; [|done].
      rewrite lookup_insert_ne; [done|]. intros <-.
      destruct (Hreg _ _ Hj) as (_ & Hs). rewrite Hfree in Hs. by destruct Hs. }
    do 6 (split; [done|]). split.
    { unfold Size. simpl. rewrite length_replicate. lia. }
    split; [by apply Forall_replicate|].
    split; [exact (map_size_insert_None id _ _ Hfree)|].
    unfold totalSems. simpl. rewrite totalSems_insert by done.
    unfold Size at 2. simpl. rewrite length_replicate. lia.
Qed.

(** ** The invariant holds *)

Lemma createSet_ok (FilePermsFromMode : Z → FilePermissions)
    (fuel : nat) (r r' : Registry) (ctx : Context) (key' nsems mode : Z)
    (ret : option Set_ * option errno) :
  reg_ok r → 0 ≤ nsems ≤ semsMax →
  createSet FilePermsFromMode fuel r ctx key' nsems mode = Done (r', ret) →
  reg_ok r'.
Proof.
  intros Hok Hn H. unfold createSet in H.
  case_bool_decide as Hz; [by injection H as <- _|].
  case_bool_decide as Hroom; [by injection H as <- _|].
  rewrite int32_small in H
    by (unfold is_int32, semsTotalMax, semsMax, SEMMNS, SEMMNI, SEMMSL in *; lia).
  case_bool_decide as Htot; [by injection H as <- _|].
  unfold newSet in H. pose proof Hok as (HL & _).
  apply newSet_loop_result in H
    as [(-> & _)|(id & index' & Hid & Hfree & Hidx & -> & _)]; [done| |].
  - apply findFirstAvailableIndex_Some in Hidx as (Hi & Hifree & _).
    apply reg_ok_insert; try done; try lia.
    + unfold Size. simpl. rewrite length_replicate. lia.
    + unfold Size. simpl. rewrite length_replicate. lia.
  - destruct (decide (lastIDUsed r = 2147483647)) as [->|Hlt].
    + right. vm_compute. split; [intros [=]|done].
    + left. rewrite int32_small by (unfold is_int32; lia). lia.
Qed.

Lemma FindOrCreate_ok (PermsFromMode : Z → PermMask)
    (FilePermsFromMode : Z → FilePermissions) (fuel : nat)
    (range : list (Z * Set_)) (r r' : Registry) (ctx : Context)
    (key' nsems mode : Z) (private create exclusive : bool)
    (ret : option Set_ * option errno) :
  reg_ok r →
  FindOrCreate PermsFromMode FilePermsFromMode fuel range r ctx
    key' nsems mode private create exclusive = Done (r', ret) →
  reg_ok r'.
Proof.
  intros Hok H. unfold FindOrCreate in H.
  destruct (bool_decide (nsems < 0)) eqn:Hneg; [by injection H as <- _|].
  destruct (bool_decide (nsems > semsMax)) eqn:Hbig; [by injection H as <- _|].
  apply bool_decide_eq_false in Hneg, Hbig. simpl in H.
  destruct private; simpl in H.
  { eapply createSet_ok; [done| |done]. lia. }
  destruct (findByKey range key') as [set|].
  - destruct (negb (checkPerms _ _ _)); [by injection H as <- _|].
    destruct (bool_decide (nsems > int32 (Size set))); [by injection H as <- _|].
    destruct (create && exclusive); by injection H as <- _.
  - destruct create; simpl in H; [|by injection H as <- _].
    eapply createSet_ok; [done| |done]. lia.
Qed.

Lemma RemoveID_ok (range : list (Z * Z)) (r r' : Registry) (h h' : heap)
    (id : Z) (creds : Credentials) (gone : option Set_) (err : option errno) :
  reg_ok r → range_of (indexes r) range →
  RemoveID range r h id creds = Done (r', h', gone, err) → reg_ok r'.
Proof.
  intros Hok Hrange H. unfold RemoveID in H.
  destruct (semaphores r !! id) as [set|] eqn:Hs; [|by injection H as <- _ _ _].
  destruct (findIndexByID_registered range r id Hok Hrange) as (i & Hfind & Hi);
    [by eexists|].
  rewrite Hfind in H.
  destruct (negb (checkCredentials set creds) && negb (checkCapability set creds));
    [by injection H as <- _ _ _|].
  apply exec_bind_Done in H as ([set' h1] & _ & H). injection H as <- _ _ _.
  pose proof Hok as (_ & _ & _ & _ & Hsets & _).
  destruct (Hsets _ _ Hs) as (-> & _). by eapply reg_ok_delete.
Qed.

Lemma step_alive (c : call) (s s' : Set_) (h h' : heap) :
  is_destroy c = false → step c (s, h) = Done (s', h') → dead s' = dead s.
Proof.
  intros Hc H. destruct c; simpl in H; [| | | | | |done].
  - apply exec_bind_Done in H as ([[s1 h1] ret] & H & [= <- <-]).
    unfold ExecuteOps in H.
    destruct (dead s) eqn:Hd; [by injection H as <- _ _|].
    destruct (validateOps s ops true) as [e|ro]; [by injection H as <- _ _|].
    destruct (negb (checkPerms _ _ _)); [by injection H as <- _ _|].
    apply exec_bind_Done in H as ([[s2 h2] [[ch num] err]] & Hex & H).
    assert (s1 = s2) as -> by (destruct err; by injection H as <- _ _).
    clear H. unfold executeOps in Hex.
    apply executeOps_loop_Done in Hex
      as [(-> & _)|[(op & _ & _ & Henq)|(tmp & s3 & _ & Happ & -> & _)]].
    + done.
    + by apply enqueue_Done in Henq as (x & _ & _ & -> & _).
    + apply applyVals_Done in Happ as (_ & Hset & _).
      simpl. rewrite <- Hset in Hd. done.
  - apply exec_bind_Done in H as ([[s1 h1] e] & H & [= <- <-]).
    unfold SetVal in H. destruct (_ || _); [by injection H as <- _ _|].
    destruct (negb _); [by injection H as <- _ _|].
    destruct (findSem s num); [|by injection H as <- _ _].
    apply exec_bind_Done in H as ([x' h2] & _ & H). by injection H as <- _ _.
  - apply exec_bind_Done in H as ([[s1 h1] e] & H & [= <- <-]).
    unfold SetValAll in H. destruct (negb _); [done|].
    destruct (negb _); [by injection H as <- _ _|].
    destruct (negb _); [by injection H as <- _ _|].
    apply exec_bind_Done in H as ([s2 h2] & Hall & H). injection H as <- _ _.
    apply setAll_dead in Hall. simpl. congruence.
  - injection H as <- _. unfold Change. by destruct (_ && _).
  - apply exec_bind_Done in H as (s1 & H & [= <- <-]).
    unfold AbortWait in H. apply exec_bind_Done in H as (x & _ & H).
    by injection H as <-.
  - by injection H as <- _.
Qed.

Lemma reg_ok_update (r : Registry) (id : Z) (s s' : Set_) :
  reg_ok r → semaphores r !! id = Some s →
  same_identity s s' → dead s' = dead s →
  reg_ok {| userNS := userNS r; semaphores := <[id := s']> (semaphores r);
            lastIDUsed := lastIDUsed r; indexes := indexes r |}.
Proof.
  intros (HL & Hsz & Hmax & Htot & Hsets & Hidx & Hsur & Hinj) Hs
    (_ & HID & _ & _ & Hsize) Hdead.
  unfold reg_ok, totalSems in *. simpl.
  rewrite <- (insert_delete_eq (semaphores r) id s').
  rewrite totalSems_insert by apply lookup_delete_eq.
  rewrite (totalSems_delete _ _ _ Hs) in Htot.
  rewrite insert_delete_eq.
  rewrite map_size_insert_Some by (by eexists).
  split; [done|]. split; [done|]. split; [done|]. split; [lia|].
  split; [|split; [|split; [|done]]].
  - intros id' s0 Hs0. apply lookup_insert_Some in Hs0 as [[<- <-]|[Hne Hs0]].
    + destruct (Hsets _ _ Hs) as (? & ? & ? & ?).
      repeat split; try congruence; lia.
    + by apply Hsets.
  - intros i id' Hi'. destruct (Hidx _ _ Hi') as (Hr & Hs0). split; [done|].
    rewrite lookup_insert_is_Some'. by right.
  - intros id' Hs0. apply Hsur. apply lookup_insert_is_Some' in Hs0 as [<-|Hs0];
      [by eexists|done].
Qed.

(** X16: the invariant of the registry.  [NewRegistry] establishes it;
    [FindOrCreate] and [RemoveID] keep it, whatever they are given and
    whatever they return; so does any call on a registered set other
    than its removal.  In particular the two maps always have the same
    size, at most [setsMax], and the registered sets never hold more
    than [semsTotalMax] semaphores together. *)
Theorem registry_invariant :
  (∀ ns, reg_ok (NewRegistry ns)) ∧
  (∀ PermsFromMode FilePermsFromMode fuel range r ctx key' nsems mode
     private create exclusive r' ret,
     reg_ok r →
     FindOrCreate PermsFromMode FilePermsFromMode fuel range r ctx
       key' nsems mode private create exclusive = Done (r', ret) →
     reg_ok r') ∧
  (∀ range r h id creds r' h' gone err,
     reg_ok r → range_of (indexes r) range →
     RemoveID range r h id creds = Done (r', h', gone, err) → reg_ok r') ∧
  (∀ r id c h r' h',
     reg_ok r → is_destroy c = false →
     withSet r id (λ s, step c (s, h)) = Done (r', h') → reg_ok r') ∧
  (∀ r, reg_ok r →
     size (indexes r) = size (semaphores r) ∧
     Z.of_nat (size (semaphores r)) ≤ SEMMNI ∧ totalSems r ≤ SEMMNS).
Proof.
  split; [exact reg_ok_new|]. split; [|split; [|split]].
  - intros. by eapply FindOrCreate_ok.
  - intros. by eapply RemoveID_ok.
  - intros r id c h r' h' Hok Hc H. unfold withSet in H.
    destruct (semaphores r !! id) as [s|] eqn:Hs; [|done].
    apply exec_bind_Done in H as ([s' h1] & Hstep & H). injection H as <- _.
    eapply reg_ok_update; [done|done| |].
    + by eapply step_identity.
    + by eapply step_alive.
  - intros r (_ & Hsz & Hmax & Htot & _). done.
Qed.

(** ** Removal from the registry *)

(** X17: [RemoveID] on a registry that satisfies the invariant never
    panics.  An id that is not registered gives [EINVAL]; a caller that
    matches neither the owner nor the creator and holds no capability
    gets [EACCES]; in both cases nothing changes.  Any other caller
    removes the set, provided the queued waiters have distinct empty
    channels: the set comes back dead, neither [FindByID] nor
    [FindByIndex] finds it any more, every other id and index resolves as
    before, [lastIDUsed] stays, and each waiter that was queued on the
    set has one signal in its channel. *)
Theorem RemoveID_spec (range : list (Z * Z)) (r : Registry) (h : heap)
    (id : Z) (creds : Credentials) :
  reg_ok r → range_of (indexes r) range →
  (FindByID r id = None →
     RemoveID range r h id creds = Done (r, h, None, Some EINVAL)) ∧
  (∀ set, FindByID r id = Some set →
     (checkCredentials set creds = false → checkCapability set creds = false →
        RemoveID range r h id creds = Done (r, h, None, Some EACCES)) ∧
     (checkCredentials set creds = true ∨ checkCapability set creds = true →
      quiet (sems set) h →
      ∃ r' h' index',
        RemoveID range r h id creds = Done (r', h', Some (set_dead true set), None) ∧
        FindByIndex r index' = Some set ∧
        FindByID r' id = None ∧ FindByIndex r' index' = None ∧
        (∀ id', id' ≠ id → FindByID r' id' = FindByID r id') ∧
        (∀ j, j ≠ index' → FindByIndex r' j = FindByIndex r j) ∧
        lastIDUsed r' = lastIDUsed r ∧
        size (semaphores r') = pred (size (semaphores r)) ∧
        totalSems r' = totalSems r - Size set ∧
        (∀ c, c ∈ chansOf (queued set) → h' !! c = Some 1%nat) ∧
        (∀ c, c ∉ chansOf (queued set) → h' !! c = h !! c))).
Proof.
  intros Hok Hrange. unfold FindByID, RemoveID. split; [by intros ->|].
  intros set Hs. rewrite Hs.
  destruct (findIndexByID_registered range r id Hok Hrange) as (i & -> & Hi);
    [by eexists|].
  pose proof Hok as (_ & _ & _ & _ & Hsets & Hidx & _ & Hinj).
  destruct (Hsets _ _ Hs) as (HID & _).
  split; [by intros -> ->|].
  intros Hperm Hquiet.
  assert (negb (checkCredentials set creds) && negb (checkCapability set creds)
          = false) as ->.
  { destruct Hperm as [-> | ->]; [done|by rewrite andb_false_r]. }
  unfold destroy.
  destruct (destroyLoop_quiet _ _ Hquiet) as (h' & Hloop & Hsig & Hrest).
  change (sems (set_dead true set)) with (sems set). rewrite Hloop. simpl.
  eexists _, h', i. split; [done|]. rewrite HID. simpl.
  split; [unfold FindByIndex; by rewrite Hi|].
  split; [by rewrite lookup_delete_eq|].
  split; [unfold FindByIndex; simpl; by rewrite lookup_delete_eq|].
  split; [intros id' Hne; by rewrite lookup_delete_ne|].
  split.
  { intros j Hne. unfold FindByIndex. simpl. rewrite lookup_delete_ne by done.
    destruct (indexes r !! j) as [id'|] eqn:Hj; [|done].
    rewrite lookup_delete_ne; [done|]. intros <-. apply Hne. by eapply Hinj. }
  split; [done|].
  split; [apply map_size_delete_Some; by eexists|].
  split; [|done].
  unfold totalSems. simpl. rewrite (totalSems_delete _ _ _ Hs). lia.
Qed.

(** ** Indexes *)

(** X18: [HighestIndex] is never negative, is at least every index in
    use, and is an index in use unless it is 0.  On a registry that
    satisfies the invariant and holds a set it is the largest index in
    use: [FindByIndex] finds a set there and none above. *)
Theorem HighestIndex_spec (r : Registry) :
  0 ≤ HighestIndex r ∧
  (∀ i id, indexes r !! i = Some id → i ≤ HighestIndex r) ∧
  (HighestIndex r = 0 ∨ is_Some (indexes r !! HighestIndex r)) ∧
  (indexes r = ∅ → HighestIndex r = 0) ∧
  (reg_ok r → semaphores r ≠ ∅ →
     is_Some (FindByIndex r (HighestIndex r)) ∧
     ∀ j, HighestIndex r < j → FindByIndex r j = None).
Proof.
  assert (Hfold : 0 ≤ HighestIndex r ∧
    (∀ i id, indexes r !! i = Some id → i ≤ HighestIndex r) ∧
    (HighestIndex r = 0 ∨ is_Some (indexes r !! HighestIndex r))).
  { unfold HighestIndex.
    apply (map_fold_weak_ind
             (λ hi (m : gmap Z Z), 0 ≤ hi ∧
                (∀ i id, m !! i = Some id → i ≤ hi) ∧
                (hi = 0 ∨ is_Some (m !! hi)))).
    - split; [done|]. split; [|by left].
      intros i id H. by rewrite lookup_empty in H.
    - intros i x m hi Hfresh (Hpos & Hmax & Hin).
      case_bool_decide as Hgt.
      + split; [lia|]. split.
        * intros j id Hj. apply lookup_insert_Some in Hj as [[<- _]|[_ Hj]];
            [lia|]. apply Hmax in Hj. lia.
        * right. rewrite lookup_insert_eq. by eexists.
      + split; [done|]. split.
        * intros j id Hj. apply lookup_insert_Some in Hj as [[<- _]|[_ Hj]];
            [lia|]. by eapply Hmax.
        * destruct Hin as [->|Hin]; [by left|]. right.
          rewrite lookup_insert_is_Some'. by right. }
  destruct Hfold as (Hpos & Hmax & Hin).
  split; [done|]. split; [done|]. split; [done|]. split.
  { intros Hempty. unfold HighestIndex. rewrite Hempty. apply map_fold_empty. }
  intros (_ & Hsz & _ & _ & _ & Hidx & Hsur & _) Hne. split.
  - assert (Hsome : is_Some (indexes r !! HighestIndex r)).
    { destruct Hin as [H0|Hin]; [|done].
      apply map_choose in Hne as (id & s & Hs).
      destruct (Hsur id) as (i & Hi); [by eexists|].
      pose proof (Hmax _ _ Hi) as Hle.
      destruct (Hidx _ _ Hi) as (Hr & _).
      assert (i = HighestIndex r) as <- by lia. by eexists. }
    destruct Hsome as (id & Hi). unfold FindByIndex. rewrite Hi.
    by destruct (Hidx _ _ Hi) as (_ & Hs).
  - intros j Hj. unfold FindByIndex.
    destruct (indexes r !! j) as [id|] eqn:Hi; [|done].
    apply Hmax in Hi. lia.
Qed.

(** X19: on a registry that satisfies the invariant the two lookups
    agree.  A set found by index is found by its id, and its index lies
    in [0, setsMax); a set found by id is stored under that id and has
    one index, and only one. *)
Theorem FindByIndex_FindByID (r : Registry) :
  reg_ok r →
  (∀ i s, FindByIndex r i = Some s →
     0 ≤ i < SEMMNI ∧ FindByID r (ID s) = Some s) ∧
  (∀ id s, FindByID r id = Some s →
     ID s = id ∧
     ∃ i, FindByIndex r i = Some s ∧ ∀ j, FindByIndex r j = Some s → j = i).
Proof.
  intros (_ & _ & _ & _ & Hsets & Hidx & Hsur & Hinj).
  unfold FindByIndex, FindByID. split.
  - intros i s H. destruct (indexes r !! i) as [id|] eqn:Hi; [|done].
    destruct (Hidx _ _ Hi) as (Hr & _). split; [done|].
    destruct (Hsets _ _ H) as (-> & _). done.
  - intros id s Hs. destruct (Hsets _ _ Hs) as (HID & _). split; [done|].
    destruct (Hsur id) as (i & Hi); [by eexists|].
    exists i. rewrite Hi. split; [done|].
    intros j Hj. destruct (indexes r !! j) as [id'|] eqn:Hj'; [|done].
    destruct (Hsets _ _ Hj) as (HID' & _).
    assert (id' = id) as -> by congruence. by eapply Hinj.
Qed.

(** ** The readers *)

(** X20: the readers agree.  For a caller with read permission on a set
    whose values lie in [0, valueMax], [GetValAll] returns one value per
    semaphore, and at every index of the set the value that [GetVal]
    returns there; without read permission [GetVal], [GetPID] and
    [GetValAll] all return [EACCES]. *)
Theorem readers_agree (s : Set_) (creds : Credentials) :
  in_range s →
  (checkPerms s creds readMask = true →
     ∃ vals,
       GetValAll s creds = (Some vals, None) ∧
       Z.of_nat (length vals) = Size s ∧
       ∀ num, 0 ≤ num < Size s →
         ∃ v, GetVal s num creds = (v, None) ∧ vals !! Z.to_nat num = Some v) ∧
  (checkPerms s creds readMask = false →
     GetValAll s creds = (None, Some EACCES) ∧
     ∀ num, GetVal s num creds = (0, Some EACCES) ∧
            GetPID s num creds = (0, Some EACCES)).
Proof.
  intros Hrange. unfold GetValAll, GetVal, GetPID. fold readMask. split.
  - intros ->. simpl. eexists. split; [done|].
    split; [by rewrite length_map|].
    intros num Hnum. unfold Size in Hnum.
    destruct (lookup_lt_is_Some_2 (sems s) (Z.to_nat num)) as [x Hx]; [lia|].
    exists (value x). rewrite (proj2 (findSem_Some s num x)) by (split; [lia|done]).
    split; [done|].
    change (map ?f ?l) with (f <$> l). rewrite list_lookup_fmap, Hx. simpl.
    f_equal. unfold in_range in Hrange. rewrite Forall_forall in Hrange.
    assert (Hv : 0 ≤ value x ≤ valueMax)
      by (apply Hrange; by eapply list_elem_of_lookup_2).
    unfold uint16, valueMax, SEMVMX in *. apply Z.mod_small. lia.
  - intros ->. done.
Qed.

(** ** The capability *)

Lemma checkPerms_capability (s : Set_) (creds : Credentials) (m : PermMask) :
  checkCapability s creds = true → checkPerms s creds m = true.
Proof. intros Hcap. unfold checkPerms. rewrite Hcap. by destruct (SupersetOf _ m). Qed.

(** X21: a caller that holds [CAP_IPC_OWNER] in the user namespace of
    the registry, with the owner of the set mapped in its own, is never
    refused: whatever the owner and the permission bits of the set, no
    call returns [EACCES]. *)
Theorem capability_never_refused (s : Set_) (creds : Credentials) :
  checkCapability s creds = true →
  (∀ m, checkPerms s creds m = true) ∧
  (∀ num, snd (GetVal s num creds) ≠ Some EACCES ∧
          snd (GetPID s num creds) ≠ Some EACCES ∧
          snd (CountZeroWaiters s num creds) ≠ Some EACCES ∧
          snd (CountNegativeWaiters s num creds) ≠ Some EACCES) ∧
  snd (GetValAll s creds) ≠ Some EACCES ∧
  (∀ ctx o p, snd (Change ctx s creds o p) = None) ∧
  (∀ ctx h num val p s' h' err,
     SetVal ctx s h num val creds p = Done (s', h', err) → err ≠ Some EACCES) ∧
  (∀ ctx h vals p s' h' err,
     SetValAll ctx s h vals creds p = Done (s', h', err) → err ≠ Some EACCES) ∧
  (∀ ctx h ops p s' h' ch num err,
     ExecuteOps ctx s h ops creds p = Done (s', h', (ch, num, err)) →
     err ≠ Some EACCES).
Proof.
  intros Hcap.
  pose proof (λ m, checkPerms_capability s creds m Hcap) as Hperm.
  split; [done|]. split; [|split; [|split; [|split; [|split]]]].
  - intros num. unfold CountZeroWaiters, CountNegativeWaiters, countWaiters,
      GetVal, GetPID. rewrite !Hperm. simpl.
    by destruct (findSem s num).
  - unfold GetValAll. by rewrite Hperm.
  - intros ctx o p. unfold Change. rewrite Hcap. simpl.
    by rewrite andb_false_r.
  - intros ctx h num val p s' h' err H. unfold SetVal in H.
    rewrite Hperm in H. simpl in H.
    destruct (_ || _); [by injection H as _ _ <-|].
    destruct (findSem s num); [|by injection H as _ _ <-].
    apply exec_bind_Done in H as ([x' h1] & _ & H). by injection H as _ _ <-.
  - intros ctx h vals p s' h' err H. unfold SetValAll in H.
    rewrite Hperm in H. simpl in H.
    destruct (negb _); [done|].
    destruct (negb _); [by injection H as _ _ <-|].
    apply exec_bind_Done in H as ([s2 h2] & _ & H). by injection H as _ _ <-.
  - intros ctx h ops p s' h' ch num err H. unfold ExecuteOps in H.
    destruct (dead s); [by injection H as _ _ _ _ <-|].
    destruct (validateOps s ops true) as [e|ro] eqn:Hval.
    { injection H as _ _ _ _ <-. by apply validateOps_EFBIG in Hval as ->. }
    rewrite Hperm in H. simpl in H.
    apply exec_bind_Done in H as ([[s1 h1] [[ch1 num1] err1]] & Hex & H).
    unfold executeOps in Hex.
    apply executeOps_loop_Done in Hex
      as [(_ & _ & [[= _ _ ->]|[= _ _ ->]])
         |[(op & _ & _ & Henq)|(tmp & s2 & _ & _ & _ & [= _ _ ->])]].
    + by injection H as _ _ _ _ <-.
    + by injection H as _ _ _ _ <-.
    + apply enqueue_Done in Henq as (x & _ & _ & _ & _ & [= _ _ ->]).
      by injection H as _ _ _ _ <-.
    + by injection H as _ _ _ _ <-.
Qed.

(** ** No room *)

(** The registered sets hold at most [semsMax] semaphores each. *)
Lemma totalSems_bound (m : gmap Z Set_) (B : Z) :
  (∀ id v, m !! id = Some v → Size v ≤ B) →
  map_fold (λ _ v total, total + Size v) 0 m ≤ Z.of_nat (size m) * B.
Proof.
  apply (map_fold_weak_ind
           (λ total (m : gmap Z Set_),
              (∀ id v, m !! id = Some v → Size v ≤ B) →
              total ≤ Z.of_nat (size m) * B)).
  - intros _. rewrite map_size_empty. lia.
  - intros i x m' total Hfresh IH Hall.
    rewrite map_size_insert_None by done.
    assert (Hx : Size x ≤ B) by (apply (Hall i); apply lookup_insert_eq).
    assert (Hrest : total ≤ Z.of_nat (size m') * B).
    { apply IH. intros id v Hv. apply (Hall id).
      rewrite lookup_insert_ne; [done|]. intros <-. congruence. }
    lia.
Qed.

(** With room for a set there is room for its semaphores:
    [semsTotalMax] is [setsMax] times [semsMax]. *)
Lemma room_for_sems (r : Registry) (nsems : Z) :
  reg_ok r → nsems ≤ semsMax →
  Z.of_nat (size (semaphores r)) < setsMax →
  totalSems r + nsems ≤ semsTotalMax.
Proof.
  intros (_ & _ & _ & _ & Hsets & _) Hn Hroom.
  assert (Hb : totalSems r ≤ Z.of_nat (size (semaphores r)) * semsMax).
  { apply totalSems_bound. intros id v Hv. by destruct (Hsets _ _ Hv) as (_ & _ & _ & _ & ?). }
  unfold semsTotalMax, semsMax, setsMax, SEMMNS, SEMMNI, SEMMSL in *. nia.
Qed.

(** X23: where [FindOrCreate] has to create a set (private, or [create]
    for a key no set has) on a registry that satisfies the invariant,
    the outcome is decided by [nsems] and by the number of sets alone:
    [EINVAL] for zero semaphores, [ENOSPC] when the registry holds
    [setsMax] sets, both with the registry as it was and whatever the
    fuel; and a new set in every other case.  The test of the total
    against [semsTotalMax] never refuses a creation: with fewer than
    [setsMax] sets of at most [semsMax] semaphores the total stays within
    [semsTotalMax], their product. *)
Theorem FindOrCreate_no_room (PermsFromMode : Z → PermMask)
    (FilePermsFromMode : Z → FilePermissions)
    (range : list (Z * Set_)) (r : Registry) (ctx : Context)
    (key' nsems mode : Z) (private create exclusive : bool) :
  reg_ok r →
  range_of (semaphores r) range →
  0 ≤ nsems ≤ semsMax →
  private = true ∨
    (create = true ∧ ∀ id v, semaphores r !! id = Some v → key v ≠ key') →
  (nsems = 0 →
     ∀ fuel,
       FindOrCreate PermsFromMode FilePermsFromMode fuel range r ctx
         key' nsems mode private create exclusive = Done (r, (None, Some EINVAL))) ∧
  (nsems ≠ 0 → setsMax ≤ Z.of_nat (size (semaphores r)) →
     ∀ fuel,
       FindOrCreate PermsFromMode FilePermsFromMode fuel range r ctx
         key' nsems mode private create exclusive = Done (r, (None, Some ENOSPC))) ∧
  (nsems ≠ 0 → Z.of_nat (size (semaphores r)) < setsMax →
     totalSems r + nsems ≤ semsTotalMax ∧
     ∃ fuel0 r' set,
       ∀ fuel, (fuel0 ≤ fuel)%nat →
         FindOrCreate PermsFromMode FilePermsFromMode fuel range r ctx
           key' nsems mode private create exclusive = Done (r', (Some set, None))).
Proof.
  intros Hok Hrange Hn Hpath.
  assert (Hcreate : ∀ fuel,
            FindOrCreate PermsFromMode FilePermsFromMode fuel range r ctx
              key' nsems mode private create exclusive
            = createSet FilePermsFromMode fuel r ctx key' nsems mode).
  { intros fuel. unfold FindOrCreate.
    rewrite bool_decide_eq_false_2 by lia.
    rewrite bool_decide_eq_false_2 by lia. simpl.
    destruct Hpath as [->|(-> & Hkey)]; simpl; [done|].
    assert (findByKey range key' = None) as ->.
    { apply findByKey_None. intros id' v Hin.
      apply (range_of_elem _ _ _ _ Hrange) in Hin. by eapply Hkey. }
    by destruct private. }
  split; [|split].
  - intros Hz fuel. rewrite Hcreate. unfold createSet.
    by rewrite bool_decide_eq_true_2.
  - intros Hnz Hfull fuel. rewrite Hcreate. unfold createSet.
    rewrite bool_decide_eq_false_2 by done.
    by rewrite bool_decide_eq_true_2.
  - intros Hnz Hroom.
    pose proof (room_for_sems r nsems Hok (proj2 Hn) Hroom) as Htot.
    split; [done|].
    destruct (createSet_creates FilePermsFromMode r ctx key' nsems mode Hok)
      as (fuel0 & id & index' & _ & _ & _ & Hrun); [lia|done|done|].
    eexists fuel0, _, _. intros fuel Hfuel. rewrite Hcreate. by apply Hrun.
Qed.

(** ** A full registry *)

Lemma filled_free (n : nat) :
  (∀ id, Z.of_nat n < id → semaphores (filled n) !! id = None) ∧
  (∀ i, Z.of_nat n ≤ i → indexes (filled n) !! i = None) ∧
  size (semaphores (filled n)) = n ∧
  totalSems (filled n) = Z.of_nat n.
Proof.
  induction n as [|n (Hid & Hidx & Hsize & Htot)].
  - split; [intros; apply lookup_empty|].
    split; [intros; apply lookup_empty|].
    split; [apply map_size_empty|]. unfold totalSems. simpl. apply map_fold_empty.
  - assert (Hfree : semaphores (filled n) !! Z.of_nat (S n) = None)
      by (apply Hid; lia).
    cbn [filled semaphores indexes]. split; [|split; [|split]].
    + intros id Hlt. rewrite lookup_insert_ne by lia. apply Hid. lia.
    + intros i Hle. rewrite lookup_insert_ne by lia. apply Hidx. lia.
    + rewrite map_size_insert_None by done. by rewrite Hsize.
    + unfold totalSems in *. cbn [filled semaphores].
      rewrite totalSems_insert by done. rewrite Htot.
      change (Size (set_ID (Z.of_nat (S n)) single_set)) with 1. lia.
Qed.

Lemma reg_ok_filled (n : nat) : Z.of_nat n ≤ setsMax → reg_ok (filled n).
Proof.
  induction n as [|n IH]; intros Hn; [apply reg_ok_new|].
  destruct (filled_free n) as (Hid & Hidx & Hsize & Htot).
  unfold setsMax, SEMMNI in Hn.
  apply (reg_ok_insert (filled n) (Z.of_nat (S n)) (Z.of_nat n)
           (set_ID (Z.of_nat (S n)) single_set)).
  - apply IH. unfold setsMax, SEMMNI. lia.
  - lia.
  - apply Hid. lia.
  - unfold setsMax, SEMMNI. lia.
  - apply Hidx. lia.
  - reflexivity.
  - reflexivity.
  - change (Size (set_ID (Z.of_nat (S n)) single_set)) with 1.
    unfold semsMax, SEMMSL. lia.
  - rewrite Hsize. unfold setsMax, SEMMNI. lia.
  - rewrite Htot. change (Size (set_ID (Z.of_nat (S n)) single_set)) with 1.
    unfold semsTotalMax, SEMMNS, SEMMNI, SEMMSL. lia.
Qed.

Lemma filled_spec (n : nat) :
  userNS (filled n) = 0 ∧ lastIDUsed (filled n) = Z.of_nat n ∧
  ∀ j, 0 ≤ j < Z.of_nat n → is_Some (indexes (filled n) !! j).
Proof.
  induction n as [|n (Hns & HL & Hidx)].
  - split; [done|]. split; [done|]. intros j Hj. lia.
  - cbn [filled userNS lastIDUsed indexes]. split; [done|]. split; [done|].
    intros j Hj. rewrite lookup_insert_is_Some'.
    destruct (decide (Z.of_nat n = j)) as [->|Hne]; [by left|].
    right. apply Hidx. lia.
Qed.

(** [filled] is what the code builds: one more private set of one
    semaphore, created by alice with key 7 and mode 0600, takes
    [filled n] to [filled (S n)]. *)
Lemma filled_reachable (PermsFromMode : Z → PermMask) (n fuel : nat)
    (range : list (Z * Set_)) (create exclusive : bool) :
  Z.of_nat n < setsMax →
  FindOrCreate PermsFromMode FilePermsFromMode_spec (S fuel) range (filled n)
    ctx_alice 7 1 384 true create exclusive
  = Done (filled (S n), (Some (set_ID (Z.of_nat (S n)) single_set), None)).
Proof.
  intros Hn.
  destruct (filled_free n) as (Hid & Hidx & Hsize & Htot).
  destruct (filled_spec n) as (Hns & HL & Hused).
  unfold setsMax, SEMMNI in Hn.
  assert (Hfirst : findFirstAvailableIndex (filled n) = Some (Z.of_nat n)).
  { unfold findFirstAvailableIndex.
    apply firstAvailable_first; try (unfold setsMax, SEMMNI; lia).
    - apply Hidx. lia.
    - intros j Hj. apply Hused. lia. }
  unfold FindOrCreate.
  rewrite bool_decide_eq_false_2 by lia.
  rewrite bool_decide_eq_false_2 by (unfold semsMax, SEMMSL; lia).
  cbn [orb negb]. unfold createSet.
  rewrite bool_decide_eq_false_2 by lia.
  rewrite bool_decide_eq_false_2 by (rewrite Hsize; unfold setsMax, SEMMNI; lia).
  rewrite int32_small
    by (unfold is_int32, semsTotalMax, SEMMNS, SEMMNI, SEMMSL; lia).
  rewrite bool_decide_eq_false_2
    by (rewrite Htot; unfold semsTotalMax, SEMMNS, SEMMNI, SEMMSL; lia).
  unfold newSet. rewrite HL.
  rewrite int32_small by (unfold is_int32; lia).
  rewrite (newSet_loop_free _ _ fuel (Z.of_nat n + 1) (Z.of_nat n));
    [|lia|rewrite HL; lia|apply Hid; lia|done].
  replace (Z.of_nat n + 1) with (Z.of_nat (S n)) by lia.
  cbn [filled]. rewrite Hns. reflexivity.
Qed.

(** ** Instances of the further properties *)

Lemma pair_blocked_in_range : in_range pair_blocked.
Proof.
  unfold in_range. simpl. repeat constructor; simpl; unfold valueMax, SEMVMX; lia.
Qed.

Lemma pair_set_in_range : in_range pair_set.
Proof.
  unfold in_range. simpl. repeat constructor; simpl; unfold valueMax, SEMVMX; lia.
Qed.

Lemma reg_ok_reg7 : reg_ok reg7.
Proof.
  unfold reg7. rewrite <- !insert_empty.
  apply (reg_ok_insert (NewRegistry 0) 1 0 single_set).
  - apply reg_ok_new.
  - lia.
  - apply lookup_empty.
  - unfold setsMax, SEMMNI. lia.
  - apply lookup_empty.
  - reflexivity.
  - reflexivity.
  - vm_compute. split; [reflexivity|intros [=]].
  - vm_compute. reflexivity.
  - vm_compute. intros [=].
Qed.

Lemma ExecuteOps_wakes_witness :
  ∃ s' h',
    ExecuteOps ctx_alice pair_blocked [0%nat] [sembuf 0 1 0] alice 100
      = Done (s', h', (None, 0, None)) ∧
    ∀ i x' w, sems s' !! i = Some x' → w ∈ waiters x' → blocked (value x') w.
Proof.
  eexists _, _. split; [vm_compute; reflexivity|].
  refine (proj2 (proj2 (proj2 (ExecuteOps_wakes ctx_alice pair_blocked _ [0%nat] _
                                 [sembuf 0 1 0] alice 100 _)))).
  vm_compute. reflexivity.
Defined.

Lemma ExecuteOps_net_witness :
  ∃ s' h',
    ExecuteOps ctx_alice pair_blocked [0%nat] [sembuf 0 1 0; sembuf 0 2 0] alice 100
      = Done (s', h', (None, 0, None)) ∧
    in_range s' ∧
    ∀ i x, sems pair_blocked !! i = Some x →
      sems s' !! i =
        Some {| value := value x + netOp [sembuf 0 1 0; sembuf 0 2 0] (Z.of_nat i);
                waiters := filter (blocked (value x
                             + netOp [sembuf 0 1 0; sembuf 0 2 0] (Z.of_nat i)))
                             (waiters x);
                pid := 100 |}.
Proof.
  eexists _, _. split; [vm_compute; reflexivity|].
  refine (ExecuteOps_net ctx_alice pair_blocked _ [0%nat] _
            [sembuf 0 1 0; sembuf 0 2 0] alice 100 _ _ _ _).
  - repeat constructor; simpl; lia.
  - repeat constructor; simpl; lia.
  - exact pair_blocked_in_range.
  - vm_compute. reflexivity.
Defined.

Lemma SetVal_roundtrip_witness :
  ∃ s' h',
    SetVal ctx_alice pair_blocked [0%nat] 0 1 alice 200 = Done (s', h', None) ∧
    GetVal s' 0 alice = (1, None) ∧ GetPID s' 0 alice = (200, None).
Proof.
  eexists _, _. split; [vm_compute; reflexivity|].
  refine (proj2 (proj2 (proj2 (SetVal_roundtrip ctx_alice pair_blocked _ [0%nat] _
                                 0 1 alice 200 _))) alice _).
  - vm_compute. reflexivity.
  - vm_compute. reflexivity.
Defined.

Lemma SetVal_errors_witness :
  SetVal ctx_bob pair_set [] 0 1 bob 300 = Done (pair_set, [], Some EACCES) ∧
  EACCES = (if bool_decide (0 ≤ 1 ≤ valueMax) then
              if checkPerms pair_set bob writeMask then ERANGE else EACCES
            else ERANGE).
Proof.
  assert (Hrun : SetVal ctx_bob pair_set [] 0 1 bob 300
                 = Done (pair_set, [], Some EACCES)) by (vm_compute; reflexivity).
  split; [exact Hrun|].
  exact (proj1 (proj2 (proj2 (SetVal_errors ctx_bob pair_set pair_set [] [] 0 1
                                bob 300 EACCES Hrun)))).
Defined.

Lemma SetVal_releases_zero_waiters_witness :
  CountZeroWaiters waiting_for_zero 0 alice = (1, None) ∧
  ∃ s' h',
    SetVal ctx_alice waiting_for_zero [0%nat] 0 5 alice 200 = Done (s', h', None) ∧
    CountZeroWaiters s' 0 alice = (0, None).
Proof.
  split; [vm_compute; reflexivity|].
  eexists _, _. split; [vm_compute; reflexivity|].
  refine (SetVal_releases_zero_waiters ctx_alice waiting_for_zero _ [0%nat] _
            0 5 alice alice 200 _ _).
  - vm_compute. reflexivity.
  - vm_compute. reflexivity.
Defined.

Lemma AbortWait_undoes_block_witness :
  ExecuteOps ctx_alice pair_set [] [sembuf 0 (-1) 0] alice 100
    = Done (pair_blocked, [0%nat], (Some 0%nat, 0, None)) ∧
  AbortWait pair_blocked 0 0%nat = Done pair_set.
Proof.
  assert (Hrun : ExecuteOps ctx_alice pair_set [] [sembuf 0 (-1) 0] alice 100
                 = Done (pair_blocked, [0%nat], (Some 0%nat, 0, None)))
    by (vm_compute; reflexivity).
  split; [exact Hrun|].
  refine (AbortWait_undoes_block ctx_alice pair_set pair_blocked [] [0%nat]
            [sembuf 0 (-1) 0] alice 100 0%nat 0 _ _ Hrun).
  - repeat constructor; simpl; lia.
  - simpl. constructor.
Defined.

Lemma SetValAll_roundtrip_witness :
  ∃ s' h',
    SetValAll ctx_alice pair_blocked [0%nat] [1; 2] alice 200 = Done (s', h', None) ∧
    GetValAll s' alice = (Some [1; 2], None).
Proof.
  eexists _, _. split; [vm_compute; reflexivity|].
  refine (proj2 (proj2 (proj2 (proj2 (proj2 (proj2
            (SetValAll_roundtrip ctx_alice pair_blocked _ [0%nat] _ [1; 2]
               alice 200 _ _)))))) alice _).
  - repeat constructor; simpl; lia.
  - vm_compute. reflexivity.
  - vm_compute. reflexivity.
Defined.


Lemma creator_keeps_control_witness :
  checkPerms handed_over alice writeMask = false ∧
  ∃ s'',
    Change ctx_alice handed_over alice {| UID := 1000; GID := 1000 |}
      (FilePermsFromMode_spec 384) = (s'', None) ∧
    owner s'' = {| UID := 1000; GID := 1000 |}.
Proof.
  split; [vm_compute; reflexivity|].
  destruct (proj2 (creator_keeps_control
                     [CallChange ctx_alice alice {| UID := 2000; GID := 2000 |}
                        (FilePermsFromMode_spec 0)]
                     pair_set handed_over [] [] ctx_alice alice
                     {| UID := 1000; GID := 1000 |} (FilePermsFromMode_spec 384)
                     eq_refl (or_introl eq_refl)))
    as (s'' & HChange & Howner & _).
  exists s''. split; [exact HChange | exact Howner].
Defined.

Lemma readers_agree_witness :
  ∃ vals,
    GetValAll pair_set alice = (Some vals, None) ∧
    Z.of_nat (length vals) = Size pair_set ∧
    ∀ num, 0 ≤ num < Size pair_set →
      ∃ v, GetVal pair_set num alice = (v, None) ∧ vals !! Z.to_nat num = Some v.
Proof.
  refine (proj1 (readers_agree pair_set alice pair_set_in_range) _).
  vm_compute. reflexivity.
Defined.

Lemma capability_never_refused_witness :
  checkPerms pair_set bob writeMask = false ∧
  ∀ m, checkPerms pair_set root m = true.
Proof.
  split; [vm_compute; reflexivity|].
  refine (proj1 (capability_never_refused pair_set root _)).
  vm_compute. reflexivity.
Defined.

Lemma FindOrCreate_creates_witness :
  ∃ fuel0 r' set,
    (∀ fuel, (fuel0 ≤ fuel)%nat →
       FindOrCreate PermsFromMode_spec FilePermsFromMode_spec fuel
         (map_to_list (semaphores reg7)) reg7 ctx_bob 0 2 438 true false false
       = Done (r', (Some set, None))) ∧
    FindByID r' (ID set) = Some set ∧ Size set = 2 ∧
    owner set = {| UID := 2000; GID := 2000 |}.
Proof.
  destruct (FindOrCreate_creates PermsFromMode_spec FilePermsFromMode_spec
              (map_to_list (semaphores reg7)) reg7 ctx_bob 0 2 438 true false false)
    as (fuel0 & r' & set & index' & Hrun & _ & Hid & _ & _ & _ & _ & _ & _ & _
        & Howner & _ & _ & _ & Hsize & _).
  - exact reg_ok_reg7.
  - unfold range_of. reflexivity.
  - vm_compute. split; [reflexivity|intros [=]].
  - vm_compute. reflexivity.
  - vm_compute. intros [=].
  - left. reflexivity.
  - exists fuel0, r', set. repeat split; assumption.
Defined.

Lemma RemoveID_spec_witness :
  RemoveID (map_to_list (indexes reg7)) reg7 [] 5 alice
    = Done (reg7, [], None, Some EINVAL) ∧
  RemoveID (map_to_list (indexes reg7)) reg7 [] 1 bob
    = Done (reg7, [], None, Some EACCES) ∧
  ∃ r' h',
    RemoveID (map_to_list (indexes reg7)) reg7 [] 1 alice
      = Done (r', h', Some (set_dead true single_set), None) ∧
    FindByID r' 1 = None.
Proof.
  assert (Hrange : range_of (indexes reg7) (map_to_list (indexes reg7)))
    by (unfold range_of; reflexivity).
  pose proof (RemoveID_spec (map_to_list (indexes reg7)) reg7 [] 5 alice
                reg_ok_reg7 Hrange) as [Hinval _].
  pose proof (RemoveID_spec (map_to_list (indexes reg7)) reg7 [] 1 bob
                reg_ok_reg7 Hrange) as [_ Hbob].
  pose proof (RemoveID_spec (map_to_list (indexes reg7)) reg7 [] 1 alice
                reg_ok_reg7 Hrange) as [_ Halice].
  split; [apply Hinval; reflexivity|]. split.
  - apply (proj1 (Hbob single_set eq_refl)); reflexivity.
  - destruct (proj2 (Halice single_set eq_refl)) as (r' & h' & i & Hrun & _ & Hgone & _).
    + left. reflexivity.
    + split; simpl; constructor.
    + exists r', h'. split; assumption.
Defined.

Lemma FindByIndex_FindByID_witness :
  0 ≤ 0 < SEMMNI ∧ FindByID reg7 (ID single_set) = Some single_set.
Proof.
  exact (proj1 (FindByIndex_FindByID reg7 reg_ok_reg7) 0 single_set eq_refl).
Defined.

Lemma new_set_never_blocks_witness :
  ∃ r' s,
    newSet 4 (NewRegistry 0) ctx_alice 7 {| UID := 1000; GID := 1000 |}
      {| UID := 1000; GID := 1000 |} (FilePermsFromMode_spec 384) 2
      = Done (r', (Some s, None)) ∧
    ends (run [CallExecuteOps ctx_alice [sembuf 0 (-1) 0] alice 100;
               CallSetVal ctx_alice 0 1 alice 200] (s, []))
      (λ '(s', h'), quiet (sems s') h' ∧ dead s' = false).
Proof.
  eexists _, _. split; [vm_compute; reflexivity|].
  refine (new_set_never_blocks 4 (NewRegistry 0) _ ctx_alice 7
            {| UID := 1000; GID := 1000 |} {| UID := 1000; GID := 1000 |}
            (FilePermsFromMode_spec 384) 2 _ None []
            [CallExecuteOps ctx_alice [sembuf 0 (-1) 0] alice 100;
             CallSetVal ctx_alice 0 1 alice 200] _ _).
  - vm_compute. reflexivity.
  - reflexivity.
Defined.

Lemma new_set_in_range_witness :
  ∃ r' s s' h',
    newSet 4 (NewRegistry 0) ctx_alice 7 {| UID := 1000; GID := 1000 |}
      {| UID := 1000; GID := 1000 |} (FilePermsFromMode_spec 384) 2
      = Done (r', (Some s, None)) ∧
    run [CallExecuteOps ctx_alice [sembuf 0 3 0] alice 100;
         CallSetVal ctx_alice 1 7 alice 200] (s, []) = Done (s', h') ∧
    in_range s'.
Proof.
  eexists _, _, _, _. split; [vm_compute; reflexivity|].
  split; [vm_compute; reflexivity|].
  refine (new_set_in_range 4 (NewRegistry 0) _ ctx_alice 7
            {| UID := 1000; GID := 1000 |} {| UID := 1000; GID := 1000 |}
            (FilePermsFromMode_spec 384) 2 _ _ None [] _
            [CallExecuteOps ctx_alice [sembuf 0 3 0] alice 100;
             CallSetVal ctx_alice 1 7 alice 200] _ _ _ _).
  - vm_compute. reflexivity.
  - repeat constructor; simpl; unfold is_int16; lia.
  - repeat constructor; simpl; lia.
  - vm_compute. reflexivity.
Defined.

Lemma FindOrCreate_no_room_witness :
  semget reg7 ctx_bob 9 0 438 false true false = Done (reg7, (None, Some EINVAL)) ∧
  semget (filled (Z.to_nat setsMax)) ctx_bob 0 1 438 true false false
    = Done (filled (Z.to_nat setsMax), (None, Some ENOSPC)).
Proof.
  split.
  - refine (proj1 (FindOrCreate_no_room PermsFromMode_spec FilePermsFromMode_spec
                     (map_to_list (semaphores reg7)) reg7 ctx_bob 9 0 438
                     false true false reg_ok_reg7 _ _ _) eq_refl 4%nat).
    + unfold range_of. reflexivity.
    + vm_compute. split; intros [=].
    + right. split; [reflexivity|].
      intros id v H. simpl in H. apply lookup_singleton_Some in H as [_ <-].
      vm_compute. intros [=].
  - refine (proj1 (proj2 (FindOrCreate_no_room PermsFromMode_spec
                            FilePermsFromMode_spec
                            (map_to_list (semaphores (filled (Z.to_nat setsMax))))
                            (filled (Z.to_nat setsMax)) ctx_bob 0 1 438
                            true false false _ _ _ _)) _ _ 4%nat).
    + apply reg_ok_filled. unfold setsMax, SEMMNI. lia.
    + unfold range_of. reflexivity.
    + unfold semsMax, SEMMSL. lia.
    + left. reflexivity.
    + lia.
    + destruct (filled_free (Z.to_nat setsMax)) as (_ & _ & -> & _).
      unfold setsMax, SEMMNI. lia.
Defined.
